(** * ckipnlp: parsed-tree container (ckipnlp/container/util/parsed_tree.py)

    A shallow embedding of [ParsedNodeData], [ParsedNode], [ParsedRelation]
    and [ParsedTree], together with the part of treelib's [Tree] that the
    container relies on, and the properties of the text codec, the dict
    codec and the traversals.

    Conventions of the embedding.
    - A Python [str] is a list of characters ([str]); literals are written
      [py "..."].  Text is taken in its UTF-8 encoding: every delimiter the
      code looks for (':', '(', ')', '|', '#', '] ', 'V', 'N') is ASCII, and
      no ASCII byte occurs inside a multi-byte UTF-8 sequence, so scanning
      bytes and scanning code points agree.
    - A call that may raise returns a [result]: [Ok v] or [Raise e].
    - A generator is modelled by the list of everything it yields, or by the
      exception it raises when it is consumed to the end.
    - The recursive methods take the recursion depth still available as
      [fuel]; running out of it is Python's [RecursionError]. *)

From Stdlib Require Import ZArith List Ascii String Lia.
From stdpp Require Import base option list strings gmap sorting.
From Equations Require Import Equations.

Open Scope Z_scope.

(** ** Python strings *)

Abbreviation str := (list ascii).

Definition py (s : string) : str := list_ascii_of_string s.

(** [c in s] for a one-character [c]. *)
Definition str_contains (c : ascii) (s : str) : bool :=
  existsb (Ascii.eqb c) s.

(** [s.split(c)] for a one-character separator [c] (no [maxsplit]). *)
Fixpoint str_split (c : ascii) (s : str) : list str :=
  match s with
  | [] => [[]]
  | x :: s' =>
      if Ascii.eqb x c then [] :: str_split c s'
      else match str_split c s' with
           | [] => [[x]]
           | f :: fs => (x :: f) :: fs
           end
  end.

(** [sep.join(parts)]. *)
Fixpoint str_join (sep : str) (parts : list str) : str :=
  match parts with
  | [] => []
  | [p] => p
  | p :: ps => p ++ sep ++ str_join sep ps
  end.

(** [s.startswith(p)]. *)
Fixpoint str_startswith (p s : str) : bool :=
  match p, s with
  | [], _ => true
  | _ :: _, [] => false
  | a :: p', b :: s' => Ascii.eqb a b && str_startswith p' s'
  end.

(** The first occurrence of [sep] in [s]: what stands before it and what
    stands after it ([s.partition(sep)] without the separator), or [None]
    when [sep] does not occur. *)
Fixpoint str_cut (sep s : str) : option (str * str) :=
  if str_startswith sep s then Some ([], drop (length sep) s)
  else match s with
       | [] => None
       | x :: s' =>
           match str_cut sep s' with
           | Some (a, b) => Some (x :: a, b)
           | None => None
           end
       end.

(** [s.split(sep, maxsplit)] for a non-empty [sep]. *)
Fixpoint str_split_max (sep : str) (maxsplit : nat) (s : str) : list str :=
  match maxsplit with
  | O => [s]
  | S n =>
      match str_cut sep s with
      | Some (a, b) => a :: str_split_max sep n b
      | None => [s]
      end
  end.

(** [s.rstrip(c)] for a one-character [c]: every trailing [c] goes. *)
Fixpoint str_rstrip (c : ascii) (s : str) : str :=
  match s with
  | [] => []
  | x :: s' =>
      match str_rstrip c s' with
      | [] => if Ascii.eqb x c then [] else [x]
      | r => x :: r
      end
  end.

(** [l[-1]] of a list known to be non-empty at the call. *)
Definition py_last {A} (l : list A) : option A := last l.

(** ** Exceptions and results *)

Inductive exn : Type :=
  | TypeError             (* a call with too many positional arguments *)
  | IndexError            (* [l[-1]] or [l.pop()] on an empty list *)
  | AttributeError        (* a method looked up on [None] *)
  | OSError               (* treelib: the node id argument is [None] *)
  | DuplicatedNodeIdError (* treelib: the identifier is taken *)
  | MultipleRootError     (* treelib: a second node without parent *)
  | NodeIDAbsentError     (* treelib: no node has this identifier *)
  | RecursionError.       (* the recursion depth is used up *)

Inductive result (A : Type) : Type :=
  | Ok (a : A)
  | Raise (e : exn).

Arguments Ok {A} a.
Arguments Raise {A} e.

#[global] Instance result_ret : MRet result := fun _ a => Ok a.

#[global] Instance result_bind : MBind result := fun _ _ k r =>
  match r with
  | Ok a => k a
  | Raise e => Raise e
  end.

Definition is_ok {A} (r : result A) : Prop :=
  match r with Ok _ => True | Raise _ => False end.

(** [for a in l: s = f(a, s)], stopping at the first exception. *)
Fixpoint foldM {A S} (f : A -> S -> result S) (l : list A) (s : S) : result S :=
  match l with
  | [] => Ok s
  | a :: l' => s' ← f a s; foldM f l' s'
  end.

(** ** ParsedNodeData *)

Module ParsedNodeData.

(** The named tuple [(role, pos, word)], every field defaulting to [None]. *)
Record t : Type := mk { role : option str; pos : option str; word : option str }.

(** [cls] called on the unpacked fields: at most three positional
    arguments. *)
Definition new (fields : list str) : result t :=
  match fields with
  | [] => Ok (mk None None None)
  | [r] => Ok (mk (Some r) None None)
  | [r; p] => Ok (mk (Some r) (Some p) None)
  | [r; p; w] => Ok (mk (Some r) (Some p) (Some w))
  | _ => Raise TypeError
  end.

Definition from_text (data : str) : result t :=
  if str_contains ":" data then new (str_split ":" data)
  else Ok (mk None (Some data) None).

(** [filter(None, self)]: the fields that are neither [None] nor empty. *)
Definition truthy (fields : list (option str)) : list str :=
  omap (fun o => match o with
                 | Some (c :: s) => Some (c :: s)
                 | _ => None
                 end) fields.

Definition to_text (d : t) : str :=
  str_join (py ":") (truthy [role d; pos d; word d]).

(** The dict form [{'role': .., 'pos': .., 'word': ..}]: a value is a
    string or [None]. *)
Record dict : Type := mk_dict
  { d_role : option str; d_pos : option str; d_word : option str }.

(** Modelled from the spec: [BaseTuple.to_dict] (ckipnlp/container/base.py
    is not part of the sources at hand).  Exact field-name mapping; an unset
    field maps to an explicit null and is not omitted. *)
Definition to_dict (d : t) : dict := mk_dict (role d) (pos d) (word d).

(** Modelled from the spec: [BaseTuple.from_dict] (ckipnlp/container/base.py
    is not part of the sources at hand).  Exact field-name mapping. *)
Definition from_dict (d : dict) : t := mk (d_role d) (d_pos d) (d_word d).

End ParsedNodeData.

(** ** ParsedNode, ParsedRelation and the dict form of a tree *)

(** A treelib node as [ParsedTree] uses it: the identifier, the tag, the
    payload, and the links treelib keeps for it within its tree (the parent's
    identifier and the children's identifiers in insertion order). *)
Record ParsedNode : Type := mk_node
  { identifier : Z;
    tag : str;
    data : ParsedNodeData.t;
    predecessor : option Z;
    successors : list Z }.

(** [node.is_leaf()]: the node has no successors. *)
Definition is_leaf (n : ParsedNode) : bool :=
  match successors n with
  | [] => true
  | _ :: _ => false
  end.

Record ParsedRelation : Type := mk_relation
  { head : ParsedNode; tail : ParsedNode; relation : ParsedNode }.

Definition head_first (r : ParsedRelation) : bool :=
  identifier (head r) <=? identifier (tail r).

(** [{'id': .., 'data': {..}, 'children': [..]}], recursively. *)
#[local] Unset Elimination Schemes.
Inductive tree_dict : Type :=
  | TreeDict (id : Z) (data : ParsedNodeData.dict) (children : list tree_dict).

#[local] Set Elimination Schemes.

Definition dict_id (d : tree_dict) : Z :=
  match d with TreeDict i _ _ => i end.

Definition dict_data (d : tree_dict) : ParsedNodeData.dict :=
  match d with TreeDict _ x _ => x end.

Definition dict_children (d : tree_dict) : list tree_dict :=
  match d with TreeDict _ _ cs => cs end.

(** ** treelib.Tree *)

(** The store of a treelib tree: [_nodes], a dict from identifier to node,
    and [root], the identifier of the root or [None]. *)
Record Tree : Type := mk_tree
  { nodes : gmap Z ParsedNode;
    root : option Z }.

Module Tree.

Definition empty : Tree := mk_tree ∅ None.

(** [tree[key]]: a missing key, [None] included, is [NodeIDAbsentError]. *)
Definition getitem (t : Tree) (key : option Z) : result ParsedNode :=
  match key with
  | None => Raise NodeIDAbsentError
  | Some k =>
      match nodes t !! k with
      | Some n => Ok n
      | None => Raise NodeIDAbsentError
      end
  end.

(** [tree.is_branch(nid)]: the identifiers of the children of [nid]. *)
Definition is_branch (t : Tree) (nid : option Z) : result (list Z) :=
  match nid with
  | None => Raise OSError
  | Some k =>
      match nodes t !! k with
      | Some n => Ok (successors n)
      | None => Raise NodeIDAbsentError
      end
  end.

(** [tree.children(nid)]: [[tree[i] for i in tree.is_branch(nid)]]. *)
Definition children (t : Tree) (nid : option Z) : result (list ParsedNode) :=
  ids ← is_branch t nid;
  mapM (fun i => getitem t (Some i)) ids.

(** The parent gets [nid] appended to its successors. *)
Definition add_successor (nid : Z) (n : ParsedNode) : ParsedNode :=
  mk_node (identifier n) (tag n) (data n) (predecessor n) (successors n ++ [nid]).

(** [tree.create_node(tag, identifier, parent, data)], that is
    [tree.add_node(Node(tag, identifier, data), parent)]. *)
Definition create_node (t : Tree) (tg : str) (nid : Z) (parent : option Z)
    (d : ParsedNodeData.t) : result Tree :=
  match nodes t !! nid with
  | Some _ => Raise DuplicatedNodeIdError
  | None =>
      let node := mk_node nid tg d parent [] in
      match parent with
      | None =>
          match root t with
          | Some _ => Raise MultipleRootError
          | None => Ok (mk_tree (<[nid := node]> (nodes t)) (Some nid))
          end
      | Some pid =>
          match nodes t !! pid with
          | None => Raise NodeIDAbsentError
          | Some _ =>
              Ok (mk_tree (alter (add_successor nid) pid (<[nid := node]> (nodes t)))
                          (root t))
          end
      end
  end.

End Tree.

(** ** ParsedTree *)

Module ParsedTree.

(** *** Text codec *)

Definition normalize_text (tree_text : str) : str :=
  if str_contains "#" tree_text
  then match py_last (str_split_max (py "] ") 2 tree_text) with
       | Some piece => str_rstrip "#" piece
       | None => tree_text
       end
  else tree_text.

(** The local variables of [from_text].  [node_queue] is kept with its last
    element first: the head of the list is Python's [node_queue[-1]]. *)
Record scan : Type := mk_scan
  { s_tree : Tree;
    s_node_id : Z;
    s_node_queue : list (option Z);
    s_text : str;
    s_ending : bool }.

(** [node_data = from_text(text); tree.create_node(tag=text,
    identifier=node_id, parent=node_queue[-1], data=node_data)]. *)
Definition flush (st : scan) : result Tree :=
  node_data ← ParsedNodeData.from_text (s_text st);
  match s_node_queue st with
  | [] => Raise IndexError
  | parent :: _ => Tree.create_node (s_tree st) (s_text st) (s_node_id st) parent node_data
  end.

(** [node_queue.pop()]. *)
Definition pop (q : list (option Z)) : result (list (option Z)) :=
  match q with
  | [] => Raise IndexError
  | _ :: q' => Ok q'
  end.

(** [if not ending: node_data = ...; tree.create_node(...); node_id += 1],
    the block shared by the branches of ')' and '|'. *)
Definition flush_pending (st : scan) : result scan :=
  if s_ending st then Ok st
  else
    t ← flush st;
    Ok (mk_scan t (s_node_id st + 1) (s_node_queue st) (s_text st) (s_ending st)).

(** One turn of the loop [for char in data]. *)
Definition step (char : ascii) (st : scan) : result scan :=
  if Ascii.eqb char "(" then
    t ← flush st;
    Ok (mk_scan t (s_node_id st + 1) (Some (s_node_id st) :: s_node_queue st) [] (s_ending st))
  else if Ascii.eqb char ")" then
    st1 ← flush_pending st;
    q ← pop (s_node_queue st1);
    Ok (mk_scan (s_tree st1) (s_node_id st1) q [] true)
  else if Ascii.eqb char "|" then
    st1 ← flush_pending st;
    Ok (mk_scan (s_tree st1) (s_node_id st1) (s_node_queue st1) [] true)
  else
    Ok (mk_scan (s_tree st) (s_node_id st) (s_node_queue st) (s_text st ++ [char]) false).

Definition scan_init : scan := mk_scan Tree.empty 0 [None] [] true.

Definition from_text (data : str) (normalize : bool) : result Tree :=
  let data := if normalize then normalize_text data else data in
  st ← foldM step data scan_init;
  Ok (s_tree st).

Fixpoint to_text (fuel : nat) (t : Tree) (node_id : option Z) : result str :=
  match fuel with
  | O => Raise RecursionError
  | S fuel' =>
      let node_id := match node_id with None => root t | Some _ => node_id end in
      node ← Tree.getitem t node_id;
      let tree_text := ParsedNodeData.to_text (data node) in
      cs ← Tree.children t node_id;
      texts ← mapM (fun child => to_text fuel' t (Some (identifier child))) cs;
      let children_text := str_join (py "|") texts in
      match children_text with
      | [] => Ok tree_text
      | _ :: _ => Ok (tree_text ++ py "(" ++ children_text ++ py ")")
      end
  end.

(** *** Dict codec *)

Fixpoint dict_size (d : tree_dict) : nat :=
  match d with
  | TreeDict _ _ cs => S (list_sum (map dict_size cs))
  end.

Definition queue_weight (queue : list (tree_dict * option Z)) : nat :=
  list_sum (map (fun e => dict_size (fst e)) queue).

Lemma queue_weight_step node_dict (parent_id : option Z) queue (node_id : Z) :
  (queue_weight (queue ++ map (fun child => (child, Some node_id)) (dict_children node_dict))
   < queue_weight ((node_dict, parent_id) :: queue))%nat.
Proof.
  unfold queue_weight. rewrite map_app, list_sum_app, map_map. simpl.
  destruct node_dict as [i x cs]. simpl.
  rewrite (map_ext _ dict_size) by reflexivity. lia.
Qed.

(** The loop [while queue: ...] of [from_dict]; the queue holds pairs
    [(node_dict, parent_id)], [popleft] takes its head and [append] adds
    at its end. *)
Equations from_dict_loop (queue : list (tree_dict * option Z)) (tree : Tree)
  : result Tree by wf (queue_weight queue) lt :=
from_dict_loop [] tree := Ok tree;
from_dict_loop ((node_dict, parent_id) :: queue) tree :=
  let node_id := dict_id node_dict in
  let node_data := ParsedNodeData.from_dict (dict_data node_dict) in
  match Tree.create_node tree (ParsedNodeData.to_text node_data) node_id parent_id node_data with
  | Raise e => Raise e
  | Ok tree' =>
      from_dict_loop
        (queue ++ map (fun child => (child, Some node_id)) (dict_children node_dict)) tree'
  end.
Next Obligation. apply queue_weight_step. Qed.

Definition from_dict (data : tree_dict) : result Tree :=
  from_dict_loop [(data, None)] Tree.empty.

Fixpoint to_dict (fuel : nat) (t : Tree) (node_id : option Z) : result tree_dict :=
  match fuel with
  | O => Raise RecursionError
  | S fuel' =>
      let node_id := match node_id with None => root t | Some _ => node_id end in
      node ← Tree.getitem t node_id;
      cs ← Tree.children t node_id;
      ds ← mapM (fun child => to_dict fuel' t (Some (identifier child))) cs;
      Ok (TreeDict (identifier node) (ParsedNodeData.to_dict (data node)) ds)
  end.

(** *** Traversals *)

(** [node.data.role == r]. *)
Definition has_role (r : str) (n : ParsedNode) : bool :=
  bool_decide (ParsedNodeData.role (data n) = Some r).

(** [node.data.role in roles] for a collection of strings. *)
Definition role_in (roles : list str) (n : ParsedNode) : bool :=
  match ParsedNodeData.role (data n) with
  | Some r => bool_decide (r ∈ roles)
  | None => false
  end.

(** [node in l]: treelib nodes compare by identity, and within one tree
    two nodes are the same object exactly when their identifiers agree. *)
Definition node_in (n : ParsedNode) (l : list ParsedNode) : bool :=
  existsb (fun m => identifier m =? identifier n) l.

(** [node.data.pos.startswith(p)]; on a [pos] that is [None] the attribute
    lookup fails. *)
Definition pos_startswith (p : str) (n : ParsedNode) : result bool :=
  match ParsedNodeData.pos (data n) with
  | Some s => Ok (str_startswith p s)
  | None => Raise AttributeError
  end.

Definition get_children (t : Tree) (node_id : option Z) (role : str)
  : result (list ParsedNode) :=
  cs ← Tree.children t node_id;
  Ok (List.filter (has_role role) cs).

(** [if not head_nodes: for child in children: if p(child):
    head_nodes.append(child)]. *)
Definition find_heads (p : ParsedNode -> bool) (children head_nodes : list ParsedNode)
  : list ParsedNode :=
  match head_nodes with
  | [] => head_nodes ++ List.filter p children
  | _ :: _ => head_nodes
  end.

Definition is_dummy (n : ParsedNode) : bool :=
  role_in [py "DUMMY"; py "DUMMY1"; py "DUMMY2"] n.

(** The list [head_nodes] of [get_heads] when its loop [for node in
    head_nodes] starts. *)
Definition head_nodes (t : Tree) (root_id : option Z) (semantic : bool)
  : result (list ParsedNode) :=
  children ← Tree.children t root_id;
  hs ← match children with
       | [] => n ← Tree.getitem t root_id; Ok [n]
       | _ :: _ => Ok []
       end;
  let hs := if semantic then find_heads is_dummy children hs else hs in
  let hs := if semantic then find_heads (has_role (py "head")) children hs else hs in
  let hs := find_heads (has_role (py "Head")) children hs in
  match hs with
  | [] => match py_last children with
          | Some c => Ok (hs ++ [c])
          | None => Raise IndexError
          end
  | _ :: _ => Ok hs
  end.

Fixpoint get_heads (fuel : nat) (t : Tree) (root_id : option Z) (semantic deep : bool)
  : result (list ParsedNode) :=
  match fuel with
  | O => Raise RecursionError
  | S fuel' =>
      let root_id := match root_id with None => root t | Some _ => root_id end in
      hs ← head_nodes t root_id semantic;
      yielded ← mapM (fun node =>
                   if deep && negb (is_leaf node)
                   then get_heads fuel' t (Some (identifier node)) semantic true
                   else Ok [node]) hs;
      Ok (concat yielded)
  end.

(** What the inner loop [for tail in children] of [get_relations] yields
    for one [head_node]. *)
Definition tail_relations (fuel : nat) (t : Tree) (semantic : bool)
    (head_children : list ParsedNode) (head_node tail : ParsedNode)
  : result (list ParsedRelation) :=
  if negb (has_role (py "Head") tail) && negb (node_in tail head_children) then
    if is_leaf tail then Ok [mk_relation head_node tail tail]
    else
      ns ← get_heads fuel t (Some (identifier tail)) semantic true;
      Ok (map (fun node => mk_relation head_node node tail) ns)
  else Ok [].

Fixpoint get_relations (fuel : nat) (t : Tree) (root_id : option Z) (semantic : bool)
  : result (list ParsedRelation) :=
  match fuel with
  | O => Raise RecursionError
  | S fuel' =>
      let root_id := match root_id with None => root t | Some _ => root_id end in
      children ← Tree.children t root_id;
      head_children ← get_heads fuel' t root_id semantic false;
      heads ← get_heads fuel' t root_id semantic true;
      here ← mapM (fun head_node =>
               rs ← mapM (tail_relations fuel' t semantic head_children head_node) children;
               Ok (concat rs)) heads;
      below ← mapM (fun child =>
                get_relations fuel' t (Some (identifier child)) semantic) children;
      Ok (concat here ++ concat below)
  end.

Section Subjects.

(** [SUBJECT_ROLES] and [NEUTRAL_ROLES] of ckipnlp/data/parsed.py: two
    fixed collections of role labels, not part of the sources at hand. *)
Variables SUBJECT_ROLES NEUTRAL_ROLES : list str.

(** The test on [subroot] in [get_subjects], for one verb [head]. *)
Definition is_subject (head subroot : ParsedNode) : result bool :=
  n ← pos_startswith (py "N") subroot;
  Ok (n && (role_in SUBJECT_ROLES subroot
            || (role_in NEUTRAL_ROLES subroot
                && (identifier subroot <? identifier head)))).

(** What the loop [for subroot in self.children(root.identifier)] yields
    for one [head]. *)
Definition head_subjects (fuel : nat) (t : Tree) (semantic deep : bool)
    (root head : ParsedNode) : result (list ParsedNode) :=
  v ← pos_startswith (py "V") head;
  if (v : bool) then
    subroots ← Tree.children t (Some (identifier root));
    per_sub ← mapM (fun subroot : ParsedNode =>
                 q ← is_subject head subroot;
                 if (q : bool)
                 then get_heads fuel t (Some (identifier subroot)) semantic deep
                 else Ok []) subroots;
    Ok (concat per_sub)
  else Ok [].

Definition get_subjects (fuel : nat) (t : Tree) (root_id : option Z)
    (semantic deep : bool) : result (list ParsedNode) :=
  match fuel with
  | O => Raise RecursionError
  | S fuel' =>
      let root_id := match root_id with None => root t | Some _ => root_id end in
      root ← Tree.getitem t root_id;
      if bool_decide (ParsedNodeData.pos (data root) = Some (py "NP")) then
        get_heads fuel' t (Some (identifier root)) semantic deep
      else if bool_decide (ParsedNodeData.pos (data root) = Some (py "S")) then
        heads ← get_heads fuel' t (Some (identifier root)) false false;
        per_head ← mapM (head_subjects fuel' t semantic deep root) heads;
        Ok (concat per_head)
      else Ok []
  end.

End Subjects.

End ParsedTree.

(** * Vocabulary of the properties *)

(** ** ParsedTree.normalize_text *)

(** [sep] is a substring of [s]. *)
Definition occurs (sep s : str) : Prop := exists u v, s = u ++ sep ++ v.

(** ** Unbalanced brackets in ParsedTree.from_text *)

(** The construction is aborted by the exception of an empty list or by
    that of a node text with too many fields. *)
Definition aborted {A} (r : result A) : Prop :=
  r = Raise IndexError \/ r = Raise TypeError.

(** ** get_heads: the choice of the heads *)

(** The roles that mark a head under the semantic policy. *)
Definition head_roles : list str :=
  [py "Head"; py "head"; py "DUMMY"; py "DUMMY1"; py "DUMMY2"].

(** ** Trees built through treelib *)

(** The subtree under [k] is closed in the store (every identifier met has a
    node, filed under its own identifier) and has at most [h] levels. *)
Fixpoint closed_below (h : nat) (t : Tree) (k : Z) : bool :=
  match h with
  | O => false
  | S h' =>
      match nodes t !! k with
      | None => false
      | Some n => (identifier n =? k) && forallb (closed_below h' t) (successors n)
      end
  end.

(** The trees a program can hold: the empty tree and what successful calls
    of [create_node] make of it. *)
Inductive built : Tree -> Prop :=
  | built_empty : built Tree.empty
  | built_create t tg nid parent d t' :
      built t -> Tree.create_node t tg nid parent d = Ok t' -> built t'.

(** ** The traversals on built trees *)

(** [node.data.pos] is a string. *)
Definition has_pos (n : ParsedNode) : bool :=
  match ParsedNodeData.pos (data n) with
  | Some _ => true
  | None => false
  end.

(** ** Examples *)

Definition tree_of (r : result Tree) : Tree :=
  match r with
  | Ok t => t
  | Raise _ => Tree.empty
  end.

Definition tree_of_node (t : Tree) (k : Z) : ParsedNode :=
  match nodes t !! k with
  | Some n => n
  | None => mk_node k [] (ParsedNodeData.mk None None None) None []
  end.

Definition tree_of_children (t : Tree) (k : Z) : list ParsedNode :=
  match Tree.children t (Some k) with
  | Ok cs => cs
  | Raise _ => []
  end.

(** The example of the documentation. *)
Definition doc_text : str := py "S(Head:Nab:中文字|particle:Td:耶)".

Definition doc_tree : Tree := tree_of (ParsedTree.from_text doc_text true).

(** A root with three leaves, none of them marked as a head. *)
Definition flat_tree : Tree :=
  tree_of (ParsedTree.from_text (py "S(agent:Na:x|time:Nd:y|theme:Nc:z)") true).

(** ** The traversals complete *)

(** The dict of a clause whose head has no pos. *)
Definition posless_head_dict : tree_dict :=
  TreeDict 0 (ParsedNodeData.mk_dict None (Some (py "S")) None)
    [TreeDict 1 (ParsedNodeData.mk_dict (Some (py "Head")) None None) []].

Definition posless_head_tree : Tree := tree_of (ParsedTree.from_dict posless_head_dict).

(** ** get_subjects *)

(** [node.data.pos] starts with [p] ([false] when there is no pos). *)
Definition pos_starts (p : str) (n : ParsedNode) : bool :=
  match ParsedNodeData.pos (data n) with
  | Some s => str_startswith p s
  | None => false
  end.

(** A child qualifies as a subject bearer of the clause headed by the verb
    [head]: a nominal with a subject role, or a nominal with a neutral role
    standing before the verb. *)
Definition qualifies (SUBJECT_ROLES NEUTRAL_ROLES : list str)
    (head subroot : ParsedNode) : bool :=
  pos_starts (py "N") subroot
  && (ParsedTree.role_in SUBJECT_ROLES subroot
      || (ParsedTree.role_in NEUTRAL_ROLES subroot
          && (identifier subroot <? identifier head))).

(** A clause with a neutral nominal on either side of its verb. *)
Definition clause_tree : Tree :=
  tree_of (ParsedTree.from_text (py "S(theme:Na:a|Head:VC:b|theme:Nb:c)") true).

(** ** The dict codec *)

(** The dict itself and every dict nested in it, parents first. *)
Fixpoint subdicts (d : tree_dict) : list tree_dict :=
  match d with
  | TreeDict _ _ cs => d :: flat_map subdicts cs
  end.

(** The identifiers a dict holds. *)
Definition dict_ids (d : tree_dict) : list Z := map dict_id (subdicts d).

(** The levels of a dict. *)
Fixpoint dict_height (d : tree_dict) : nat :=
  match d with
  | TreeDict _ _ cs => S (list_max (map dict_height cs))
  end.

(** The dicts waiting in the queue of [from_dict], nested ones included. *)
Definition queue_dicts (queue : list (tree_dict * option Z)) : list tree_dict :=
  flat_map (fun e => subdicts (fst e)) queue.

(** The identifiers of the queue entries whose parent is [i], in order. *)
Definition queued_under (i : Z) (queue : list (tree_dict * option Z)) : list Z :=
  map (fun e => dict_id (fst e))
      (List.filter (fun e => bool_decide (snd e = Some i)) queue).

Definition add_successors (l : list Z) (n : ParsedNode) : ParsedNode :=
  mk_node (identifier n) (tag n) (data n) (predecessor n) (successors n ++ l).

(** The node of [d] is in the store as the dict describes it. *)
Definition node_ok (t : Tree) (d : tree_dict) : Prop :=
  exists n, nodes t !! dict_id d = Some n /\
            identifier n = dict_id d /\
            data n = ParsedNodeData.from_dict (dict_data d) /\
            successors n = map dict_id (dict_children d).

(** The dict form of the example of the documentation. *)
Definition doc_dict : tree_dict :=
  TreeDict 0 (ParsedNodeData.mk_dict None (Some (py "S")) None)
    [TreeDict 1 (ParsedNodeData.mk_dict (Some (py "Head")) (Some (py "Nab"))
                   (Some (py "中文字"))) [];
     TreeDict 2 (ParsedNodeData.mk_dict (Some (py "particle")) (Some (py "Td"))
                   (Some (py "耶"))) []].

(** ** The text codec *)

(** A bracketed tree text as the grammar reads it,
    [tree := node ('(' tree ('|' tree)* ')')?]: a node text and the trees of
    its bracket group (none when there is no group). *)
#[local] Unset Elimination Schemes.
Inductive text_tree : Type :=
  | TextNode (label : str) (children : list text_tree).
#[local] Set Elimination Schemes.

Definition tt_label (tt : text_tree) : str :=
  match tt with TextNode l _ => l end.

Definition tt_children (tt : text_tree) : list text_tree :=
  match tt with TextNode _ cs => cs end.

(** The text of a tree. *)
Fixpoint render (tt : text_tree) : str :=
  match tt with
  | TextNode l [] => l
  | TextNode l cs => l ++ py "(" ++ str_join (py "|") (map render cs) ++ py ")"
  end.

Definition is_delimiter (c : ascii) : bool :=
  Ascii.eqb c "(" || Ascii.eqb c ")" || Ascii.eqb c "|".

(** A node text without empty segments: one to three ':'-separated fields,
    none of them empty, and no bracket or bar inside. *)
Definition valid_label (l : str) : bool :=
  (length (str_split ":" l) <=? 3)%nat
  && forallb (fun f => negb (bool_decide (f = []))) (str_split ":" l)
  && forallb (fun c => negb (is_delimiter c)) l.

(** Every node text of the tree is valid. *)
Fixpoint valid (tt : text_tree) : bool :=
  match tt with
  | TextNode l cs => valid_label l && forallb valid cs
  end.

(** A well-formed bracketed tree text without empty segments. *)
Definition well_formed_text (s : str) : Prop :=
  exists tt, valid tt = true /\ s = render tt.

Fixpoint tt_size (tt : text_tree) : nat :=
  match tt with
  | TextNode _ cs => S (list_sum (map tt_size cs))
  end.

Fixpoint tt_height (tt : text_tree) : nat :=
  match tt with
  | TextNode _ cs => S (list_max (map tt_height cs))
  end.

(** The identifiers [from_text] gives to the trees of a bracket group when
    the first of them gets [n]: each tree takes as many as it has nodes. *)
Fixpoint child_ids (n : Z) (cs : list text_tree) : list Z :=
  match cs with
  | [] => []
  | c :: cs' => n :: child_ids (n + Z.of_nat (tt_size c)) cs'
  end.

(** The store files the tree [tt] under the identifiers [n], [n+1], ... in
    the order of the text. *)
Fixpoint stored (t : Tree) (n : Z) (tt : text_tree) : Prop :=
  match tt with
  | TextNode l cs =>
      (exists nd, nodes t !! n = Some nd /\ identifier nd = n /\
                  ParsedNodeData.from_text l = Ok (data nd) /\
                  successors nd = child_ids (n + 1) cs)
      /\ (fix forest (m : Z) (cs : list text_tree) : Prop :=
            match cs with
            | [] => True
            | c :: cs' => stored t m c /\ forest (m + Z.of_nat (tt_size c)) cs'
            end) (n + 1) cs
  end.

Fixpoint stored_forest (t : Tree) (m : Z) (cs : list text_tree) : Prop :=
  match cs with
  | [] => True
  | c :: cs' => stored t m c /\ stored_forest t (m + Z.of_nat (tt_size c)) cs'
  end.

(** ** What the scan makes of a well-formed text *)

Definition fresh_from (t : Tree) (n : Z) : Prop :=
  forall i, n <= i -> nodes t !! i = None.

Definition forest_size (cs : list text_tree) : nat := list_sum (map tt_size cs).

(** The scan of the text of [tt] followed by a ')' or a '|', started with an
    empty buffer under the open parent [p]: the nodes of [tt] are created
    under the identifiers from [n] on, [p] gains the child [n], and nothing
    else changes. *)
Definition scan_ok (tt : text_tree) : Prop :=
  valid tt = true ->
  forall t n p q e delim rest pn,
    delim = ")"%char \/ delim = "|"%char ->
    fresh_from t n -> p < n -> nodes t !! p = Some pn ->
    exists t',
      foldM ParsedTree.step (render tt ++ delim :: rest)
        (ParsedTree.mk_scan t n (Some p :: q) [] e)
      = foldM ParsedTree.step rest
          (ParsedTree.mk_scan t' (n + Z.of_nat (tt_size tt))
             (if Ascii.eqb delim ")" then q else Some p :: q) [] true) /\
      root t' = root t /\
      fresh_from t' (n + Z.of_nat (tt_size tt)) /\
      (forall i, i < n -> i <> p -> nodes t' !! i = nodes t !! i) /\
      nodes t' !! p = Some (Tree.add_successor n pn) /\
      stored t' n tt.

(** ** Node data of the text form *)

(** A field as the text form can carry it: not empty and without ':'. *)
Definition plain_field (f : str) : bool :=
  negb (bool_decide (f = [])) && negb (str_contains ":" f).

(** Node data as [from_text] produces them from one, two or three plain
    fields: the pos alone, role and pos, or role, pos and word. *)
Definition text_shaped (d : ParsedNodeData.t) : bool :=
  match ParsedNodeData.role d, ParsedNodeData.pos d, ParsedNodeData.word d with
  | None, Some p, None => plain_field p
  | Some r, Some p, None => plain_field r && plain_field p
  | Some r, Some p, Some w => plain_field r && plain_field p && plain_field w
  | _, _, _ => false
  end.

(** A clause that carries both a syntactic and a semantic head marker. *)
Definition marked_tree : Tree :=
  tree_of (ParsedTree.from_text (py "S(Head:VC:a|DUMMY:Na:b|theme:Nb:c)") true).

(** ** The trees of from_text *)

(** What holds of a node filed under [i] while [from_text] has issued the
    identifiers below [bound]: it carries its own identifier, its data are
    its tag read as a node text, it has a pos, only the node 0 has no
    parent, a parent has a smaller identifier than its child, and the
    children stand in increasing order of their identifiers. *)
Definition scanned_node (bound i : Z) (n : ParsedNode) : Prop :=
  identifier n = i /\
  ParsedNodeData.from_text (tag n) = Ok (data n) /\
  has_pos n = true /\
  (predecessor n = None <-> i = 0) /\
  (forall p, predecessor n = Some p -> 0 <= p < i) /\
  Forall (fun c => i < c < bound) (successors n) /\
  StronglySorted Z.lt (successors n).

(** The links of the store agree: the successors of a node are the nodes
    that name it as their predecessor. *)
Definition linked (t : Tree) : Prop :=
  forall p c, (exists np, nodes t !! p = Some np /\ c ∈ successors np)
              <-> (exists nc, nodes t !! c = Some nc /\ predecessor nc = Some p).

(** What holds of the tree, the counter and the stack of [from_text] after
    each turn of its loop. *)
Definition scanned (t : Tree) (bound : Z) (queue : list (option Z)) : Prop :=
  0 <= bound /\
  (forall i, is_Some (nodes t !! i) <-> 0 <= i < bound) /\
  (forall i n, nodes t !! i = Some n -> scanned_node bound i n) /\
  linked t /\
  root t = (if decide (bound = 0) then None else Some 0) /\
  Forall (fun p => forall pid, p = Some pid -> 0 <= pid < bound) queue.

(** ** From the text form to the dict form *)

(** The data [ParsedNodeData.from_text] reads from a node text (no field
    set when the text is refused). *)
Definition label_data (l : str) : ParsedNodeData.t :=
  match ParsedNodeData.from_text l with
  | Ok d => d
  | Raise _ => ParsedNodeData.mk None None None
  end.

(** The dict form of a text tree whose nodes are numbered from [n] on in the
    order of the text. *)
Fixpoint numbered (n : Z) (tt : text_tree) : tree_dict :=
  match tt with
  | TextNode l cs =>
      TreeDict n (ParsedNodeData.to_dict (label_data l))
        ((fix forest (m : Z) (cs : list text_tree) : list tree_dict :=
            match cs with
            | [] => []
            | c :: cs' => numbered m c :: forest (m + Z.of_nat (tt_size c)) cs'
            end) (n + 1) cs)
  end.

Fixpoint numbered_forest (m : Z) (cs : list text_tree) : list tree_dict :=
  match cs with
  | [] => []
  | c :: cs' => numbered m c :: numbered_forest (m + Z.of_nat (tt_size c)) cs'
  end.

(** ** From the dict form to the text form *)

(** The text of a dict: the node text of its data, followed, when the texts
    of the children joined by '|' are not empty, by that in brackets. *)
Fixpoint dict_text (d : tree_dict) : str :=
  match d with
  | TreeDict _ x cs =>
      let tree_text := ParsedNodeData.to_text (ParsedNodeData.from_dict x) in
      match str_join (py "|") (map dict_text cs) with
      | [] => tree_text
      | (_ :: _) as children_text => tree_text ++ py "(" ++ children_text ++ py ")"
      end
  end.

(** * Properties *)

(** ** Strings *)

Lemma ascii_eqb_true (a b : ascii) : Ascii.eqb a b = true <-> a = b.
Proof. apply Ascii.eqb_eq. Qed.

Lemma ascii_eqb_false (a b : ascii) : Ascii.eqb a b = false <-> a <> b.
Proof. apply Ascii.eqb_neq. Qed.

Lemma str_split_nonempty c s : str_split c s <> [].
Proof.
  destruct s as [|x s]; simpl; [discriminate|].
  destruct (Ascii.eqb x c); [discriminate|].
  destruct (str_split c s); discriminate.
Qed.

Lemma str_split_no_sep c s : str_contains c s = false -> str_split c s = [s].
Proof.
  induction s as [|x s IH]; simpl; [reflexivity|].
  intros H. apply orb_false_iff in H as [Hx Hs].
  rewrite Ascii.eqb_sym, Hx, (IH Hs). reflexivity.
Qed.

Lemma str_split_sep c s :
  str_contains c s = true -> exists a b rest, str_split c s = a :: b :: rest.
Proof.
  induction s as [|x s IH]; simpl; [discriminate|].
  intros H. rewrite (Ascii.eqb_sym x c).
  destruct (Ascii.eqb c x) eqn:Hx.
  - pose proof (str_split_nonempty c s) as Hne.
    destruct (str_split c s) as [|b rest]; [congruence|]. eauto.
  - simpl in H. destruct (IH H) as (a & b & rest & ->). eauto.
Qed.

Lemma str_join_split c s : str_join [c] (str_split c s) = s.
Proof.
  induction s as [|x s IH]; simpl; [reflexivity|].
  pose proof (str_split_nonempty c s) as Hne.
  destruct (Ascii.eqb x c) eqn:Hx.
  - apply ascii_eqb_true in Hx as ->.
    destruct (str_split c s) as [|f fs]; [congruence|].
    cbn [str_join]. simpl. f_equal. exact IH.
  - destruct (str_split c s) as [|f fs]; [congruence|].
    destruct fs as [|g fs]; simpl in *; congruence.
Qed.

(** ** ParsedNodeData.from_text *)

(** C7.  The number of ':'-delimited fields of the text decides the outcome
    of [ParsedNodeData.from_text]: more than three fields make the
    constructor call fail (the failure is Python's [TypeError] for a fourth
    positional argument; it is the error kind of malformed fields); three
    fields become (role, pos, word), two become (role, pos) with the word
    unset, and a single field becomes the pos alone. *)
Theorem from_text_by_field_count (data : str) :
  ((3 < length (str_split ":" data))%nat ->
     ParsedNodeData.from_text data = Raise TypeError) /\
  (forall r p w, str_split ":" data = [r; p; w] ->
     ParsedNodeData.from_text data
     = Ok (ParsedNodeData.mk (Some r) (Some p) (Some w))) /\
  (forall r p, str_split ":" data = [r; p] ->
     ParsedNodeData.from_text data = Ok (ParsedNodeData.mk (Some r) (Some p) None)) /\
  (forall p, str_split ":" data = [p] ->
     ParsedNodeData.from_text data = Ok (ParsedNodeData.mk None (Some p) None)).
Proof.
  unfold ParsedNodeData.from_text.
  destruct (str_contains ":" data) eqn:Hc.
  - destruct (str_split_sep _ _ Hc) as (a & b & rest & Hs). rewrite Hs.
    repeat split.
    + destruct rest as [|w [|x rest]]; simpl; intros; try lia; reflexivity.
    + intros r p w [= -> -> ->]. reflexivity.
    + intros r p [= -> -> ->]. reflexivity.
    + intros p [=].
  - rewrite (str_split_no_sep _ _ Hc). repeat split.
    + simpl. lia.
    + intros r p w [=].
    + intros r p [=].
    + intros p [= ->]. reflexivity.
Qed.

Lemma from_text_by_field_count_witness :
  ParsedNodeData.from_text (py "a:b:c:d") = Raise TypeError /\
  ParsedNodeData.from_text (py "Head:Na:x")
  = Ok (ParsedNodeData.mk (Some (py "Head")) (Some (py "Na")) (Some (py "x"))) /\
  ParsedNodeData.from_text (py "Head:Na")
  = Ok (ParsedNodeData.mk (Some (py "Head")) (Some (py "Na")) None) /\
  ParsedNodeData.from_text (py "Na")
  = Ok (ParsedNodeData.mk None (Some (py "Na")) None).
Proof.
  split; [|split; [|split]].
  - apply (proj1 (from_text_by_field_count (py "a:b:c:d"))). vm_compute. lia.
  - apply (proj1 (proj2 (from_text_by_field_count (py "Head:Na:x")))). reflexivity.
  - apply (proj1 (proj2 (proj2 (from_text_by_field_count (py "Head:Na"))))). reflexivity.
  - apply (proj2 (proj2 (proj2 (from_text_by_field_count (py "Na"))))). reflexivity.
Defined.

(** ** ParsedTree.normalize_text *)

Lemma str_startswith_app p s :
  str_startswith p s = true -> s = p ++ drop (length p) s.
Proof.
  revert s. induction p as [|a p IH]; intros s H; [reflexivity|].
  destruct s as [|b s]; [discriminate|]. simpl in H.
  apply andb_true_iff in H as [Hab Hp]. apply ascii_eqb_true in Hab as ->.
  simpl. f_equal. apply IH, Hp.
Qed.

Lemma str_cut_none sep s : ~ occurs sep s -> str_cut sep s = None.
Proof.
  induction s as [|x s IH]; intros Hno.
  - simpl. destruct (str_startswith sep []) eqn:Hp; [|reflexivity].
    exfalso. apply Hno. exists [], (drop (length sep) []).
    apply (str_startswith_app _ _ Hp).
  - simpl. destruct (str_startswith sep (x :: s)) eqn:Hp.
    + exfalso. apply Hno. exists [], (drop (length sep) (x :: s)).
      apply (str_startswith_app _ _ Hp).
    + rewrite IH; [reflexivity|].
      intros (u & v & ->). apply Hno. exists (x :: u), v. reflexivity.
Qed.

(** Cutting at a two-character separator [xy] with [x <> y]: when [xy] does
    not occur in [a], its first occurrence in [a ++ xy ++ r] is the one
    written. *)
Lemma str_cut_first x y a r :
  x <> y -> ~ occurs [x; y] a ->
  str_cut [x; y] (a ++ [x; y] ++ r) = Some (a, r).
Proof.
  intros Hxy. induction a as [|c a IH]; intros Hno.
  - simpl. rewrite !Ascii.eqb_refl. reflexivity.
  - assert (Hp : str_startswith [x; y] ((c :: a) ++ [x; y] ++ r) = false).
    { destruct (str_startswith [x; y] ((c :: a) ++ [x; y] ++ r)) eqn:Hp; [|reflexivity].
      exfalso. simpl in Hp. apply andb_true_iff in Hp as [Hc Hp].
      apply ascii_eqb_true in Hc as <-.
      destruct a as [|d a]; simpl in Hp.
      - rewrite andb_true_r in Hp. apply ascii_eqb_true in Hp. congruence.
      - rewrite andb_true_r in Hp. apply ascii_eqb_true in Hp as <-.
        apply Hno. exists [], a. reflexivity. }
    change (str_cut [x; y] ((c :: a) ++ [x; y] ++ r))
      with (if str_startswith [x; y] ((c :: a) ++ [x; y] ++ r)
            then Some ([], drop (length [x; y]) ((c :: a) ++ [x; y] ++ r))
            else match str_cut [x; y] (a ++ [x; y] ++ r) with
                 | Some (a0, b) => Some (c :: a0, b)
                 | None => None
                 end).
    rewrite Hp, IH; [reflexivity|].
    intros (u & v & ->). apply Hno. exists (c :: u), v. reflexivity.
Qed.

Lemma str_rstrip_repeat c n : str_rstrip c (repeat c n) = [].
Proof.
  induction n as [|n IH]; simpl; [reflexivity|].
  rewrite IH, Ascii.eqb_refl. reflexivity.
Qed.

(** [rstrip] removes the whole run of trailing [c]. *)
Lemma str_rstrip_run c u n :
  last u <> Some c -> str_rstrip c (u ++ repeat c n) = u.
Proof.
  induction u as [|x u IH]; intros Hlast.
  - apply str_rstrip_repeat.
  - destruct u as [|x' u].
    + simpl. rewrite str_rstrip_repeat.
      destruct (Ascii.eqb x c) eqn:Hx; [|reflexivity].
      apply ascii_eqb_true in Hx as ->. simpl in Hlast. congruence.
    + change (str_rstrip c ((x :: x' :: u) ++ repeat c n))
        with (match str_rstrip c ((x' :: u) ++ repeat c n) with
              | [] => if Ascii.eqb x c then [] else [x]
              | r => x :: r
              end).
      rewrite IH; [reflexivity|]. exact Hlast.
Qed.

(** With two occurrences of "] " the text is cut after the second one: at
    most two cuts are made and the last piece is kept. *)
Lemma normalize_text_second_cut (a b u : str) (n : nat) :
  str_contains "#" (a ++ py "] " ++ b ++ py "] " ++ u ++ repeat "#"%char n) = true ->
  ~ occurs (py "] ") a -> ~ occurs (py "] ") b -> last u <> Some "#"%char ->
  ParsedTree.normalize_text (a ++ py "] " ++ b ++ py "] " ++ u ++ repeat "#"%char n) = u.
Proof.
  unfold ParsedTree.normalize_text. intros -> Ha Hb Hu. cbn [str_split_max].
  change (py "] ") with ["]"; " "]%char in *.
  rewrite (str_cut_first "]" " " a _ ltac:(discriminate) Ha).
  rewrite (str_cut_first "]" " " b _ ltac:(discriminate) Hb).
  simpl. apply str_rstrip_run, Hu.
Qed.

(** C6, as the code has it.  A text without '#' is returned unchanged.  Of a
    text with a '#' in which "] " occurs once, what follows that occurrence
    is kept; when "] " does not occur the whole text is kept; from what is
    kept the whole run of trailing '#' is removed. *)
Theorem normalize_text_pieces (s : str) :
  (str_contains "#" s = false -> ParsedTree.normalize_text s = s) /\
  (str_contains "#" s = true ->
     (forall a u n,
        ~ occurs (py "] ") a -> ~ occurs (py "] ") (u ++ repeat "#"%char n) ->
        last u <> Some "#"%char ->
        s = a ++ py "] " ++ u ++ repeat "#"%char n ->
        ParsedTree.normalize_text s = u) /\
     (forall u n,
        ~ occurs (py "] ") s -> last u <> Some "#"%char ->
        s = u ++ repeat "#"%char n ->
        ParsedTree.normalize_text s = u)).
Proof.
  unfold ParsedTree.normalize_text. split; [intros ->; reflexivity|].
  intros ->. split.
  - intros a u n Ha Hb Hu ->. cbn [str_split_max].
    change (py "] ") with ["]"; " "]%char in *.
    rewrite (str_cut_first "]" " " a _ ltac:(discriminate) Ha).
    rewrite (str_cut_none _ _ Hb).
    simpl. apply str_rstrip_run, Hu.
  - intros u n Hs Hu Heq. cbn [str_split_max].
    rewrite (str_cut_none _ _ Hs). simpl. rewrite Heq.
    apply str_rstrip_run, Hu.
Qed.

Lemma str_startswith_self p v : str_startswith p (p ++ v) = true.
Proof.
  induction p as [|a p IH]; simpl; [reflexivity|].
  rewrite Ascii.eqb_refl. exact IH.
Qed.

Lemma str_cut_occurs sep s : str_cut sep s = None -> ~ occurs sep s.
Proof.
  intros Hcut (u & v & ->). revert Hcut.
  induction u as [|c u IH].
  - destruct (sep ++ v) as [|x w] eqn:E; simpl;
      rewrite <- ?E, str_startswith_self; discriminate.
  - simpl. destruct (str_startswith sep (c :: u ++ sep ++ v)); [discriminate|].
    destruct (str_cut sep (u ++ sep ++ v)) as [[a b]|]; [discriminate|].
    intros _. apply IH. reflexivity.
Qed.

Lemma normalize_text_pieces_witness :
  ParsedTree.normalize_text (py "[3] S(Head:Na:x)#") = py "S(Head:Na:x)".
Proof.
  apply (proj1 (proj2 (normalize_text_pieces (py "[3] S(Head:Na:x)#")) eq_refl)
           (py "[3") (py "S(Head:Na:x)") 1%nat).
  - apply str_cut_occurs. reflexivity.
  - apply str_cut_occurs. reflexivity.
  - simpl. discriminate.
  - reflexivity.
Defined.

(** C6 as stated fails when "] " occurs twice: the statement keeps what
    follows the first "] ", the code what follows the second; and the whole
    run of trailing '#' goes, not one. *)
Lemma normalize_text_not_first_cut :
  str_contains "#" (py "[1] [2] x#") = true /\
  str_cut (py "] ") (py "[1] [2] x#") = Some (py "[1", py "[2] x#") /\
  ParsedTree.normalize_text (py "[1] [2] x#") = py "x" /\
  ParsedTree.normalize_text (py "[1] [2] x#") <> py "[2] x".
Proof.
  split; [reflexivity|]. split; [reflexivity|]. split; [reflexivity|].
  vm_compute. discriminate.
Qed.

(** ** The result monad *)

Lemma bind_ok {A B} (a : A) (k : A -> result B) : (Ok a ≫= k) = k a.
Proof. reflexivity. Qed.

Lemma bind_raise {A B} (e : exn) (k : A -> result B) : (Raise e ≫= k) = Raise e.
Proof. reflexivity. Qed.

Lemma foldM_app {A S} (f : A -> S -> result S) (l1 l2 : list A) (s : S) :
  foldM f (l1 ++ l2) s = (foldM f l1 s ≫= foldM f l2).
Proof.
  revert s. induction l1 as [|a l1 IH]; intros s; simpl; [reflexivity|].
  destruct (f a s) as [s'|e]; simpl; [apply IH|reflexivity].
Qed.

(** ** get_relations on the example of the documentation *)

(** C3.  The tree built from 'S(Head:Nab:中文字|particle:Td:耶)' has exactly
    one relation under its root: its head is the node tagged
    'Head:Nab:中文字', its tail and its relation are the node tagged
    'particle:Td:耶'.  (Three levels of calls are needed: [get_relations] on
    the root, [get_relations] on a child, [get_heads] on that child.) *)
Theorem get_relations_example :
  exists t r,
    ParsedTree.from_text (py "S(Head:Nab:中文字|particle:Td:耶)") true = Ok t /\
    (forall fuel, ParsedTree.get_relations (3 + fuel) t None true = Ok [r]) /\
    tag (head r) = py "Head:Nab:中文字" /\
    tag (tail r) = py "particle:Td:耶" /\
    tag (relation r) = py "particle:Td:耶".
Proof.
  eexists. eexists. split; [vm_compute; reflexivity|].
  split; [intros fuel; vm_compute; reflexivity|].
  split; [|split]; reflexivity.
Qed.

(** ** Unbalanced brackets in ParsedTree.from_text *)

(** C8 as stated fails: in 'A)' the ')' is met while no parent is open (the
    stack holds the root sentinel alone); [from_text] pops the sentinel and
    returns the one-node tree. *)
Lemma from_text_surplus_close_accepted :
  ParsedTree.from_text (py "A)") false
  = Ok (mk_tree {[ 0 := mk_node 0 (py "A")
                          (ParsedNodeData.mk None (Some (py "A")) None) None [] ]}
                (Some 0)).
Proof. vm_compute. reflexivity. Qed.

Lemma flush_on_empty_stack st :
  ParsedTree.s_node_queue st = [] -> aborted (ParsedTree.flush st).
Proof.
  intros Hq. unfold ParsedTree.flush, aborted. rewrite Hq.
  destruct (ParsedNodeData.from_text (ParsedTree.s_text st)) as [d|e] eqn:Hd.
  - left. reflexivity.
  - right. unfold ParsedNodeData.from_text in Hd.
    destruct (str_contains ":" (ParsedTree.s_text st)); [|discriminate].
    unfold ParsedNodeData.new in Hd.
    destruct (str_split ":" (ParsedTree.s_text st)) as [|? [|? [|? [|? ?]]]];
      try discriminate; injection Hd as <-; reflexivity.
Qed.

Lemma aborted_bind {A B} (r : result A) (k : A -> result B) :
  aborted r -> aborted (r ≫= k).
Proof. intros [-> | ->]; [left|right]; reflexivity. Qed.

(** At an empty stack the turn of the loop for ')' fails, and so does the
    one for '|' when a node text is pending. *)
Lemma step_on_empty_stack (st : ParsedTree.scan) :
  ParsedTree.s_node_queue st = [] ->
  aborted (ParsedTree.step ")" st) /\
  (ParsedTree.s_ending st = false -> aborted (ParsedTree.step "|" st)).
Proof.
  intros Hq. split.
  - unfold ParsedTree.step, ParsedTree.flush_pending. simpl Ascii.eqb. cbv iota.
    destruct (ParsedTree.s_ending st).
    + left. rewrite bind_ok, Hq. reflexivity.
    + apply aborted_bind, aborted_bind, flush_on_empty_stack, Hq.
  - intros He.
    unfold ParsedTree.step, ParsedTree.flush_pending. simpl Ascii.eqb. cbv iota.
    rewrite He. apply aborted_bind, aborted_bind, flush_on_empty_stack, Hq.
Qed.

(** ** get_heads: the choice of the heads *)

Lemma role_in_has_role roles r n :
  r ∈ roles -> ParsedTree.role_in roles n = false -> ParsedTree.has_role r n = false.
Proof.
  unfold ParsedTree.role_in, ParsedTree.has_role. intros Hr Hn.
  apply bool_decide_eq_false. intros Heq. rewrite Heq in Hn.
  apply bool_decide_eq_false in Hn. contradiction.
Qed.

Lemma role_in_subset roles roles' n :
  roles' ⊆ roles -> ParsedTree.role_in roles n = false ->
  ParsedTree.role_in roles' n = false.
Proof.
  unfold ParsedTree.role_in. intros Hsub Hn.
  destruct (ParsedNodeData.role (data n)) as [r|]; [|reflexivity].
  apply bool_decide_eq_false in Hn. apply bool_decide_eq_false. auto.
Qed.

Lemma filter_none {A} (p : A -> bool) (l : list A) :
  Forall (fun a => p a = false) l -> List.filter p l = [].
Proof.
  induction 1 as [|a l Ha _ IH]; simpl; [reflexivity|]. rewrite Ha. exact IH.
Qed.

Lemma mapM_cons {A B} (f : A -> result B) (a : A) (l : list A) :
  mapM f (a :: l) = (f a ≫= fun b => mapM f l ≫= fun bs => Ok (b :: bs)).
Proof. reflexivity. Qed.

Lemma mapM_one {A B} (f : A -> result B) (a : A) :
  mapM f [a] = (f a ≫= fun b => Ok [b]).
Proof. simpl. destruct (f a); reflexivity. Qed.

(** C2.  At a node that has children, none of them with the role 'Head',
    'head', 'DUMMY', 'DUMMY1' or 'DUMMY2', the semantic policy selects the
    last child and nothing else.  [get_heads] then yields exactly that child
    when the search is shallow or the child is a leaf (so for a root with
    three such leaf children it yields the third), and yields the heads of
    that child's subtree when the search is deep and the child has children
    of its own. *)
Theorem get_heads_fallback_last_child
    (t : Tree) (root_id : Z) (children : list ParsedNode) (c : ParsedNode) :
  Tree.children t (Some root_id) = Ok children ->
  Forall (fun n => ParsedTree.role_in head_roles n = false) children ->
  last children = Some c ->
  ParsedTree.head_nodes t (Some root_id) true = Ok [c] /\
  (forall fuel deep,
     deep = false \/ is_leaf c = true ->
     ParsedTree.get_heads (S fuel) t (Some root_id) true deep = Ok [c]) /\
  (forall fuel l,
     is_leaf c = false ->
     ParsedTree.get_heads fuel t (Some (identifier c)) true true = Ok l ->
     ParsedTree.get_heads (S fuel) t (Some root_id) true true = Ok l).
Proof.
  intros Hch Hroles Hlast.
  assert (Hsel : ParsedTree.head_nodes t (Some root_id) true = Ok [c]).
  { assert (Hd : List.filter ParsedTree.is_dummy children = []).
    { apply filter_none. eapply Forall_impl; [exact Hroles|]. intros n Hn.
      unfold ParsedTree.is_dummy. eapply role_in_subset; [|exact Hn].
      intros r. unfold head_roles. rewrite !elem_of_cons. tauto. }
    assert (Hh : forall r, r ∈ head_roles ->
                   List.filter (ParsedTree.has_role r) children = []).
    { intros r Hr. apply filter_none. eapply Forall_impl; [exact Hroles|].
      intros n Hn. eapply role_in_has_role; [exact Hr|exact Hn]. }
    unfold ParsedTree.head_nodes. rewrite Hch, bind_ok.
    unfold ParsedTree.find_heads, py_last.
    rewrite Hd, (Hh (py "head")), (Hh (py "Head")), Hlast
      by (unfold head_roles; rewrite !elem_of_cons; tauto).
    destruct children; [discriminate|]. reflexivity. }
  split; [exact Hsel|]. split.
  - intros fuel deep Hshallow. cbn [ParsedTree.get_heads].
    rewrite Hsel, bind_ok, mapM_one.
    assert (deep && negb (is_leaf c) = false) as ->.
    { destruct Hshallow as [-> | ->]; [reflexivity|]. apply andb_false_r. }
    reflexivity.
  - intros fuel l Hleaf Hrec. cbn [ParsedTree.get_heads].
    rewrite Hsel, bind_ok, mapM_one, Hleaf. cbn [andb negb].
    rewrite Hrec. simpl. rewrite app_nil_r. reflexivity.
Qed.

(** ** Trees built through treelib *)

Lemma closed_below_mono h t k :
  closed_below h t k = true -> closed_below (S h) t k = true.
Proof.
  revert k. induction h as [|h IH]; intros k; [discriminate|].
  intros H. cbn [closed_below] in H.
  change (closed_below (S (S h)) t k)
    with (match nodes t !! k with
          | None => false
          | Some n => (identifier n =? k) && forallb (closed_below (S h) t) (successors n)
          end).
  destruct (nodes t !! k) as [n|]; [|discriminate].
  apply andb_true_iff in H as [Hid Hs]. rewrite Hid. cbn [andb].
  apply forallb_forall. intros c Hc. apply IH.
  revert c Hc. apply forallb_forall. exact Hs.
Qed.

Lemma closed_below_le h h' t k :
  (h <= h')%nat -> closed_below h t k = true -> closed_below h' t k = true.
Proof.
  induction 1 as [|h' _ IH]; [auto|]. intros H. apply closed_below_mono. auto.
Qed.

Lemma closed_below_create t tg nid parent d t' :
  Tree.create_node t tg nid parent d = Ok t' ->
  (forall h, closed_below (S h) t' nid = true) /\
  (forall h k, closed_below h t k = true -> closed_below (S h) t' k = true).
Proof.
  unfold Tree.create_node. intros Hc.
  destruct (nodes t !! nid) as [?|] eqn:Hnid; [discriminate|].
  assert (Hnew : nodes t' !! nid = Some (mk_node nid tg d parent [])
                 /\ forall k n, nodes t !! k = Some n ->
                      exists n', nodes t' !! k = Some n' /\ identifier n' = identifier n
                        /\ (successors n' = successors n
                            \/ successors n' = successors n ++ [nid])).
  { destruct parent as [pid|].
    - destruct (nodes t !! pid) as [p|] eqn:Hp; [|discriminate].
      injection Hc as <-. cbn [nodes]. split.
      + rewrite lookup_alter_ne by congruence. apply lookup_insert_eq.
      + intros k n Hk. destruct (decide (k = pid)) as [->|Hne].
        * rewrite lookup_alter_eq, lookup_insert_ne by congruence.
          rewrite Hk. eexists. split; [reflexivity|]. auto.
        * rewrite lookup_alter_ne, lookup_insert_ne by congruence. eauto.
    - destruct (root t); [discriminate|]. injection Hc as <-. cbn [nodes]. split.
      + apply lookup_insert_eq.
      + intros k n Hk. rewrite lookup_insert_ne by congruence. eauto. }
  destruct Hnew as [Hself Hold].
  assert (Hleaf : forall h, closed_below (S h) t' nid = true).
  { intros h. cbn [closed_below]. rewrite Hself. cbn [identifier successors forallb].
    rewrite Z.eqb_refl. reflexivity. }
  split; [exact Hleaf|].
  induction h as [|h IH]; intros k Hk; [discriminate|].
  cbn [closed_below] in Hk.
  destruct (nodes t !! k) as [n|] eqn:Hn; [|discriminate].
  apply andb_true_iff in Hk as [Hid Hs].
  destruct (Hold k n Hn) as (n' & Hn' & Hid' & Hsucc).
  change (closed_below (S (S h)) t' k)
    with (match nodes t' !! k with
          | None => false
          | Some n => (identifier n =? k) && forallb (closed_below (S h) t') (successors n)
          end).
  rewrite Hn', Hid', Hid. cbn [andb].
  assert (Hs' : forallb (closed_below (S h) t') (successors n) = true).
  { apply forallb_forall. intros c Hin. apply IH.
    revert c Hin. apply forallb_forall. exact Hs. }
  destruct Hsucc as [-> | ->]; [exact Hs'|].
  rewrite forallb_app, Hs'. cbn [forallb andb]. rewrite Hleaf. reflexivity.
Qed.

Lemma create_node_dom t tg nid parent d t' k :
  Tree.create_node t tg nid parent d = Ok t' ->
  is_Some (nodes t' !! k) -> k = nid \/ is_Some (nodes t !! k).
Proof.
  unfold Tree.create_node. intros Hc Hk.
  destruct (nodes t !! nid) eqn:Hnid; [discriminate|].
  destruct (decide (k = nid)) as [->|Hne]; [auto|]. right.
  destruct parent as [pid|].
  - destruct (nodes t !! pid) eqn:Hp; [|discriminate].
    injection Hc as <-. cbn [nodes] in Hk.
    destruct (decide (k = pid)) as [->|Hne']; [rewrite Hp; eauto|].
    rewrite lookup_alter_ne, lookup_insert_ne in Hk by congruence. exact Hk.
  - destruct (root t); [discriminate|]. injection Hc as <-. cbn [nodes] in Hk.
    rewrite lookup_insert_ne in Hk by congruence. exact Hk.
Qed.

(** Every tree built through treelib is closed, with finitely many levels. *)
Lemma built_closed t :
  built t -> exists h, forall k, is_Some (nodes t !! k) -> closed_below h t k = true.
Proof.
  induction 1 as [|t tg nid parent d t' _ [h IH] Hc].
  - exists O. intros k [n Hn]. cbn in Hn. rewrite lookup_empty in Hn. discriminate.
  - exists (S h). intros k Hk.
    destruct (closed_below_create _ _ _ _ _ _ Hc) as [Hnew Hold].
    destruct (create_node_dom _ _ _ _ _ _ _ Hc Hk) as [->|Hk']; [apply Hnew|].
    apply Hold, IH, Hk'.
Qed.

(** ** The traversals on built trees *)

Lemma mapM_ok {A B} (f : A -> result B) (P : A -> Prop) (Q : B -> Prop) (l : list A) :
  (forall a, P a -> exists b, f a = Ok b /\ Q b) ->
  Forall P l ->
  exists bs, mapM f l = Ok bs /\ Forall Q bs.
Proof.
  intros Hf. induction 1 as [|a l Ha _ (bs & Hbs & HQ)].
  - exists []. split; [reflexivity|constructor].
  - destruct (Hf a Ha) as (b & Hb & Hq). exists (b :: bs).
    split; [|constructor; assumption].
    cbn [mapM]. rewrite Hb, bind_ok, Hbs. reflexivity.
Qed.

Lemma Forall_concat {A} (P : A -> Prop) (ls : list (list A)) :
  Forall (Forall P) ls -> Forall P (concat ls).
Proof.
  induction 1 as [|l ls Hl _ IH]; cbn [concat]; [constructor|].
  apply Forall_app. auto.
Qed.

(** The children of a node whose subtree is closed: each is the node filed
    under one of the successors, and its own subtree is closed one level
    lower. *)
Lemma children_closed h t k :
  closed_below (S h) t k = true ->
  exists n cs,
    nodes t !! k = Some n /\ identifier n = k /\
    Tree.children t (Some k) = Ok cs /\
    (cs = [] -> is_leaf n = true) /\
    Forall (fun c => nodes t !! identifier c = Some c
                     /\ closed_below h t (identifier c) = true) cs.
Proof.
  cbn [closed_below]. destruct (nodes t !! k) as [n|] eqn:Hn; [|discriminate].
  intros H. apply andb_true_iff in H as [Hid Hs]. apply Z.eqb_eq in Hid.
  assert (Hm : exists cs, mapM (fun i => Tree.getitem t (Some i)) (successors n) = Ok cs
                 /\ (cs = [] -> successors n = [])
                 /\ Forall (fun c => nodes t !! identifier c = Some c
                                     /\ closed_below h t (identifier c) = true) cs).
  { clear Hn Hid. induction (successors n) as [|i l IH].
    - exists []. repeat split; constructor.
    - cbn [forallb] in Hs. apply andb_true_iff in Hs as [Hi Hl].
      destruct (IH Hl) as (cs & Hcs & _ & Hall).
      destruct h as [|h]; [discriminate|].
      pose proof Hi as Hi'. cbn [closed_below] in Hi'.
      destruct (nodes t !! i) as [m|] eqn:Hm; [|discriminate].
      apply andb_true_iff in Hi' as [Hmid _]. apply Z.eqb_eq in Hmid.
      exists (m :: cs). split; [|split].
      + assert (Hget : Tree.getitem t (Some i) = Ok m)
          by (unfold Tree.getitem; rewrite Hm; reflexivity).
        rewrite mapM_cons. cbv beta. rewrite Hget, bind_ok, Hcs. reflexivity.
      + discriminate.
      + constructor; [rewrite Hmid; split; [exact Hm|exact Hi]|exact Hall]. }
  destruct Hm as (cs & Hcs & Hnil & Hall).
  exists n, cs. split; [reflexivity|]. split; [exact Hid|]. split; [|split].
  - unfold Tree.children, Tree.is_branch. rewrite Hn, bind_ok. exact Hcs.
  - intros E. unfold is_leaf. rewrite (Hnil E). reflexivity.
  - exact Hall.
Qed.

Lemma find_heads_Forall (P : ParsedNode -> Prop) p children hs :
  Forall P children -> Forall P hs -> Forall P (ParsedTree.find_heads p children hs).
Proof.
  intros Hc Hh. unfold ParsedTree.find_heads. destruct hs; [|exact Hh].
  cbn [app]. apply List.Forall_forall. intros x Hx.
  apply filter_In in Hx as [Hx _]. revert x Hx. apply List.Forall_forall, Hc.
Qed.

(** [head_nodes] never fails at a node that has its children in the store:
    it answers the node itself when there is no child, and children
    otherwise. *)
Lemma head_nodes_ok (P : ParsedNode -> Prop) t k n cs semantic :
  nodes t !! k = Some n ->
  Tree.children t (Some k) = Ok cs ->
  (cs = [] -> P n) -> Forall P cs ->
  exists hs, ParsedTree.head_nodes t (Some k) semantic = Ok hs /\ Forall P hs.
Proof.
  intros Hn Hcs Hleaf Hall. unfold ParsedTree.head_nodes.
  rewrite Hcs, bind_ok.
  destruct cs as [|c cs].
  - cbn [Tree.getitem]. rewrite Hn, !bind_ok.
    assert (Hsel : forall p hs, hs <> [] -> ParsedTree.find_heads p [] hs = hs).
    { intros p [|x hs] Hne; [congruence|reflexivity]. }
    rewrite !Hsel by (destruct semantic; rewrite ?Hsel; discriminate).
    destruct semantic; eexists; (split; [reflexivity|]);
      constructor; auto.
  - rewrite bind_ok.
    set (hs := ParsedTree.find_heads _ _ _).
    assert (Hhs : Forall P hs).
    { subst hs. apply find_heads_Forall; [exact Hall|].
      destruct semantic; [|constructor].
      apply find_heads_Forall; [exact Hall|].
      apply find_heads_Forall; [exact Hall|constructor]. }
    destruct hs as [|x hs'] eqn:E.
    + unfold py_last.
      destruct (last (c :: cs)) as [l|] eqn:Hl.
      * eexists. split; [reflexivity|]. constructor; [|constructor].
        apply last_Some in Hl as [l' Hl]. rewrite Hl in Hall.
        apply Forall_app in Hall as [_ Hall]. inversion Hall; assumption.
      * apply last_None in Hl. discriminate.
    + eexists. split; [reflexivity|exact Hhs].
Qed.

(** [get_heads] succeeds when the depth at hand covers the levels of the
    subtree; it yields nodes of the store, and leaves when the search is
    deep. *)
Lemma get_heads_ok h :
  forall t k fuel semantic deep,
    closed_below h t k = true -> (h <= fuel)%nat ->
    exists l,
      ParsedTree.get_heads fuel t (Some k) semantic deep = Ok l /\
      Forall (fun x => nodes t !! identifier x = Some x
                       /\ (deep = true -> is_leaf x = true)) l.
Proof.
  induction h as [|h IH]; intros t k fuel semantic deep Hk Hfuel; [discriminate|].
  destruct fuel as [|fuel]; [lia|].
  destruct (children_closed _ _ _ Hk) as (n & cs & Hn & Hid & Hcs & Hleaf & Hall).
  destruct (head_nodes_ok
              (fun x => nodes t !! identifier x = Some x
                        /\ (is_leaf x = true \/ closed_below h t (identifier x) = true))
              t k n cs semantic Hn Hcs) as (hs & Hhs & HP).
  { intros E. rewrite Hid. auto. }
  { eapply Forall_impl; [exact Hall|]. intros c [? ?]. auto. }
  cbn [ParsedTree.get_heads]. rewrite Hhs, bind_ok.
  destruct (mapM_ok
              (fun node => if deep && negb (is_leaf node)
                           then ParsedTree.get_heads fuel t (Some (identifier node)) semantic true
                           else Ok [node])
              (fun x => nodes t !! identifier x = Some x
                        /\ (is_leaf x = true \/ closed_below h t (identifier x) = true))
              (Forall (fun x => nodes t !! identifier x = Some x
                                  /\ (deep = true -> is_leaf x = true)))
              hs) as (ls & Hls & HQ); [|exact HP|].
  - intros x [Hx Hsub]. destruct (deep && negb (is_leaf x)) eqn:Hd.
    + apply andb_true_iff in Hd as [-> Hnl]. apply negb_true_iff in Hnl.
      destruct Hsub as [Hl|Hc]; [congruence|].
      destruct (IH t (identifier x) fuel semantic true Hc ltac:(lia)) as (l & Hl & Hq).
      exists l. split; [exact Hl|exact Hq].
    + exists [x]. split; [reflexivity|]. constructor; [|constructor].
      split; [exact Hx|]. intros ->. cbn [andb] in Hd.
      apply negb_false_iff in Hd. exact Hd.
  - rewrite Hls, bind_ok. eexists. split; [reflexivity|].
    apply Forall_concat, HQ.
Qed.

Lemma mapM_is_ok {A B} (f : A -> result B) (P : A -> Prop) (l : list A) :
  (forall a, P a -> is_ok (f a)) -> Forall P l -> exists bs, mapM f l = Ok bs.
Proof.
  intros Hf Hl.
  destruct (mapM_ok f P (fun _ => True) l) as (bs & Hbs & _); [|exact Hl|eauto].
  intros a Ha. specialize (Hf a Ha). destruct (f a) as [b|e]; [eauto|contradiction].
Qed.

Lemma get_relations_ok h :
  forall t k fuel semantic,
    closed_below h t k = true -> (h < fuel)%nat ->
    is_ok (ParsedTree.get_relations fuel t (Some k) semantic).
Proof.
  induction h as [|h IH]; intros t k fuel semantic Hk Hfuel; [discriminate|].
  destruct fuel as [|fuel]; [lia|].
  destruct (children_closed _ _ _ Hk) as (n & cs & Hn & Hid & Hcs & Hleaf & Hall).
  cbn [ParsedTree.get_relations]. rewrite Hcs, bind_ok.
  destruct (get_heads_ok _ t k fuel semantic false Hk ltac:(lia)) as (hc & -> & _).
  destruct (get_heads_ok _ t k fuel semantic true Hk ltac:(lia)) as (hd & -> & _).
  rewrite !bind_ok.
  destruct (mapM_is_ok
              (fun head_node =>
                 mapM (ParsedTree.tail_relations fuel t semantic hc head_node) cs
                 ≫= fun rs => Ok (concat rs))
              (fun _ => True) hd) as (here & ->).
  { intros head_node _.
    destruct (mapM_is_ok (ParsedTree.tail_relations fuel t semantic hc head_node)
                (fun c => closed_below h t (identifier c) = true) cs) as (rs & ->).
    - intros c Hc. unfold ParsedTree.tail_relations.
      destruct (negb _ && negb _); [|exact I].
      destruct (is_leaf c); [exact I|].
      destruct (get_heads_ok _ t (identifier c) fuel semantic true Hc ltac:(lia))
        as (l & -> & _). exact I.
    - eapply Forall_impl; [exact Hall|]. intros c [_ ?]. assumption.
    - exact I. }
  { apply Forall_forall. auto. }
  rewrite bind_ok.
  destruct (mapM_is_ok
              (fun child => ParsedTree.get_relations fuel t (Some (identifier child)) semantic)
              (fun c => closed_below h t (identifier c) = true) cs) as (below & ->).
  { intros c Hc. apply IH; [exact Hc|lia]. }
  { eapply Forall_impl; [exact Hall|]. intros c [_ ?]. assumption. }
  exact I.
Qed.

Lemma get_subjects_ok SUBJECT_ROLES NEUTRAL_ROLES h :
  forall t k fuel semantic deep,
    closed_below h t k = true -> (h < fuel)%nat ->
    map_Forall (fun _ n => has_pos n = true) (nodes t) ->
    is_ok (ParsedTree.get_subjects SUBJECT_ROLES NEUTRAL_ROLES fuel t (Some k) semantic deep).
Proof.
  intros t k fuel semantic deep Hk Hfuel Hpos.
  destruct h as [|h]; [discriminate|]. destruct fuel as [|fuel]; [lia|].
  destruct (children_closed _ _ _ Hk) as (n & cs & Hn & Hid & Hcs & Hleaf & Hall).
  cbn [ParsedTree.get_subjects Tree.getitem]. rewrite Hn, bind_ok, Hid.
  destruct (bool_decide _).
  { destruct (get_heads_ok _ t k fuel semantic deep Hk ltac:(lia)) as (l & -> & _).
    exact I. }
  destruct (bool_decide _); [|exact I].
  destruct (get_heads_ok _ t k fuel false false Hk ltac:(lia)) as (hs & -> & Hhs).
  rewrite bind_ok.
  destruct (mapM_is_ok (ParsedTree.head_subjects SUBJECT_ROLES NEUTRAL_ROLES
                          fuel t semantic deep n)
              (fun x => nodes t !! identifier x = Some x) hs) as (per_head & ->).
  - intros x Hx. unfold ParsedTree.head_subjects, ParsedTree.pos_startswith.
    pose proof (Hpos _ _ Hx) as Hp. unfold has_pos in Hp.
    destruct (ParsedNodeData.pos (data x)) as [p|]; [|discriminate]. rewrite bind_ok.
    destruct (str_startswith _ p); [|exact I].
    rewrite Hid, Hcs, bind_ok.
    destruct (mapM_is_ok
                (fun subroot : ParsedNode =>
                   ParsedTree.is_subject SUBJECT_ROLES NEUTRAL_ROLES x subroot
                   ≫= fun q : bool =>
                        if q then ParsedTree.get_heads fuel t (Some (identifier subroot))
                                   semantic deep
                        else Ok [])
                (fun c => nodes t !! identifier c = Some c
                          /\ closed_below h t (identifier c) = true) cs)
      as (per_sub & ->); [|exact Hall|exact I].
    intros c [Hc Hcl]. unfold ParsedTree.is_subject, ParsedTree.pos_startswith.
    pose proof (Hpos _ _ Hc) as Hq. unfold has_pos in Hq.
    destruct (ParsedNodeData.pos (data c)) as [q|]; [|discriminate]. rewrite !bind_ok.
    destruct (_ && _); [|exact I].
    destruct (get_heads_ok _ t (identifier c) fuel semantic deep Hcl ltac:(lia))
      as (l & -> & _). exact I.
  - eapply Forall_impl; [exact Hhs|]. intros x [? _]. assumption.
  - exact I.
Qed.

Lemma get_heads_default_root fuel t semantic deep :
  ParsedTree.get_heads fuel t None semantic deep
  = ParsedTree.get_heads fuel t (root t) semantic deep.
Proof. destruct fuel; [reflexivity|]. cbn [ParsedTree.get_heads]. destruct (root t); reflexivity. Qed.

(** *** What [from_text] returns is a built tree *)

Lemma foldM_invariant {A S} (f : A -> S -> result S) (I : S -> Prop) :
  (forall a s s', I s -> f a s = Ok s' -> I s') ->
  forall l s s', I s -> foldM f l s = Ok s' -> I s'.
Proof.
  intros Hf. induction l as [|a l IH]; intros s s' Hs; cbn [foldM].
  - intros [= <-]. exact Hs.
  - destruct (f a s) as [s1|e] eqn:Hfa; [|discriminate].
    rewrite bind_ok. apply IH. eapply Hf; eauto.
Qed.

Lemma flush_built st t :
  built (ParsedTree.s_tree st) -> ParsedTree.flush st = Ok t -> built t.
Proof.
  unfold ParsedTree.flush. intros Hb.
  destruct (ParsedNodeData.from_text (ParsedTree.s_text st)) as [d|e]; [|discriminate].
  rewrite bind_ok. destruct (ParsedTree.s_node_queue st) as [|parent q]; [discriminate|].
  intros Hc. eapply built_create; eauto.
Qed.

Lemma flush_pending_built st st1 :
  built (ParsedTree.s_tree st) -> ParsedTree.flush_pending st = Ok st1 ->
  built (ParsedTree.s_tree st1).
Proof.
  unfold ParsedTree.flush_pending. intros Hb.
  destruct (ParsedTree.s_ending st); [intros [= <-]; exact Hb|].
  destruct (ParsedTree.flush st) as [t|e] eqn:Hf; [|discriminate].
  intros [= <-]. eapply flush_built; eauto.
Qed.

Lemma step_built char st st' :
  built (ParsedTree.s_tree st) -> ParsedTree.step char st = Ok st' ->
  built (ParsedTree.s_tree st').
Proof.
  unfold ParsedTree.step. intros Hb.
  destruct (Ascii.eqb char "(").
  { destruct (ParsedTree.flush st) as [t|e] eqn:Hf; [|discriminate].
    intros [= <-]. eapply flush_built; eauto. }
  destruct (Ascii.eqb char ")").
  { destruct (ParsedTree.flush_pending st) as [st1|e] eqn:Hr; [|discriminate].
    rewrite bind_ok. destruct (ParsedTree.pop _) as [q|e]; [|discriminate].
    intros [= <-]. cbn [ParsedTree.s_tree]. eapply flush_pending_built; eauto. }
  destruct (Ascii.eqb char "|").
  { destruct (ParsedTree.flush_pending st) as [st1|e] eqn:Hr; [|discriminate].
    intros [= <-]. cbn [ParsedTree.s_tree]. eapply flush_pending_built; eauto. }
  intros [= <-]. exact Hb.
Qed.

Lemma from_text_built data normalize t :
  ParsedTree.from_text data normalize = Ok t -> built t.
Proof.
  unfold ParsedTree.from_text.
  destruct (foldM ParsedTree.step _ ParsedTree.scan_init) as [st|e] eqn:Hf; [|discriminate].
  intros [= <-].
  apply (foldM_invariant ParsedTree.step (fun s => built (ParsedTree.s_tree s))
           step_built _ ParsedTree.scan_init st built_empty Hf).
Qed.

(** *** Deep heads are leaves *)

(** C10.  In a tree built through treelib, at every node of it and under
    either policy, the deep search of [get_heads] returns (once the depth at
    hand covers the levels of the tree) and every node it yields is a leaf. *)
Theorem get_heads_deep_yields_leaves (t : Tree) (k : Z) (semantic : bool) :
  built t -> is_Some (nodes t !! k) ->
  exists depth, forall fuel, (depth <= fuel)%nat ->
    exists l, ParsedTree.get_heads fuel t (Some k) semantic true = Ok l /\
              Forall (fun n => is_leaf n = true) l.
Proof.
  intros Hb Hk. destruct (built_closed t Hb) as [h Hh]. exists h.
  intros fuel Hfuel.
  destruct (get_heads_ok h t k fuel semantic true (Hh k Hk) Hfuel) as (l & Hl & HQ).
  exists l. split; [exact Hl|].
  eapply Forall_impl; [exact HQ|]. intros x [_ Hx]. auto.
Qed.

(** *** Examples *)

Lemma doc_tree_built : built doc_tree.
Proof. apply (from_text_built doc_text true). vm_compute. reflexivity. Qed.

Lemma flat_tree_built : built flat_tree.
Proof.
  apply (from_text_built (py "S(agent:Na:x|time:Nd:y|theme:Nc:z)") true).
  vm_compute. reflexivity.
Qed.

Lemma get_heads_fallback_last_child_witness :
  ParsedTree.get_heads 1 flat_tree (Some 0) true true
  = Ok [mk_node 3 (py "theme:Nc:z")
          (ParsedNodeData.mk (Some (py "theme")) (Some (py "Nc")) (Some (py "z")))
          (Some 0) []].
Proof.
  refine (proj1 (proj2 (get_heads_fallback_last_child flat_tree 0
                          (tree_of_children flat_tree 0) _ _ _ _)) O true _).
  - vm_compute. reflexivity.
  - vm_compute. repeat constructor.
  - vm_compute. reflexivity.
  - right. reflexivity.
Defined.

Lemma get_heads_deep_yields_leaves_witness :
  exists depth, forall fuel, (depth <= fuel)%nat ->
    exists l, ParsedTree.get_heads fuel doc_tree (Some 0) true true = Ok l /\
              Forall (fun n => is_leaf n = true) l.
Proof.
  apply (get_heads_deep_yields_leaves doc_tree 0 true doc_tree_built).
  vm_compute. eexists. reflexivity.
Defined.

(** *** The traversals complete *)

(** C9, as the code has it.  In a tree built through treelib, at every node
    of it and for every choice of the flags, [get_heads] and [get_relations]
    return without an exception once the depth at hand covers the levels of
    the tree, and so does [get_subjects] when every node of the tree has a
    pos (as every node made by [from_text] has). *)
Theorem traversals_complete (SUBJECT_ROLES NEUTRAL_ROLES : list str) (t : Tree) (k : Z) :
  built t -> is_Some (nodes t !! k) ->
  exists depth, forall fuel semantic deep, (depth <= fuel)%nat ->
    is_ok (ParsedTree.get_heads fuel t (Some k) semantic deep) /\
    is_ok (ParsedTree.get_relations fuel t (Some k) semantic) /\
    (map_Forall (fun _ n => has_pos n = true) (nodes t) ->
     is_ok (ParsedTree.get_subjects SUBJECT_ROLES NEUTRAL_ROLES fuel t (Some k)
              semantic deep)).
Proof.
  intros Hb Hk. destruct (built_closed t Hb) as [h Hh]. exists (S h).
  intros fuel semantic deep Hfuel. specialize (Hh k Hk). split; [|split].
  - destruct (get_heads_ok h t k fuel semantic deep Hh ltac:(lia)) as (l & -> & _).
    exact I.
  - apply (get_relations_ok h); [exact Hh|lia].
  - intros Hpos. apply (get_subjects_ok _ _ h); [exact Hh|lia|exact Hpos].
Qed.

Lemma traversals_complete_witness :
  exists depth, forall fuel semantic deep, (depth <= fuel)%nat ->
    is_ok (ParsedTree.get_heads fuel doc_tree (Some 0) semantic deep) /\
    is_ok (ParsedTree.get_relations fuel doc_tree (Some 0) semantic) /\
    is_ok (ParsedTree.get_subjects [py "agent"] [py "theme"] fuel doc_tree (Some 0)
             semantic deep).
Proof.
  destruct (traversals_complete [py "agent"] [py "theme"] doc_tree 0 doc_tree_built)
    as [depth H].
  - vm_compute. eexists. reflexivity.
  - exists depth. intros fuel semantic deep Hfuel.
    destruct (H fuel semantic deep Hfuel) as (Hh & Hr & Hs).
    split; [exact Hh|]. split; [exact Hr|]. apply Hs.
    apply map_Forall_to_list. vm_compute. repeat constructor.
Defined.

(** C9 as stated fails for [get_subjects]: on the tree of a clause whose
    head has no pos, [head.data.pos.startswith] is looked up on [None]. *)
Lemma get_subjects_raises_without_pos :
  ParsedTree.from_dict posless_head_dict = Ok posless_head_tree /\
  built posless_head_tree /\
  forall SUBJECT_ROLES NEUTRAL_ROLES fuel semantic deep,
    ParsedTree.get_subjects SUBJECT_ROLES NEUTRAL_ROLES (2 + fuel)
      posless_head_tree (Some 0) semantic deep
    = Raise AttributeError.
Proof.
  split; [vm_compute; reflexivity|]. split.
  - apply (built_create
             (tree_of (Tree.create_node Tree.empty (py "S") 0 None
                         (ParsedNodeData.mk None (Some (py "S")) None)))
             (py "Head") 1 (Some 0) (ParsedNodeData.mk (Some (py "Head")) None None)).
    + apply (built_create Tree.empty (py "S") 0 None
               (ParsedNodeData.mk None (Some (py "S")) None)).
      * apply built_empty.
      * vm_compute. reflexivity.
    + vm_compute. reflexivity.
  - intros. vm_compute. reflexivity.
Qed.

(** ** get_subjects *)

Section SubjectScan.

Variables SUBJECT_ROLES NEUTRAL_ROLES : list str.

#[local] Abbreviation qualifies := (qualifies SUBJECT_ROLES NEUTRAL_ROLES).

Lemma is_subject_qualifies head subroot :
  has_pos subroot = true ->
  ParsedTree.is_subject SUBJECT_ROLES NEUTRAL_ROLES head subroot
  = Ok (qualifies head subroot).
Proof.
  unfold has_pos, ParsedTree.is_subject, ParsedTree.pos_startswith, qualifies, pos_starts.
  destruct (ParsedNodeData.pos (data subroot)); [reflexivity|discriminate].
Qed.

Lemma subroots_scan fuel t semantic deep head (H : ParsedNode -> list ParsedNode) cs :
  Forall (fun sub => has_pos sub = true) cs ->
  Forall (fun sub => ParsedTree.get_heads fuel t (Some (identifier sub)) semantic deep
                     = Ok (H sub)) cs ->
  mapM (fun subroot : ParsedNode =>
          ParsedTree.is_subject SUBJECT_ROLES NEUTRAL_ROLES head subroot
          ≫= fun q : bool =>
               if q then ParsedTree.get_heads fuel t (Some (identifier subroot)) semantic deep
               else Ok []) cs
  ≫= (fun per_sub => Ok (concat per_sub))
  = Ok (flat_map H (List.filter (qualifies head) cs)).
Proof.
  intros Hpos. induction Hpos as [|c cs Hc _ IH]; intros HH; [reflexivity|].
  inversion HH as [|? ? Hh HH']; subst.
  specialize (IH HH'). rewrite mapM_cons. cbv beta.
  rewrite (is_subject_qualifies _ _ Hc), bind_ok.
  destruct (mapM _ cs) as [per_sub|e]; [|discriminate].
  rewrite bind_ok in IH. injection IH as IH. cbn [List.filter].
  destruct (qualifies head c).
  - rewrite Hh, !bind_ok. cbn [concat flat_map]. rewrite IH. reflexivity.
  - rewrite !bind_ok. cbn [concat app]. rewrite IH. reflexivity.
Qed.

(** C4.  At a node with pos 'S' whose shallow syntactic head is a verb, the
    subjects are the heads of the qualifying children, in sibling order: a
    child counts when its pos starts with 'N' and its role is a subject
    role, whatever its identifier, or its role is a neutral role (and no
    subject role) and its identifier is less than the verb's, and only then.
    A node whose pos is neither 'NP' nor 'S' yields nothing. *)
Theorem get_subjects_of_clause (fuel : nat) (t : Tree) (k : Z) (root : ParsedNode)
    (semantic deep : bool) :
  nodes t !! k = Some root -> identifier root = k ->
  (forall head subroot,
     pos_starts (py "N") subroot = true ->
     (ParsedTree.role_in SUBJECT_ROLES subroot = true -> qualifies head subroot = true) /\
     (ParsedTree.role_in SUBJECT_ROLES subroot = false ->
      ParsedTree.role_in NEUTRAL_ROLES subroot = true ->
      (qualifies head subroot = true <-> identifier subroot < identifier head))) /\
  (forall head children (H : ParsedNode -> list ParsedNode),
     ParsedNodeData.pos (data root) = Some (py "S") ->
     ParsedTree.get_heads fuel t (Some k) false false = Ok [head] ->
     pos_starts (py "V") head = true ->
     Tree.children t (Some k) = Ok children ->
     Forall (fun sub => has_pos sub = true) children ->
     Forall (fun sub => ParsedTree.get_heads fuel t (Some (identifier sub)) semantic deep
                        = Ok (H sub)) children ->
     ParsedTree.get_subjects SUBJECT_ROLES NEUTRAL_ROLES (S fuel) t (Some k) semantic deep
     = Ok (flat_map H (List.filter (qualifies head) children))) /\
  (ParsedNodeData.pos (data root) <> Some (py "NP") ->
   ParsedNodeData.pos (data root) <> Some (py "S") ->
   ParsedTree.get_subjects SUBJECT_ROLES NEUTRAL_ROLES (S fuel) t (Some k) semantic deep
   = Ok []).
Proof.
  intros Hroot Hid. split; [|split].
  - intros head subroot Hn. unfold qualifies. rewrite Hn. cbn [andb]. split.
    + intros ->. reflexivity.
    + intros -> ->. cbn [orb andb]. apply Z.ltb_lt.
  - intros head children H Hpos Hheads Hverb Hch Hhas HH.
    cbn [ParsedTree.get_subjects Tree.getitem]. rewrite Hroot, bind_ok, Hid, Hpos.
    rewrite bool_decide_eq_false_2 by discriminate.
    rewrite bool_decide_eq_true_2 by reflexivity.
    rewrite Hheads, bind_ok, mapM_one.
    unfold ParsedTree.head_subjects, ParsedTree.pos_startswith.
    unfold pos_starts in Hverb.
    destruct (ParsedNodeData.pos (data head)) as [p|]; [|discriminate].
    rewrite bind_ok, Hverb, Hid, Hch, bind_ok.
    rewrite (subroots_scan fuel t semantic deep head H children Hhas HH).
    rewrite !bind_ok. cbn [concat]. rewrite app_nil_r. reflexivity.
  - intros Hnp Hs.
    cbn [ParsedTree.get_subjects Tree.getitem]. rewrite Hroot, bind_ok.
    rewrite !bool_decide_eq_false_2 by assumption. reflexivity.
Qed.

End SubjectScan.

Lemma get_subjects_of_clause_witness :
  ParsedTree.get_subjects [py "agent"] [py "theme"] 2 clause_tree (Some 0) true true
  = Ok [mk_node 1 (py "theme:Na:a")
          (ParsedNodeData.mk (Some (py "theme")) (Some (py "Na")) (Some (py "a")))
          (Some 0) []].
Proof.
  refine (proj1 (proj2 (get_subjects_of_clause [py "agent"] [py "theme"] 1 clause_tree 0
                          (tree_of_node clause_tree 0) true true _ _))
            (tree_of_node clause_tree 2) (tree_of_children clause_tree 0)
            (fun n => [n]) _ _ _ _ _ _).
  - vm_compute. reflexivity.
  - reflexivity.
  - reflexivity.
  - vm_compute. reflexivity.
  - reflexivity.
  - vm_compute. reflexivity.
  - vm_compute. repeat constructor.
  - vm_compute. repeat constructor.
Defined.

(** ** The dict codec *)

Lemma add_successors_nil n : add_successors [] n = n.
Proof. destruct n. unfold add_successors. cbn. rewrite app_nil_r. reflexivity. Qed.

Lemma add_successors_cons i l n :
  add_successors l (Tree.add_successor i n) = add_successors (i :: l) n.
Proof. unfold add_successors, Tree.add_successor. cbn. rewrite <- app_assoc. reflexivity. Qed.

Lemma subdicts_unfold d : subdicts d = d :: flat_map subdicts (dict_children d).
Proof. destruct d. reflexivity. Qed.

Lemma queue_dicts_app q1 q2 : queue_dicts (q1 ++ q2) = queue_dicts q1 ++ queue_dicts q2.
Proof. apply flat_map_app. Qed.

Lemma queue_dicts_children (i : Z) cs :
  queue_dicts (map (fun child => (child, Some i)) cs) = flat_map subdicts cs.
Proof.
  unfold queue_dicts. induction cs as [|c cs IH]; cbn; [reflexivity|].
  rewrite IH. reflexivity.
Qed.

Lemma queued_under_app i q1 q2 :
  queued_under i (q1 ++ q2) = queued_under i q1 ++ queued_under i q2.
Proof. unfold queued_under. rewrite List.filter_app, map_app. reflexivity. Qed.

Lemma queued_under_children i cs :
  queued_under i (map (fun child => (child, Some i)) cs) = map dict_id cs.
Proof.
  unfold queued_under. induction cs as [|c cs IH]; cbn; [reflexivity|].
  rewrite bool_decide_eq_true_2 by reflexivity. cbn. rewrite IH. reflexivity.
Qed.

Lemma queued_under_none i q :
  Forall (fun e => snd e <> Some i) q -> queued_under i q = [].
Proof.
  unfold queued_under. induction 1 as [|e q He _ IH]; cbn; [reflexivity|].
  rewrite bool_decide_eq_false_2 by exact He. exact IH.
Qed.

Lemma create_child_lookup t tg nid pid d p :
  nodes t !! nid = None -> nodes t !! pid = Some p ->
  exists t',
    Tree.create_node t tg nid (Some pid) d = Ok t' /\ root t' = root t /\
    nodes t' !! nid = Some (mk_node nid tg d (Some pid) []) /\
    nodes t' !! pid = Some (Tree.add_successor nid p) /\
    (forall i, i <> nid -> i <> pid -> nodes t' !! i = nodes t !! i).
Proof.
  intros Hnid Hpid. unfold Tree.create_node. rewrite Hnid, Hpid.
  assert (nid <> pid) by congruence.
  eexists. split; [reflexivity|]. cbn [nodes root]. split; [reflexivity|].
  split; [|split].
  - rewrite lookup_alter_ne by congruence. apply lookup_insert_eq.
  - rewrite lookup_alter_eq, lookup_insert_ne by congruence. rewrite Hpid. reflexivity.
  - intros i Hi Hi'. rewrite lookup_alter_ne, lookup_insert_ne by congruence. reflexivity.
Qed.

(** The store the loop of [from_dict] ends with: the nodes already there
    gain the queued children, and every queued dict is filed as it reads. *)
Lemma from_dict_loop_spec (w : nat) :
  forall queue t,
    (ParsedTree.queue_weight queue <= w)%nat ->
    NoDup (map dict_id (queue_dicts queue)) ->
    (forall d, In d (queue_dicts queue) -> nodes t !! dict_id d = None) ->
    Forall (fun e => exists pid, snd e = Some pid /\ is_Some (nodes t !! pid)) queue ->
    exists t',
      ParsedTree.from_dict_loop queue t = Ok t' /\ root t' = root t /\
      (forall i n, nodes t !! i = Some n ->
         nodes t' !! i = Some (add_successors (queued_under i queue) n)) /\
      (forall d, In d (queue_dicts queue) -> node_ok t' d).
Proof.
  induction w as [|w IH]; intros queue t Hw Hnodup Hfresh Hparents.
  - destruct queue as [|[d p] queue].
    + exists t. rewrite ParsedTree.from_dict_loop_equation_1.
      split; [reflexivity|]. split; [reflexivity|]. split.
      * intros i n Hn. cbn. rewrite add_successors_nil. exact Hn.
      * intros d [].
    + exfalso. unfold ParsedTree.queue_weight in Hw. cbn in Hw. destruct d. cbn in Hw. lia.
  - destruct queue as [|[d p] queue].
    + exists t. rewrite ParsedTree.from_dict_loop_equation_1.
      split; [reflexivity|]. split; [reflexivity|]. split.
      * intros i n Hn. cbn. rewrite add_successors_nil. exact Hn.
      * intros d [].
    + inversion Hparents as [|? ? (pid & Hp & [pn Hpn]) Hparents']; subst.
      cbn [snd] in Hp. subst p.
      set (nid := dict_id d).
      set (queue' := queue ++ map (fun child => (child, Some nid)) (dict_children d)).
      assert (Hdicts : queue_dicts ((d, Some pid) :: queue)
                       = d :: flat_map subdicts (dict_children d) ++ queue_dicts queue).
      { unfold queue_dicts at 1. cbn [flat_map fst]. rewrite subdicts_unfold. reflexivity. }
      assert (Hdicts' : queue_dicts queue'
                        = queue_dicts queue ++ flat_map subdicts (dict_children d)).
      { unfold queue'. rewrite queue_dicts_app, queue_dicts_children. reflexivity. }
      assert (Hperm : Permutation (map dict_id (queue_dicts ((d, Some pid) :: queue)))
                        (nid :: map dict_id (queue_dicts queue'))).
      { rewrite Hdicts, Hdicts'. cbn [map]. apply perm_skip.
        apply Permutation_map, Permutation_app_comm. }
      pose proof Hnodup as Hnodup1. rewrite Hperm in Hnodup1.
      apply NoDup_cons in Hnodup1 as [Hnid_new Hnodup'].
      assert (Hsub : forall x, In x (queue_dicts queue') ->
                       In x (queue_dicts ((d, Some pid) :: queue))).
      { intros x Hx. rewrite Hdicts. rewrite Hdicts' in Hx. right.
        apply in_app_iff. apply in_app_iff in Hx. tauto. }
      assert (Hnid : nodes t !! nid = None).
      { apply Hfresh. rewrite Hdicts. left. reflexivity. }
      destruct (create_child_lookup t
                  (ParsedNodeData.to_text (ParsedNodeData.from_dict (dict_data d)))
                  nid pid (ParsedNodeData.from_dict (dict_data d)) pn Hnid Hpn)
        as (t1 & Hcreate & Hroot1 & Hnew & Hpar & Hother).
      assert (Hgrow : forall i, is_Some (nodes t !! i) -> is_Some (nodes t1 !! i)).
      { intros i Hi. destruct (decide (i = pid)) as [->|Hne]; [rewrite Hpar; eauto|].
        rewrite Hother; [exact Hi| |exact Hne]. intros ->. rewrite Hnid in Hi.
        destruct Hi; discriminate. }
      destruct (IH queue' t1) as (t' & Hloop & Hroot' & Hold & Hq).
      { pose proof (ParsedTree.queue_weight_step d (Some pid) queue nid). fold queue' in H. lia. }
      { exact Hnodup'. }
      { intros x Hx. assert (Hne : dict_id x <> nid).
        { intros E. apply Hnid_new. rewrite <- E. apply list_elem_of_In, in_map, Hx. }
        pose proof (Hfresh x (Hsub x Hx)) as Hx'.
        rewrite Hother; [exact Hx'|exact Hne|]. intros E. rewrite E, Hpn in Hx'. discriminate. }
      { unfold queue'. apply Forall_app. split.
        - eapply Forall_impl; [exact Hparents'|]. intros e (pid' & He & Hs). eauto.
        - apply Forall_forall. intros e He. apply list_elem_of_In, in_map_iff in He
            as (c & <- & _). exists nid. split; [reflexivity|]. rewrite Hnew. eauto. }
      exists t'. split.
      { rewrite ParsedTree.from_dict_loop_equation_2. cbv zeta. fold nid.
        rewrite Hcreate. exact Hloop. }
      split; [congruence|].
      assert (Hunder : forall i, i <> nid ->
                         queued_under i queue' = queued_under i queue).
      { intros i Hi. unfold queue'. rewrite queued_under_app.
        rewrite (queued_under_none i (map _ _)); [apply app_nil_r|].
        apply Forall_forall. intros e He. apply list_elem_of_In, in_map_iff in He
          as (c & <- & _). cbn. congruence. }
      split.
      * intros i n Hn.
        assert (Hi : i <> nid) by (intros ->; congruence).
        destruct (decide (i = pid)) as [->|Hne].
        -- rewrite (Hold pid _ Hpar), (Hunder pid Hi), add_successors_cons.
           assert (n = pn) as -> by congruence.
           unfold queued_under at 2. cbn [List.filter snd].
           rewrite bool_decide_eq_true_2 by reflexivity. reflexivity.
        -- rewrite (Hold i n), (Hunder i Hi); [|rewrite Hother; auto].
           unfold queued_under at 2. cbn [List.filter snd].
           rewrite bool_decide_eq_false_2 by congruence. reflexivity.
      * intros x Hx. rewrite Hdicts in Hx. destruct Hx as [<-|Hx].
        -- exists (add_successors (queued_under nid queue') (mk_node nid
                     (ParsedNodeData.to_text (ParsedNodeData.from_dict (dict_data d)))
                     (ParsedNodeData.from_dict (dict_data d)) (Some pid) [])).
           split; [apply Hold, Hnew|]. split; [reflexivity|]. split; [reflexivity|].
           cbn [add_successors successors app]. unfold queue'.
           rewrite queued_under_app, queued_under_children.
           rewrite queued_under_none; [reflexivity|].
           eapply Forall_impl; [exact Hparents'|]. intros e (pid' & He & Hs) E.
           rewrite He in E. injection E as ->. rewrite Hnid in Hs.
           destruct Hs; discriminate.
        -- apply Hq. rewrite Hdicts'. apply in_app_iff. apply in_app_iff in Hx. tauto.
Qed.

Lemma node_data_dict_round_trip x :
  ParsedNodeData.to_dict (ParsedNodeData.from_dict x) = x.
Proof. destruct x. reflexivity. Qed.

Lemma dict_height_child c cs :
  In c cs -> (dict_height c <= list_max (map dict_height cs))%nat.
Proof.
  intros Hc. pose proof (proj1 (list_max_le (map dict_height cs) _) (le_n _)) as Hall.
  rewrite List.Forall_forall in Hall. apply Hall, in_map, Hc.
Qed.

Lemma children_to_dict fuel t cs :
  (forall c, In c cs ->
     node_ok t c /\ ParsedTree.to_dict fuel t (Some (dict_id c)) = Ok c) ->
  exists ns,
    mapM (fun i => Tree.getitem t (Some i)) (map dict_id cs) = Ok ns /\
    mapM (fun child => ParsedTree.to_dict fuel t (Some (identifier child))) ns = Ok cs.
Proof.
  induction cs as [|c cs IH]; intros Hcs.
  - exists []. split; reflexivity.
  - destruct (Hcs c (or_introl eq_refl)) as [(n & Hn & Hid & _) Hc].
    destruct IH as (ns & Hns & Hds); [intros x Hx; apply Hcs; right; exact Hx|].
    exists (n :: ns). split.
    + assert (Hget : Tree.getitem t (Some (dict_id c)) = Ok n)
        by (unfold Tree.getitem; rewrite Hn; reflexivity).
      cbn [map]. rewrite mapM_cons. cbv beta. rewrite Hget, bind_ok, Hns. reflexivity.
    + rewrite mapM_cons. cbv beta. rewrite Hid, Hc, bind_ok, Hds. reflexivity.
Qed.

(** [to_dict] reads a dict back from a store that files every node of it. *)
Lemma to_dict_stored fuel :
  forall t d,
    (forall x, In x (subdicts d) -> node_ok t x) ->
    (dict_height d <= fuel)%nat ->
    ParsedTree.to_dict fuel t (Some (dict_id d)) = Ok d.
Proof.
  induction fuel as [|fuel IH]; intros t d Hall Hh.
  - destruct d. cbn in Hh. lia.
  - destruct d as [i x cs]. cbn [dict_height] in Hh.
    destruct (Hall _ (or_introl eq_refl)) as (n & Hn & Hid & Hdata & Hsucc).
    cbn [dict_id dict_data dict_children] in *.
    destruct (children_to_dict fuel t cs) as (ns & Hns & Hds).
    { intros c Hc.
      assert (Hsub : forall y, In y (subdicts c) -> In y (subdicts (TreeDict i x cs))).
      { intros y Hy. cbn [subdicts]. right. apply in_flat_map. eauto. }
      split.
      - apply Hall, Hsub. rewrite subdicts_unfold. left. reflexivity.
      - apply IH; [intros y Hy; apply Hall, Hsub, Hy|].
        pose proof (dict_height_child c cs Hc). lia. }
    cbn [ParsedTree.to_dict Tree.getitem]. rewrite Hn, bind_ok.
    unfold Tree.children, Tree.is_branch. rewrite Hn, bind_ok, Hsucc, Hns, bind_ok, Hds.
    rewrite bind_ok, Hid, Hdata, node_data_dict_round_trip. reflexivity.
Qed.

(** C5.  A dict of the shape [{id, data, children}] whose identifiers are
    pairwise distinct is accepted by [from_dict], and [to_dict] on the tree
    returns the very same dict, identifiers included (the depth at hand
    covering the levels of the dict). *)
Theorem dict_round_trip (d : tree_dict) :
  NoDup (dict_ids d) ->
  exists t,
    ParsedTree.from_dict d = Ok t /\
    forall fuel, (dict_height d <= fuel)%nat -> ParsedTree.to_dict fuel t None = Ok d.
Proof.
  intros Hnodup. unfold ParsedTree.from_dict.
  rewrite ParsedTree.from_dict_loop_equation_2. cbv zeta.
  set (nid := dict_id d).
  set (node0 := mk_node nid (ParsedNodeData.to_text (ParsedNodeData.from_dict (dict_data d)))
                  (ParsedNodeData.from_dict (dict_data d)) None []).
  set (t1 := mk_tree (<[nid := node0]> ∅) (Some nid)).
  assert (Hcreate : Tree.create_node Tree.empty
                      (ParsedNodeData.to_text (ParsedNodeData.from_dict (dict_data d)))
                      nid None (ParsedNodeData.from_dict (dict_data d)) = Ok t1).
  { unfold Tree.create_node. cbn [Tree.empty nodes root]. rewrite lookup_empty. reflexivity. }
  rewrite Hcreate. cbn [app].
  unfold dict_ids in Hnodup. rewrite subdicts_unfold in Hnodup. cbn [map] in Hnodup.
  fold nid in Hnodup. apply NoDup_cons in Hnodup as [Hnid Hnodup].
  destruct (from_dict_loop_spec _ (map (fun child => (child, Some nid)) (dict_children d)) t1
              (le_n _)) as (t & Hloop & Hroot & Hold & Hq).
  - rewrite queue_dicts_children. exact Hnodup.
  - intros x Hx. rewrite queue_dicts_children in Hx. cbn [t1 nodes].
    rewrite lookup_insert_ne; [apply lookup_empty|].
    intros E. apply Hnid. rewrite E. apply list_elem_of_In, in_map, Hx.
  - apply Forall_forall. intros e He. apply list_elem_of_In, in_map_iff in He as (c & <- & _).
    exists nid. split; [reflexivity|]. cbn [t1 nodes]. rewrite lookup_insert_eq. eauto.
  - exists t. split; [exact Hloop|]. intros fuel Hfuel.
    assert (Hdefault : ParsedTree.to_dict fuel t None
                       = ParsedTree.to_dict fuel t (Some (dict_id d))).
    { destruct fuel; [reflexivity|]. cbn [ParsedTree.to_dict]. rewrite Hroot. reflexivity. }
    rewrite Hdefault. apply to_dict_stored; [|exact Hfuel].
    intros x Hx. rewrite subdicts_unfold in Hx. destruct Hx as [<-|Hx].
    + exists (add_successors
                (queued_under nid (map (fun child => (child, Some nid)) (dict_children d)))
                node0).
      split; [apply Hold; cbn [t1 nodes]; apply lookup_insert_eq|].
      split; [reflexivity|]. split; [reflexivity|].
      cbn [add_successors successors node0 app]. apply queued_under_children.
    + apply Hq. rewrite queue_dicts_children. exact Hx.
Qed.

(** Without distinct identifiers the dict is refused by treelib. *)
Example from_dict_duplicate_id :
  ParsedTree.from_dict
    (TreeDict 0 (ParsedNodeData.mk_dict None (Some (py "S")) None)
       [TreeDict 0 (ParsedNodeData.mk_dict None (Some (py "Na")) None) []])
  = Raise DuplicatedNodeIdError.
Proof. vm_compute. reflexivity. Qed.

Lemma dict_round_trip_witness :
  exists t,
    ParsedTree.from_dict doc_dict = Ok t /\
    forall fuel, (dict_height doc_dict <= fuel)%nat ->
      ParsedTree.to_dict fuel t None = Ok doc_dict.
Proof.
  apply (dict_round_trip doc_dict).
  apply (bool_decide_unpack _). vm_compute. exact I.
Defined.

(** ** The text codec *)

Lemma stored_unfold t n tt :
  stored t n tt
  <-> (exists nd, nodes t !! n = Some nd /\ identifier nd = n /\
                  ParsedNodeData.from_text (tt_label tt) = Ok (data nd) /\
                  successors nd = child_ids (n + 1) (tt_children tt))
      /\ stored_forest t (n + 1) (tt_children tt).
Proof.
  destruct tt as [l cs]. cbn [stored tt_label tt_children].
  assert (E : forall m,
             (fix forest (m : Z) (cs : list text_tree) : Prop :=
                match cs with
                | [] => True
                | c :: cs' => stored t m c /\ forest (m + Z.of_nat (tt_size c)) cs'
                end) m cs = stored_forest t m cs).
  { induction cs as [|c cs IH]; intros m; [reflexivity|].
    cbn [stored_forest]. rewrite <- IH. reflexivity. }
  rewrite E. reflexivity.
Qed.

(** *** Node texts *)

Lemma valid_label_parts l :
  valid_label l = true ->
  (length (str_split ":" l) <= 3)%nat /\
  Forall (fun f => f <> []) (str_split ":" l) /\
  Forall (fun c => is_delimiter c = false) l.
Proof.
  unfold valid_label. intros H.
  apply andb_true_iff in H as [H Hd]. apply andb_true_iff in H as [Hlen Hne].
  split; [apply Nat.leb_le, Hlen|]. split.
  - apply List.Forall_forall. intros f Hf.
    rewrite forallb_forall in Hne. specialize (Hne f Hf).
    apply negb_true_iff, bool_decide_eq_false in Hne. exact Hne.
  - apply List.Forall_forall. intros c Hc.
    rewrite forallb_forall in Hd. apply negb_true_iff, Hd, Hc.
Qed.

Lemma valid_label_nonempty l : valid_label l = true -> l <> [].
Proof.
  intros H ->. apply valid_label_parts in H as (_ & Hne & _).
  cbn in Hne. inversion Hne; congruence.
Qed.

(** A valid node text is read and written back unchanged. *)
Lemma label_round_trip l :
  valid_label l = true ->
  exists d, ParsedNodeData.from_text l = Ok d /\ ParsedNodeData.to_text d = l.
Proof.
  intros H. pose proof (valid_label_nonempty l H) as Hl.
  apply valid_label_parts in H as (Hlen & Hne & _).
  unfold ParsedNodeData.from_text.
  destruct (str_contains ":" l) eqn:Hc.
  - pose proof (str_join_split ":" l) as Hjoin.
    destruct (str_split_sep _ _ Hc) as (a & b & rest & Hs). rewrite Hs in *.
    inversion Hne as [|? ? Ha Hne']; subst. inversion Hne' as [|? ? Hb Hne'']; subst.
    destruct rest as [|w rest].
    + eexists. split; [reflexivity|].
      unfold ParsedNodeData.to_text, ParsedNodeData.truthy. cbn [omap ParsedNodeData.role
        ParsedNodeData.pos ParsedNodeData.word].
      destruct a; [congruence|]. destruct b; [congruence|]. reflexivity.
    + destruct rest as [|x rest]; [|cbn in Hlen; lia].
      inversion Hne'' as [|? ? Hw _]; subst.
      eexists. split; [reflexivity|].
      unfold ParsedNodeData.to_text, ParsedNodeData.truthy. cbn [omap ParsedNodeData.role
        ParsedNodeData.pos ParsedNodeData.word].
      destruct a; [congruence|]. destruct b; [congruence|]. destruct w; [congruence|].
      reflexivity.
  - eexists. split; [reflexivity|].
    unfold ParsedNodeData.to_text, ParsedNodeData.truthy. cbn [omap ParsedNodeData.role
      ParsedNodeData.pos ParsedNodeData.word].
    destruct l; [congruence|]. reflexivity.
Qed.

(** *** The turns of the scan *)

Lemma step_char c t n q tx e :
  is_delimiter c = false ->
  ParsedTree.step c (ParsedTree.mk_scan t n q tx e)
  = Ok (ParsedTree.mk_scan t n q (tx ++ [c]) false).
Proof.
  unfold is_delimiter, ParsedTree.step. intros H.
  apply orb_false_iff in H as [H H3]. apply orb_false_iff in H as [H1 H2].
  rewrite H1, H2, H3. reflexivity.
Qed.

Lemma scan_label l : forall t n q tx e rest,
  Forall (fun c => is_delimiter c = false) l -> l <> [] ->
  foldM ParsedTree.step (l ++ rest) (ParsedTree.mk_scan t n q tx e)
  = foldM ParsedTree.step rest (ParsedTree.mk_scan t n q (tx ++ l) false).
Proof.
  induction l as [|c l IH]; intros t n q tx e rest Hl Hne; [congruence|].
  inversion Hl as [|? ? Hc Hl']; subst.
  cbn [app foldM]. rewrite (step_char _ _ _ _ _ _ Hc), bind_ok.
  destruct l as [|c' l].
  - reflexivity.
  - rewrite IH by (auto; discriminate). rewrite <- app_assoc. reflexivity.
Qed.

(** The node the scan makes of the text [l] under the parent [p]. *)
Lemma flush_child t n p q l e d pn :
  ParsedNodeData.from_text l = Ok d ->
  nodes t !! n = None -> nodes t !! p = Some pn ->
  exists t',
    ParsedTree.flush (ParsedTree.mk_scan t n (Some p :: q) l e) = Ok t' /\
    root t' = root t /\
    nodes t' !! n = Some (mk_node n l d (Some p) []) /\
    nodes t' !! p = Some (Tree.add_successor n pn) /\
    (forall i, i <> n -> i <> p -> nodes t' !! i = nodes t !! i).
Proof.
  intros Hd Hn Hp. unfold ParsedTree.flush.
  cbn [ParsedTree.s_text ParsedTree.s_node_queue ParsedTree.s_tree ParsedTree.s_node_id].
  rewrite Hd, bind_ok. apply create_child_lookup; assumption.
Qed.

Lemma step_open t n q l e t' :
  ParsedTree.flush (ParsedTree.mk_scan t n q l e) = Ok t' ->
  ParsedTree.step "(" (ParsedTree.mk_scan t n q l e)
  = Ok (ParsedTree.mk_scan t' (n + 1) (Some n :: q) [] e).
Proof. unfold ParsedTree.step. cbn [Ascii.eqb]. intros ->. reflexivity. Qed.

(** A ')' or a '|' after a node text: the text becomes a node, and ')' pops
    the stack. *)
Lemma step_delim_pending delim t n p q l t' :
  delim = ")"%char \/ delim = "|"%char ->
  ParsedTree.flush (ParsedTree.mk_scan t n (p :: q) l false) = Ok t' ->
  ParsedTree.step delim (ParsedTree.mk_scan t n (p :: q) l false)
  = Ok (ParsedTree.mk_scan t' (n + 1) (if Ascii.eqb delim ")" then q else p :: q) [] true).
Proof.
  unfold ParsedTree.step, ParsedTree.flush_pending.
  cbn [ParsedTree.s_ending]. intros [-> | ->] ->; reflexivity.
Qed.

(** A ')' or a '|' right after a ')': nothing is pending. *)
Lemma step_delim_done delim t n p q :
  delim = ")"%char \/ delim = "|"%char ->
  ParsedTree.step delim (ParsedTree.mk_scan t n (p :: q) [] true)
  = Ok (ParsedTree.mk_scan t n (if Ascii.eqb delim ")" then q else p :: q) [] true).
Proof. intros [-> | ->]; reflexivity. Qed.

(** *** What the scan makes of a well-formed text *)

Lemma text_tree_induction (P : text_tree -> Prop) :
  (forall l cs, Forall P cs -> P (TextNode l cs)) -> forall tt, P tt.
Proof.
  intros H. fix IH 1. intros [l cs]. apply H.
  induction cs as [|c cs IHcs]; constructor; [apply IH|exact IHcs].
Qed.

Lemma forest_size_cons c cs : forest_size (c :: cs) = (tt_size c + forest_size cs)%nat.
Proof. reflexivity. Qed.

Lemma tt_size_unfold tt : tt_size tt = S (forest_size (tt_children tt)).
Proof. destruct tt. reflexivity. Qed.

Lemma stored_agree tt : forall t t' n,
  (forall i, n <= i < n + Z.of_nat (tt_size tt) -> nodes t' !! i = nodes t !! i) ->
  stored t n tt -> stored t' n tt.
Proof.
  induction tt as [l cs IH] using text_tree_induction. intros t t' n Hag.
  rewrite !stored_unfold. cbn [tt_label tt_children].
  rewrite tt_size_unfold in Hag. cbn [tt_children] in Hag.
  intros [(nd & Hnd & Hrest) Hforest]. split.
  - exists nd. split; [|exact Hrest]. rewrite Hag; [exact Hnd|lia].
  - assert (Hag' : forall i, n + 1 <= i < n + 1 + Z.of_nat (forest_size cs) ->
                     nodes t' !! i = nodes t !! i) by (intros i Hi; apply Hag; lia).
    clear Hag Hnd Hrest. revert Hag' Hforest. generalize (n + 1).
    induction IH as [|c cs Hc _ IHcs]; intros m Hag Hf; [exact I|].
    cbn [stored_forest] in *. destruct Hf as [Hfc Hfcs].
    rewrite forest_size_cons in Hag. split.
    + apply (Hc t t' m); [|exact Hfc]. intros i Hi. apply Hag. lia.
    + apply IHcs; [|exact Hfcs]. intros i Hi. apply Hag. lia.
Qed.

(** The same for the trees of a bracket group, up to its ')'. *)
Lemma scan_forest cs :
  Forall scan_ok cs -> forallb valid cs = true -> cs <> [] ->
  forall t n p q e rest pn,
    fresh_from t n -> p < n -> nodes t !! p = Some pn ->
    exists t',
      foldM ParsedTree.step (str_join (py "|") (map render cs) ++ ")"%char :: rest)
        (ParsedTree.mk_scan t n (Some p :: q) [] e)
      = foldM ParsedTree.step rest
          (ParsedTree.mk_scan t' (n + Z.of_nat (forest_size cs)) q [] true) /\
      root t' = root t /\
      fresh_from t' (n + Z.of_nat (forest_size cs)) /\
      (forall i, i < n -> i <> p -> nodes t' !! i = nodes t !! i) /\
      nodes t' !! p = Some (add_successors (child_ids n cs) pn) /\
      stored_forest t' n cs.
Proof.
  induction 1 as [|c cs Hc Hcs IH]; intros Hvalid Hne; [congruence|].
  cbn [forallb] in Hvalid. apply andb_true_iff in Hvalid as [Hvc Hvcs].
  intros t n p q e rest pn Hfresh Hp Hpn.
  destruct cs as [|c' cs].
  - destruct (Hc Hvc t n p q e ")"%char rest pn (or_introl eq_refl) Hfresh Hp Hpn)
      as (t' & Hscan & Hroot & Hfresh' & Hsame & Hpar & Hst).
    exists t'. rewrite forest_size_cons. unfold forest_size at 1 2.
    cbn [map list_sum str_join child_ids stored_forest].
    rewrite Nat.add_0_r. split; [exact Hscan|]. split; [exact Hroot|].
    split; [exact Hfresh'|]. split; [exact Hsame|]. split; [|auto].
    rewrite Hpar. reflexivity.
  - destruct (Hc Hvc t n p q e "|"%char
                (str_join (py "|") (map render (c' :: cs)) ++ ")"%char :: rest)
                pn (or_intror eq_refl) Hfresh Hp Hpn)
      as (t1 & Hscan1 & Hroot1 & Hfresh1 & Hsame1 & Hpar1 & Hst1).
    cbn [Ascii.eqb] in Hscan1.
    destruct (IH Hvcs ltac:(discriminate) t1 (n + Z.of_nat (tt_size c)) p q true rest
                (Tree.add_successor n pn) Hfresh1 ltac:(lia) Hpar1)
      as (t' & Hscan & Hroot & Hfresh' & Hsame & Hpar & Hst).
    exists t'.
    assert (Hsize : n + Z.of_nat (forest_size (c :: c' :: cs))
                    = n + Z.of_nat (tt_size c) + Z.of_nat (forest_size (c' :: cs))).
    { rewrite forest_size_cons. lia. }
    rewrite Hsize. split; [|split; [|split; [|split; [|split]]]].
    + change (str_join (py "|") (map render (c :: c' :: cs)))
        with (render c ++ py "|" ++ str_join (py "|") (map render (c' :: cs))).
      rewrite <- !app_assoc. exact (eq_trans Hscan1 Hscan).
    + congruence.
    + exact Hfresh'.
    + intros i Hi Hip. rewrite Hsame by lia. apply Hsame1; assumption.
    + rewrite Hpar, add_successors_cons. reflexivity.
    + cbn [stored_forest]. split; [|exact Hst].
      apply (stored_agree c t1 t' n); [|exact Hst1].
      intros i Hi. apply Hsame; lia.
Qed.

Lemma render_unfold l c cs :
  render (TextNode l (c :: cs))
  = l ++ py "(" ++ str_join (py "|") (map render (c :: cs)) ++ py ")".
Proof. reflexivity. Qed.

Lemma scan_subtree tt : scan_ok tt.
Proof.
  induction tt as [l cs IH] using text_tree_induction.
  intros Hvalid t n p q e delim rest pn Hdelim Hfresh Hp Hpn.
  cbn [valid] in Hvalid. apply andb_true_iff in Hvalid as [Hl Hcs].
  pose proof (valid_label_nonempty l Hl) as Hne.
  destruct (label_round_trip l Hl) as (d & Hd & _).
  destruct (valid_label_parts l Hl) as (_ & _ & Hchars).
  destruct (flush_child t n p q l false d pn Hd (Hfresh n ltac:(lia)) Hpn)
    as (t1 & Hflush & Hroot1 & Hnew1 & Hpar1 & Hsame1).
  rewrite tt_size_unfold. cbn [tt_children].
  destruct cs as [|c cs].
  - (* a leaf: the delimiter makes the node *)
    exists t1. cbn [render]. unfold forest_size. cbn [map list_sum].
    split; [|split; [|split; [|split; [|split]]]].
    + rewrite scan_label by assumption. cbn [app foldM].
      rewrite (step_delim_pending delim t n (Some p) q l t1 Hdelim Hflush), bind_ok.
      replace (n + Z.of_nat 1) with (n + 1) by lia. reflexivity.
    + exact Hroot1.
    + intros i Hi. rewrite Hsame1 by lia. apply Hfresh. lia.
    + intros i Hi Hip. apply Hsame1; [lia|exact Hip].
    + exact Hpar1.
    + apply stored_unfold. cbn [tt_label tt_children child_ids stored_forest].
      split; [|exact I]. eexists. split; [exact Hnew1|]. auto.
  - (* a node with a bracket group *)
    assert (Hfresh1 : fresh_from t1 (n + 1)).
    { intros i Hi. rewrite Hsame1 by lia. apply Hfresh. lia. }
    destruct (scan_forest (c :: cs) IH Hcs ltac:(discriminate) t1 (n + 1) n
                (Some p :: q) false (delim :: rest) (mk_node n l d (Some p) [])
                Hfresh1 ltac:(lia) Hnew1)
      as (t2 & Hscan & Hroot2 & Hfresh2 & Hsame2 & Hpar2 & Hforest).
    exists t2.
    replace (n + Z.of_nat (S (forest_size (c :: cs))))
      with (n + 1 + Z.of_nat (forest_size (c :: cs))) by lia.
    split; [|split; [|split; [|split; [|split]]]].
    + rewrite render_unfold, <- !app_assoc.
      rewrite scan_label by assumption.
      change (py "(" ++ ?x) with ("("%char :: x). cbn [app foldM].
      assert (Hflush' : ParsedTree.flush (ParsedTree.mk_scan t n (Some p :: q) l false)
                        = Ok t1) by exact Hflush.
      rewrite (step_open _ _ _ _ _ _ Hflush'), bind_ok.
      change (py ")" ++ delim :: rest) with (")"%char :: delim :: rest).
      rewrite Hscan. cbn [foldM].
      rewrite (step_delim_done delim t2 _ (Some p) q Hdelim), bind_ok. reflexivity.
    + congruence.
    + exact Hfresh2.
    + intros i Hi Hip. rewrite Hsame2 by lia. apply Hsame1; [lia|exact Hip].
    + rewrite Hsame2 by lia. exact Hpar1.
    + apply stored_unfold. cbn [tt_label tt_children]. split; [|exact Hforest].
      eexists. split; [exact Hpar2|]. cbn [add_successors identifier data successors app].
      auto.
Qed.

(** *** Writing the tree back *)

Lemma render_nonempty tt : valid tt = true -> render tt <> [].
Proof.
  destruct tt as [l cs]. cbn [valid]. intros H. apply andb_true_iff in H as [Hl _].
  pose proof (valid_label_nonempty l Hl). destruct cs; cbn [render]; [assumption|].
  destruct l; [congruence|discriminate].
Qed.

Lemma str_join_nonempty sep s ss : s <> [] -> str_join sep (s :: ss) <> [].
Proof. destruct s; [congruence|]. destruct ss; discriminate. Qed.

Lemma tt_height_child c cs :
  In c cs -> (tt_height c <= list_max (map tt_height cs))%nat.
Proof.
  intros Hc. pose proof (proj1 (list_max_le (map tt_height cs) _) (le_n _)) as Hall.
  rewrite List.Forall_forall in Hall. apply Hall, in_map, Hc.
Qed.

Lemma children_to_text fuel t cs : forall m,
  stored_forest t m cs ->
  (forall c k, In c cs -> stored t k c ->
     ParsedTree.to_text fuel t (Some k) = Ok (render c)) ->
  exists ns,
    mapM (fun i => Tree.getitem t (Some i)) (child_ids m cs) = Ok ns /\
    mapM (fun child => ParsedTree.to_text fuel t (Some (identifier child))) ns
    = Ok (map render cs).
Proof.
  induction cs as [|c cs IH]; intros m Hst Hrec.
  - exists []. split; reflexivity.
  - cbn [stored_forest] in Hst. destruct Hst as [Hc Hcs].
    destruct (IH _ Hcs) as (ns & Hns & Hts); [intros x k Hx; apply Hrec; right; exact Hx|].
    pose proof Hc as Hc'. apply stored_unfold in Hc' as [(nd & Hnd & Hid & _) _].
    exists (nd :: ns). split.
    + assert (Hget : Tree.getitem t (Some m) = Ok nd)
        by (unfold Tree.getitem; rewrite Hnd; reflexivity).
      cbn [child_ids]. rewrite mapM_cons. cbv beta. rewrite Hget, bind_ok, Hns. reflexivity.
    + rewrite mapM_cons. cbv beta.
      rewrite Hid, (Hrec c m (or_introl eq_refl) Hc), bind_ok, Hts. reflexivity.
Qed.

(** [to_text] writes the text of a tree the store files. *)
Lemma to_text_stored fuel : forall t n tt,
  valid tt = true -> stored t n tt -> (tt_height tt <= fuel)%nat ->
  ParsedTree.to_text fuel t (Some n) = Ok (render tt).
Proof.
  induction fuel as [|fuel IH]; intros t n tt Hvalid Hst Hh.
  - destruct tt. cbn in Hh. lia.
  - destruct tt as [l cs]. cbn [tt_height] in Hh.
    cbn [valid] in Hvalid. apply andb_true_iff in Hvalid as [Hl Hcs].
    apply stored_unfold in Hst as [(nd & Hnd & Hid & Hdata & Hsucc) Hforest].
    cbn [tt_label tt_children] in *.
    destruct (label_round_trip l Hl) as (d & Hd & Htext).
    assert (d = data nd) as -> by congruence.
    destruct (children_to_text fuel t cs (n + 1) Hforest) as (ns & Hns & Hts).
    { intros c k Hc Hk. apply IH; [|exact Hk|].
      - rewrite forallb_forall in Hcs. apply Hcs, Hc.
      - pose proof (tt_height_child c cs Hc). lia. }
    cbn [ParsedTree.to_text Tree.getitem]. rewrite Hnd, bind_ok.
    unfold Tree.children, Tree.is_branch. rewrite Hnd, bind_ok, Hsucc, Hns, bind_ok, Hts.
    rewrite bind_ok, Htext.
    destruct cs as [|c cs]; [reflexivity|].
    assert (Hj : str_join (py "|") (map render (c :: cs)) <> []).
    { apply str_join_nonempty, render_nonempty.
      cbn [forallb] in Hcs. apply andb_true_iff in Hcs as [Hc _]. exact Hc. }
    rewrite render_unfold.
    destruct (str_join (py "|") (map render (c :: cs))); [congruence|reflexivity].
Qed.

(** C1, as the code has it.  For a well-formed text without empty segments
    whose root has a bracket group, [from_text] without normalisation
    returns a tree and [to_text] on it returns the text (the depth at hand
    covering the levels of the tree). *)
Theorem text_round_trip (tt : text_tree) :
  valid tt = true -> tt_children tt <> [] ->
  exists t,
    ParsedTree.from_text (render tt) false = Ok t /\
    forall fuel, (tt_height tt <= fuel)%nat ->
      ParsedTree.to_text fuel t None = Ok (render tt).
Proof.
  destruct tt as [l cs]. cbn [tt_children]. intros Hvalid Hne.
  pose proof Hvalid as Hv. cbn [valid] in Hv. apply andb_true_iff in Hv as [Hl Hcs].
  destruct cs as [|c cs]; [congruence|].
  pose proof (valid_label_nonempty l Hl) as Hlne.
  destruct (label_round_trip l Hl) as (d & Hd & _).
  destruct (valid_label_parts l Hl) as (_ & _ & Hchars).
  set (node0 := mk_node 0 l d None []).
  set (t1 := mk_tree (<[0 := node0]> ∅) (Some 0)).
  assert (Hflush : ParsedTree.flush (ParsedTree.mk_scan Tree.empty 0 [None] l false) = Ok t1).
  { unfold ParsedTree.flush. cbn [ParsedTree.s_text]. rewrite Hd, bind_ok. reflexivity. }
  destruct (scan_forest (c :: cs)) with (t := t1) (n := 1) (p := 0) (q := [@None Z])
    (e := false) (rest := @nil ascii) (pn := node0)
    as (t2 & Hscan & Hroot2 & Hfresh2 & Hsame2 & Hpar2 & Hforest).
  { apply List.Forall_forall. intros x _. apply scan_subtree. }
  { exact Hcs. }
  { discriminate. }
  { intros i Hi. cbn [t1 nodes]. rewrite lookup_insert_ne by lia. apply lookup_empty. }
  { lia. }
  { cbn [t1 nodes]. apply lookup_insert_eq. }
  exists t2. split.
  - unfold ParsedTree.from_text, ParsedTree.scan_init.
    rewrite render_unfold, scan_label by assumption.
    change (py "(" ++ ?x) with ("("%char :: x). cbn [app foldM].
    rewrite (step_open _ _ _ _ _ _ Hflush), bind_ok.
    change (py ")") with [")"%char]. change (0 + 1) with 1.
    rewrite Hscan. reflexivity.
  - intros fuel Hfuel.
    assert (Hdefault : ParsedTree.to_text fuel t2 None = ParsedTree.to_text fuel t2 (Some 0)).
    { destruct fuel; [reflexivity|]. cbn [ParsedTree.to_text]. rewrite Hroot2. reflexivity. }
    rewrite Hdefault. apply to_text_stored; [exact Hvalid| |exact Hfuel].
    apply stored_unfold. cbn [tt_label tt_children]. split; [|exact Hforest].
    eexists. split; [exact Hpar2|].
    cbn [add_successors identifier data successors node0 app]. auto.
Qed.

Lemma text_round_trip_witness :
  exists t,
    ParsedTree.from_text doc_text false = Ok t /\
    forall fuel, (2 <= fuel)%nat -> ParsedTree.to_text fuel t None = Ok doc_text.
Proof.
  apply (text_round_trip
           (TextNode (py "S")
              [TextNode (py "Head:Nab:中文字") []; TextNode (py "particle:Td:耶") []])).
  - vm_compute. reflexivity.
  - discriminate.
Defined.

(** C1 as stated fails on a text that is a single node: nothing flushes the
    buffer at the end of the input, [from_text] returns the empty tree, and
    [to_text] has no root to start from. *)
Lemma bare_node_text_not_round_trip :
  well_formed_text (py "Na") /\
  ParsedTree.from_text (py "Na") false = Ok Tree.empty /\
  forall fuel, ParsedTree.to_text fuel Tree.empty None <> Ok (py "Na").
Proof.
  split; [|split].
  - exists (TextNode (py "Na") []). split; reflexivity.
  - reflexivity.
  - intros [|fuel]; discriminate.
Qed.

(** * Further properties *)

(** ** ParsedNodeData: text form *)

(** X1.  A node text of one to three ':'-separated fields, none of them
    empty, is read by [from_text] and written back unchanged by
    [to_text]. *)
Theorem node_text_read_write (l : str) :
  (length (str_split ":" l) <= 3)%nat ->
  Forall (fun f => f <> []) (str_split ":" l) ->
  exists d, ParsedNodeData.from_text l = Ok d /\ ParsedNodeData.to_text d = l.
Proof.
  intros Hlen Hne.
  assert (Hl : l <> []).
  { intros ->. cbn in Hne. inversion Hne; congruence. }
  unfold ParsedNodeData.from_text.
  destruct (str_contains ":" l) eqn:Hc.
  - pose proof (str_join_split ":" l) as Hjoin.
    destruct (str_split_sep _ _ Hc) as (a & b & rest & Hs). rewrite Hs in *.
    apply Forall_cons in Hne as [Ha Hne]. apply Forall_cons in Hne as [Hb Hne].
    destruct rest as [|w [|x rest]]; [| |cbn in Hlen; lia].
    + eexists. split; [reflexivity|]. rewrite <- Hjoin.
      destruct a; [congruence|]. destruct b; [congruence|]. reflexivity.
    + apply Forall_cons in Hne as [Hw _].
      eexists. split; [reflexivity|]. rewrite <- Hjoin.
      destruct a; [congruence|]. destruct b; [congruence|]. destruct w; [congruence|].
      reflexivity.
  - eexists. split; [reflexivity|]. destruct l; [congruence|]. reflexivity.
Qed.

Lemma node_text_read_write_witness :
  exists d, ParsedNodeData.from_text (py "Head:Na:x") = Ok d /\
            ParsedNodeData.to_text d = py "Head:Na:x".
Proof.
  apply (node_text_read_write (py "Head:Na:x")).
  - vm_compute. lia.
  - vm_compute. repeat constructor; discriminate.
Defined.

Lemma str_contains_app c a b :
  str_contains c (a ++ b) = str_contains c a || str_contains c b.
Proof. unfold str_contains. apply existsb_app. Qed.

Lemma str_split_app_sep c a b :
  str_contains c a = false -> str_split c (a ++ c :: b) = a :: str_split c b.
Proof.
  induction a as [|x a IH]; intros Ha.
  - cbn [app str_split]. rewrite Ascii.eqb_refl. reflexivity.
  - cbn [str_contains existsb] in Ha. apply orb_false_iff in Ha as [Hx Ha].
    cbn [app str_split]. rewrite Ascii.eqb_sym, Hx, (IH Ha). reflexivity.
Qed.

Lemma plain_field_parts f :
  plain_field f = true -> f <> [] /\ str_contains ":" f = false.
Proof.
  unfold plain_field. intros H. apply andb_true_iff in H as [H1 H2].
  apply negb_true_iff in H1, H2. apply bool_decide_eq_false in H1. auto.
Qed.

Lemma from_text_fields_2 r p :
  str_contains ":" r = false -> str_contains ":" p = false ->
  ParsedNodeData.from_text (r ++ ":"%char :: p)
  = Ok (ParsedNodeData.mk (Some r) (Some p) None).
Proof.
  intros Hr Hp. unfold ParsedNodeData.from_text.
  assert (str_contains ":" (r ++ ":"%char :: p) = true) as ->.
  { rewrite str_contains_app. cbn [str_contains existsb].
    rewrite Ascii.eqb_refl. apply orb_true_r. }
  rewrite (str_split_app_sep ":" r) by exact Hr.
  rewrite (str_split_no_sep ":" p) by exact Hp. reflexivity.
Qed.

Lemma from_text_fields_3 r p w :
  str_contains ":" r = false -> str_contains ":" p = false ->
  str_contains ":" w = false ->
  ParsedNodeData.from_text (r ++ ":"%char :: p ++ ":"%char :: w)
  = Ok (ParsedNodeData.mk (Some r) (Some p) (Some w)).
Proof.
  intros Hr Hp Hw. unfold ParsedNodeData.from_text.
  assert (str_contains ":" (r ++ ":"%char :: p ++ ":"%char :: w) = true) as ->.
  { rewrite str_contains_app. cbn [str_contains existsb].
    rewrite Ascii.eqb_refl. apply orb_true_r. }
  rewrite (str_split_app_sep ":" r) by exact Hr.
  rewrite (str_split_app_sep ":" p) by exact Hp.
  rewrite (str_split_no_sep ":" w) by exact Hw. reflexivity.
Qed.

(** X2.  Node data made of plain fields in one of the three shapes of the
    text form are written by [to_text] and read back unchanged by
    [from_text]. *)
Theorem node_data_write_read (d : ParsedNodeData.t) :
  text_shaped d = true ->
  ParsedNodeData.from_text (ParsedNodeData.to_text d) = Ok d.
Proof.
  destruct d as [[r|] [p|] [w|]]; unfold text_shaped;
    cbn [ParsedNodeData.role ParsedNodeData.pos ParsedNodeData.word]; try discriminate.
  - intros H. apply andb_true_iff in H as [H Hw]. apply andb_true_iff in H as [Hr Hp].
    apply plain_field_parts in Hr as [Hr Hrc], Hp as [Hp Hpc], Hw as [Hw Hwc].
    assert (ParsedNodeData.to_text (ParsedNodeData.mk (Some r) (Some p) (Some w))
            = r ++ ":"%char :: p ++ ":"%char :: w) as ->.
    { destruct r; [congruence|]. destruct p; [congruence|]. destruct w; [congruence|].
      reflexivity. }
    apply from_text_fields_3; assumption.
  - intros H. apply andb_true_iff in H as [Hr Hp].
    apply plain_field_parts in Hr as [Hr Hrc], Hp as [Hp Hpc].
    assert (ParsedNodeData.to_text (ParsedNodeData.mk (Some r) (Some p) None)
            = r ++ ":"%char :: p) as ->.
    { destruct r; [congruence|]. destruct p; [congruence|]. reflexivity. }
    apply from_text_fields_2; assumption.
  - intros Hp. apply plain_field_parts in Hp as [Hp Hpc].
    assert (ParsedNodeData.to_text (ParsedNodeData.mk None (Some p) None) = p) as ->.
    { destruct p; [congruence|]. reflexivity. }
    unfold ParsedNodeData.from_text. rewrite Hpc. reflexivity.
Qed.

Lemma node_data_write_read_witness :
  ParsedNodeData.from_text
    (ParsedNodeData.to_text (ParsedNodeData.mk (Some (py "Head")) (Some (py "Na")) None))
  = Ok (ParsedNodeData.mk (Some (py "Head")) (Some (py "Na")) None).
Proof.
  apply (node_data_write_read
           (ParsedNodeData.mk (Some (py "Head")) (Some (py "Na")) None)).
  reflexivity.
Defined.

(** ** ParsedTree.normalize_text: the end of the result *)

Lemma str_rstrip_last c s : last (str_rstrip c s) <> Some c.
Proof.
  induction s as [|x s IH]; [discriminate|].
  cbn [str_rstrip]. destruct (str_rstrip c s) as [|y r].
  - destruct (Ascii.eqb x c) eqn:Hx; [discriminate|].
    apply ascii_eqb_false in Hx. cbn. congruence.
  - exact IH.
Qed.

Lemma last_contains c s : last s = Some c -> str_contains c s = true.
Proof.
  intros H. apply last_Some in H as [s' ->].
  rewrite str_contains_app. cbn [str_contains existsb].
  rewrite Ascii.eqb_refl. apply orb_true_r.
Qed.

Lemma str_split_max_last sep n s : exists piece, last (str_split_max sep n s) = Some piece.
Proof.
  revert s. induction n as [|n IH]; intros s; cbn [str_split_max]; [eauto|].
  destruct (str_cut sep s) as [[a b]|]; [|eauto].
  destruct (IH b) as [piece Hp]. exists piece.
  destruct (str_split_max sep n b); [discriminate|exact Hp].
Qed.

(** X3.  Whatever the input, the text [normalize_text] returns does not end
    with '#'. *)
Theorem normalize_text_no_trailing_hash (s : str) :
  last (ParsedTree.normalize_text s) <> Some "#"%char.
Proof.
  unfold ParsedTree.normalize_text, py_last.
  destruct (str_contains "#" s) eqn:Hc.
  - destruct (str_split_max_last (py "] ") 2 s) as [piece ->]. apply str_rstrip_last.
  - intros H. apply last_contains in H. congruence.
Qed.

(** ** ParsedTree.from_text: texts without brackets *)

(** X4.  A text in which no '(' , ')' or '|' occurs (the empty text
    included) makes no node: [from_text] without normalisation returns the
    empty tree. *)
Theorem from_text_without_delimiter (s : str) :
  Forall (fun c => is_delimiter c = false) s ->
  ParsedTree.from_text s false = Ok Tree.empty.
Proof.
  intros Hs. unfold ParsedTree.from_text, ParsedTree.scan_init.
  destruct s as [|c s]; [reflexivity|].
  pose proof (scan_label (c :: s) Tree.empty 0 [None] [] true [] Hs ltac:(discriminate))
    as Hscan.
  rewrite app_nil_r in Hscan. rewrite Hscan. reflexivity.
Qed.

Lemma from_text_without_delimiter_witness :
  ParsedTree.from_text (py "Head:Na:x") false = Ok Tree.empty.
Proof.
  apply (from_text_without_delimiter (py "Head:Na:x")).
  vm_compute. repeat constructor.
Defined.

(** ** Identifiers that are not in the tree *)

(** X11.  On an identifier that the tree does not hold, [to_text],
    [to_dict], [get_heads], [get_relations] and [get_subjects] all raise
    treelib's [NodeIDAbsentError] (some depth being at hand). *)
Theorem absent_identifier_raises (SUBJECT_ROLES NEUTRAL_ROLES : list str)
    (t : Tree) (k : Z) (fuel : nat) (semantic deep : bool) :
  nodes t !! k = None ->
  ParsedTree.to_text (S fuel) t (Some k) = Raise NodeIDAbsentError /\
  ParsedTree.to_dict (S fuel) t (Some k) = Raise NodeIDAbsentError /\
  ParsedTree.get_heads (S fuel) t (Some k) semantic deep = Raise NodeIDAbsentError /\
  ParsedTree.get_relations (S fuel) t (Some k) semantic = Raise NodeIDAbsentError /\
  ParsedTree.get_subjects SUBJECT_ROLES NEUTRAL_ROLES (S fuel) t (Some k) semantic deep
  = Raise NodeIDAbsentError.
Proof.
  intros Hk.
  assert (Hget : Tree.getitem t (Some k) = Raise NodeIDAbsentError)
    by (unfold Tree.getitem; rewrite Hk; reflexivity).
  assert (Hch : Tree.children t (Some k) = Raise NodeIDAbsentError)
    by (unfold Tree.children, Tree.is_branch; rewrite Hk; reflexivity).
  split; [|split; [|split; [|split]]].
  - cbn [ParsedTree.to_text]. rewrite Hget. reflexivity.
  - cbn [ParsedTree.to_dict]. rewrite Hget. reflexivity.
  - cbn [ParsedTree.get_heads]. unfold ParsedTree.head_nodes. rewrite Hch. reflexivity.
  - cbn [ParsedTree.get_relations]. rewrite Hch. reflexivity.
  - cbn [ParsedTree.get_subjects]. rewrite Hget. reflexivity.
Qed.

Lemma absent_identifier_raises_witness :
  ParsedTree.to_text 1 doc_tree (Some 7) = Raise NodeIDAbsentError /\
  ParsedTree.to_dict 1 doc_tree (Some 7) = Raise NodeIDAbsentError /\
  ParsedTree.get_heads 1 doc_tree (Some 7) true true = Raise NodeIDAbsentError /\
  ParsedTree.get_relations 1 doc_tree (Some 7) true = Raise NodeIDAbsentError /\
  ParsedTree.get_subjects [] [] 1 doc_tree (Some 7) true true = Raise NodeIDAbsentError.
Proof.
  apply (absent_identifier_raises [] [] doc_tree 7 O true true).
  vm_compute. reflexivity.
Defined.

(** ** The traversals at a leaf *)

Lemma children_of_leaf t k n :
  nodes t !! k = Some n -> successors n = [] -> Tree.children t (Some k) = Ok [].
Proof.
  intros Hn Hs. unfold Tree.children, Tree.is_branch. rewrite Hn, Hs. reflexivity.
Qed.

Lemma get_heads_of_leaf t k n fuel semantic deep :
  nodes t !! k = Some n -> successors n = [] ->
  ParsedTree.get_heads (S fuel) t (Some k) semantic deep = Ok [n].
Proof.
  intros Hn Hs. cbn [ParsedTree.get_heads]. unfold ParsedTree.head_nodes.
  rewrite (children_of_leaf t k n Hn Hs), bind_ok.
  cbn [Tree.getitem]. rewrite Hn, !bind_ok.
  assert (Hleaf : is_leaf n = true) by (unfold is_leaf; rewrite Hs; reflexivity).
  destruct semantic; cbn [ParsedTree.find_heads]; rewrite bind_ok, mapM_one, Hleaf;
    rewrite andb_false_r; reflexivity.
Qed.

(** X12.  At a node without children, whatever the flags, [get_heads]
    yields the node itself and nothing else, and [get_relations] yields no
    relation. *)
Theorem traversals_of_leaf (t : Tree) (k : Z) (n : ParsedNode) (fuel : nat)
    (semantic deep : bool) :
  nodes t !! k = Some n -> successors n = [] ->
  ParsedTree.get_heads (S fuel) t (Some k) semantic deep = Ok [n] /\
  ParsedTree.get_relations (S (S fuel)) t (Some k) semantic = Ok [].
Proof.
  intros Hn Hs. split; [apply get_heads_of_leaf; assumption|].
  cbn [ParsedTree.get_relations].
  rewrite (children_of_leaf t k n Hn Hs), bind_ok.
  rewrite !(get_heads_of_leaf t k n fuel _ _ Hn Hs), !bind_ok. reflexivity.
Qed.

Lemma traversals_of_leaf_witness :
  ParsedTree.get_heads 1 doc_tree (Some 2) true true = Ok [tree_of_node doc_tree 2] /\
  ParsedTree.get_relations 2 doc_tree (Some 2) true = Ok [].
Proof.
  apply (traversals_of_leaf doc_tree 2 (tree_of_node doc_tree 2) O true true).
  - vm_compute. reflexivity.
  - reflexivity.
Defined.

(** ** get_heads: the order of the policies *)

Lemma mapM_singletons {A} (l : list A) :
  mapM (fun a => Ok [a]) l ≫= (fun ls => Ok (concat ls)) = Ok l.
Proof.
  induction l as [|a l IH]; [reflexivity|].
  rewrite mapM_cons. cbv beta. rewrite bind_ok.
  destruct (mapM (fun a => Ok [a]) l) as [ls|e]; [|discriminate].
  rewrite !bind_ok in *. injection IH as IH. cbn [concat app]. rewrite IH. reflexivity.
Qed.

(** The shallow search yields the selected heads themselves. *)
Lemma get_heads_shallow fuel t k semantic :
  ParsedTree.get_heads (S fuel) t (Some k) semantic false
  = ParsedTree.head_nodes t (Some k) semantic.
Proof.
  cbn [ParsedTree.get_heads].
  destruct (ParsedTree.head_nodes t (Some k) semantic) as [hs|e]; [|reflexivity].
  rewrite bind_ok. cbn [andb]. apply mapM_singletons.
Qed.

(** X13.  The heads of a node with children, in the order of the policies.
    In semantic mode the children with a role 'DUMMY', 'DUMMY1' or 'DUMMY2'
    are the heads when there are any; failing those, the children with the
    role 'head'; failing those, the children with the role 'Head'.  In
    syntactic mode the children with the role 'Head' are the heads when
    there are any, whatever other markers stand beside them.  The heads
    keep the order of the siblings. *)
Theorem get_heads_policy_order (t : Tree) (k : Z) (cs : list ParsedNode) (fuel : nat) :
  Tree.children t (Some k) = Ok cs ->
  (List.filter ParsedTree.is_dummy cs <> [] ->
   ParsedTree.get_heads (S fuel) t (Some k) true false
   = Ok (List.filter ParsedTree.is_dummy cs)) /\
  (List.filter ParsedTree.is_dummy cs = [] ->
   List.filter (ParsedTree.has_role (py "head")) cs <> [] ->
   ParsedTree.get_heads (S fuel) t (Some k) true false
   = Ok (List.filter (ParsedTree.has_role (py "head")) cs)) /\
  (List.filter ParsedTree.is_dummy cs = [] ->
   List.filter (ParsedTree.has_role (py "head")) cs = [] ->
   List.filter (ParsedTree.has_role (py "Head")) cs <> [] ->
   ParsedTree.get_heads (S fuel) t (Some k) true false
   = Ok (List.filter (ParsedTree.has_role (py "Head")) cs)) /\
  (List.filter (ParsedTree.has_role (py "Head")) cs <> [] ->
   ParsedTree.get_heads (S fuel) t (Some k) false false
   = Ok (List.filter (ParsedTree.has_role (py "Head")) cs)).
Proof.
  intros Hcs. rewrite !get_heads_shallow. unfold ParsedTree.head_nodes.
  rewrite Hcs, bind_ok.
  assert (Hne : forall p, List.filter p cs <> [] -> cs <> []).
  { intros p Hp ->. apply Hp. reflexivity. }
  split; [|split; [|split]].
  - intros Hd. pose proof (Hne _ Hd). destruct cs as [|c cs']; [congruence|].
    rewrite bind_ok. unfold ParsedTree.find_heads. cbn [app].
    destruct (List.filter ParsedTree.is_dummy (c :: cs')); [congruence|reflexivity].
  - intros Hd Hh. pose proof (Hne _ Hh). destruct cs as [|c cs']; [congruence|].
    rewrite bind_ok. unfold ParsedTree.find_heads. cbn [app]. rewrite Hd.
    destruct (List.filter (ParsedTree.has_role (py "head")) (c :: cs'));
      [congruence|reflexivity].
  - intros Hd Hh HH. pose proof (Hne _ HH). destruct cs as [|c cs']; [congruence|].
    rewrite bind_ok. unfold ParsedTree.find_heads. cbn [app]. rewrite Hd, Hh.
    destruct (List.filter (ParsedTree.has_role (py "Head")) (c :: cs'));
      [congruence|reflexivity].
  - intros HH. pose proof (Hne _ HH). destruct cs as [|c cs']; [congruence|].
    rewrite bind_ok. unfold ParsedTree.find_heads. cbn [app].
    destruct (List.filter (ParsedTree.has_role (py "Head")) (c :: cs'));
      [congruence|reflexivity].
Qed.

(** A clause that carries both a syntactic and a semantic head marker. *)
Lemma get_heads_policy_order_witness :
  ParsedTree.get_heads 1 marked_tree (Some 0) true false
  = Ok [tree_of_node marked_tree 2] /\
  ParsedTree.get_heads 1 marked_tree (Some 0) false false
  = Ok [tree_of_node marked_tree 1].
Proof.
  split.
  - refine (proj1 (get_heads_policy_order marked_tree 0 (tree_of_children marked_tree 0)
                     O _) _).
    + vm_compute. reflexivity.
    + vm_compute. discriminate.
  - refine (proj2 (proj2 (proj2 (get_heads_policy_order marked_tree 0
                                   (tree_of_children marked_tree 0) O _))) _).
    + vm_compute. reflexivity.
    + vm_compute. discriminate.
Defined.

(** ** get_children *)

Lemma filter_sublist {A} (p : A -> bool) (l : list A) : sublist (List.filter p l) l.
Proof.
  induction l as [|a l IH]; cbn [List.filter]; [constructor|].
  destruct (p a); constructor; exact IH.
Qed.

(** X14.  [get_children] yields children of the node only, in the order of
    the siblings, and exactly those whose role is the one asked for.  When
    there is a child with the role 'Head', the syntactic shallow heads of
    the node are the children [get_children] yields for 'Head'. *)
Theorem get_children_selects (t : Tree) (k : Z) (role : str) (cs hs : list ParsedNode) :
  Tree.children t (Some k) = Ok cs ->
  ParsedTree.get_children t (Some k) role = Ok hs ->
  sublist hs cs /\
  (forall c, c ∈ hs <-> c ∈ cs /\ ParsedNodeData.role (data c) = Some role) /\
  (role = py "Head" -> hs <> [] ->
   forall fuel, ParsedTree.get_heads (S fuel) t (Some k) false false = Ok hs).
Proof.
  intros Hcs. unfold ParsedTree.get_children. rewrite Hcs, bind_ok. intros [= <-].
  split; [apply filter_sublist|]. split.
  - intros c. rewrite !list_elem_of_In, filter_In.
    unfold ParsedTree.has_role. rewrite bool_decide_eq_true. reflexivity.
  - intros -> Hne fuel. rewrite get_heads_shallow. unfold ParsedTree.head_nodes.
    rewrite Hcs, bind_ok. destruct cs as [|c cs']; [exfalso; apply Hne; reflexivity|].
    rewrite bind_ok. unfold ParsedTree.find_heads. cbn [app].
    destruct (List.filter (ParsedTree.has_role (py "Head")) (c :: cs'));
      [congruence|reflexivity].
Qed.

Lemma get_children_selects_witness :
  sublist [tree_of_node doc_tree 1] (tree_of_children doc_tree 0) /\
  forall fuel, ParsedTree.get_heads (S fuel) doc_tree (Some 0) false false
               = Ok [tree_of_node doc_tree 1].
Proof.
  destruct (get_children_selects doc_tree 0 (py "Head") (tree_of_children doc_tree 0)
              [tree_of_node doc_tree 1]) as (Hsub & _ & Hheads).
  - vm_compute. reflexivity.
  - vm_compute. reflexivity.
  - split; [exact Hsub|]. apply Hheads; [reflexivity|discriminate].
Defined.

(** ** The trees of from_text *)

(** What a successful [create_node] does to the store. *)
Lemma create_node_effect t tg nid parent d t' :
  Tree.create_node t tg nid parent d = Ok t' ->
  nodes t !! nid = None /\
  nodes t' !! nid = Some (mk_node nid tg d parent []) /\
  (forall k, k <> nid ->
     nodes t' !! k
     = (fun n => if decide (parent = Some k) then Tree.add_successor nid n else n)
       <$> nodes t !! k) /\
  match parent with
  | None => root t = None /\ root t' = Some nid
  | Some pid => is_Some (nodes t !! pid) /\ root t' = root t
  end.
Proof.
  unfold Tree.create_node.
  destruct (nodes t !! nid) eqn:Hnid; [discriminate|].
  destruct parent as [pid|].
  - destruct (nodes t !! pid) as [pn|] eqn:Hp; [|discriminate].
    intros [= <-]. cbn [nodes root]. assert (nid <> pid) by congruence.
    split; [reflexivity|]. split; [|split; [|eauto]].
    + rewrite lookup_alter_ne by congruence. apply lookup_insert_eq.
    + intros k Hk. destruct (decide (k = pid)) as [->|Hne].
      * rewrite lookup_alter_eq, lookup_insert_ne by congruence.
        rewrite Hp. cbn. rewrite decide_True by reflexivity. reflexivity.
      * rewrite lookup_alter_ne, lookup_insert_ne by congruence.
        destruct (nodes t !! k); [|reflexivity]. cbn.
        rewrite decide_False by congruence. reflexivity.
  - destruct (root t) eqn:Hroot; [discriminate|].
    intros [= <-]. cbn [nodes root]. split; [reflexivity|]. split; [|split; [|auto]].
    + apply lookup_insert_eq.
    + intros k Hk. rewrite lookup_insert_ne by congruence.
      destruct (nodes t !! k); reflexivity.
Qed.

Lemma from_text_has_pos l d :
  ParsedNodeData.from_text l = Ok d -> is_Some (ParsedNodeData.pos d).
Proof.
  unfold ParsedNodeData.from_text. destruct (str_contains ":" l) eqn:Hc.
  - destruct (str_split_sep _ _ Hc) as (a & b & rest & ->).
    destruct rest as [|w [|x rest]]; cbn; try discriminate; intros [= <-]; cbn; eauto.
  - intros [= <-]. cbn. eauto.
Qed.

Lemma scanned_node_bound bound bound' i n :
  bound <= bound' -> scanned_node bound i n -> scanned_node bound' i n.
Proof.
  intros Hb (H1 & H2 & H3 & H4 & H5 & H6 & H7).
  repeat (split; [assumption|]). split; [|assumption].
  eapply Forall_impl; [exact H6|]. cbv beta. intros c Hc. lia.
Qed.

(** A node made by [flush]: the invariant goes on to the next identifier. *)
Lemma scanned_create t bound queue parent tg d t' :
  scanned t bound (parent :: queue) ->
  ParsedNodeData.from_text tg = Ok d ->
  Tree.create_node t tg bound parent d = Ok t' ->
  scanned t' (bound + 1) (Some bound :: parent :: queue).
Proof.
  intros (Hb & Hdom & Hnodes & Hlink & Hroot & Hq) Hd Hc.
  destruct (create_node_effect _ _ _ _ _ _ Hc) as (Hfresh & Hnew & Hold & Hpar).
  assert (Hparent : forall pid, parent = Some pid -> 0 <= pid < bound).
  { apply Forall_cons in Hq as [Hp _]. exact Hp. }
  assert (Hparent0 : parent = None -> bound = 0).
  { intros ->. destruct Hpar as [Hr _]. rewrite Hr in Hroot.
    destruct (decide (bound = 0)); [assumption|discriminate]. }
  assert (Hnewnode : scanned_node (bound + 1) bound (mk_node bound tg d parent [])).
  { unfold scanned_node. cbn [identifier tag data predecessor successors].
    split; [reflexivity|]. split; [exact Hd|]. split.
    { unfold has_pos. cbn. destruct (from_text_has_pos _ _ Hd) as [p ->]. reflexivity. }
    split.
    { split; [exact Hparent0|]. intros ->. destruct parent as [pid|]; [|reflexivity].
      specialize (Hparent pid eq_refl). lia. }
    split; [exact Hparent|]. split; constructor. }
  split; [lia|]. split; [|split; [|split; [|split]]].
  - intros i. destruct (decide (i = bound)) as [->|Hne].
    + rewrite Hnew. split; [lia|eauto].
    + rewrite Hold by exact Hne. rewrite fmap_is_Some, Hdom. lia.
  - intros i n Hn. destruct (decide (i = bound)) as [->|Hne].
    + rewrite Hnew in Hn. injection Hn as <-. exact Hnewnode.
    + rewrite Hold in Hn by exact Hne.
      destruct (nodes t !! i) as [n0|] eqn:Hn0; [|discriminate].
      cbn in Hn. injection Hn as <-.
      pose proof (Hnodes i n0 Hn0) as Hin.
      destruct (decide (parent = Some i)) as [->|Hnp];
        [|apply (scanned_node_bound bound); [lia|exact Hin]].
      destruct Hin as (H1 & H2 & H3 & H4 & H5 & H6 & H7).
      specialize (Hparent i eq_refl).
      unfold scanned_node, Tree.add_successor.
      cbn [identifier tag data predecessor successors].
      split; [exact H1|]. split; [exact H2|]. split; [exact H3|].
      split; [exact H4|]. split; [exact H5|]. split.
      * apply Forall_app. split; [|repeat constructor; lia].
        eapply Forall_impl; [exact H6|]. cbv beta. intros c Hc'. lia.
      * apply StronglySorted_app_2; [|exact H7|repeat constructor].
        intros x1 x2 Hx1 Hx2. apply list_elem_of_singleton in Hx2 as ->.
        rewrite Forall_forall in H6. specialize (H6 x1 Hx1). lia.
  - (* the links *)
    assert (Hsucc : forall p np, nodes t' !! p = Some np ->
              forall c, c ∈ successors np <->
                (p <> bound /\ exists np0, nodes t !! p = Some np0
                               /\ (c ∈ successors np0 \/ (parent = Some p /\ c = bound)))).
    { intros p np Hnp c. destruct (decide (p = bound)) as [->|Hne].
      - rewrite Hnew in Hnp. injection Hnp as <-. cbn. rewrite elem_of_nil. tauto.
      - rewrite Hold in Hnp by exact Hne.
        destruct (nodes t !! p) as [np0|] eqn:Hnp0; [|discriminate].
        cbn in Hnp. injection Hnp as <-.
        destruct (decide (parent = Some p)) as [Hp|Hp].
        + unfold Tree.add_successor. cbn [successors].
          rewrite elem_of_app, list_elem_of_singleton. split.
          * intros H. split; [exact Hne|]. exists np0. tauto.
          * intros [_ (np1 & [= <-] & H)]. tauto.
        + split.
          * intros H. split; [exact Hne|]. exists np0. tauto.
          * intros [_ (np1 & [= <-] & [H|[H _]])]; [exact H|contradiction]. }
    intros p c. split.
    + intros (np & Hnp & Hc'). apply (Hsucc p np Hnp) in Hc' as (Hne & np0 & Hnp0 & Hcase).
      destruct Hcase as [Hc'|[Hp ->]].
      * destruct (proj1 (Hlink p c)) as (nc & Hnc & Hpred); [eauto|].
        assert (c <> bound) by (intros ->; congruence).
        rewrite Hold by assumption. rewrite Hnc. cbn.
        destruct (decide (parent = Some c)); eexists; (split; [reflexivity|exact Hpred]).
      * rewrite Hnew. eexists. split; [reflexivity|exact Hp].
    + intros (nc & Hnc & Hpred). destruct (decide (c = bound)) as [->|Hne].
      * rewrite Hnew in Hnc. injection Hnc as <-. cbn [predecessor] in Hpred.
        specialize (Hparent p Hpred).
        assert (Hp : is_Some (nodes t' !! p)).
        { rewrite Hold by lia. rewrite fmap_is_Some, Hdom. exact Hparent. }
        destruct Hp as [np Hnp]. exists np. split; [exact Hnp|].
        apply (Hsucc p np Hnp). split; [lia|].
        rewrite Hold in Hnp by lia.
        destruct (nodes t !! p) as [np0|]; [|discriminate]. exists np0. auto.
      * rewrite Hold in Hnc by exact Hne.
        destruct (nodes t !! c) as [nc0|] eqn:Hnc0; [|discriminate].
        cbn in Hnc. injection Hnc as <-.
        assert (Hpred0 : predecessor nc0 = Some p).
        { destruct (decide (parent = Some c)); exact Hpred. }
        destruct (proj2 (Hlink p c)) as (np0 & Hnp0 & Hc'); [eauto|].
        assert (Hpb : p <> bound) by (intros ->; congruence).
        assert (Hp : is_Some (nodes t' !! p)).
        { rewrite Hold by exact Hpb. rewrite Hnp0. cbn. eauto. }
        destruct Hp as [np Hnp]. exists np. split; [exact Hnp|].
        apply (Hsucc p np Hnp). split; [exact Hpb|]. exists np0. auto.
  - destruct (decide (bound + 1 = 0)) as [E|_]; [lia|].
    destruct parent as [pid|].
    + destruct Hpar as [_ ->]. rewrite Hroot.
      specialize (Hparent pid eq_refl). rewrite decide_False by lia. reflexivity.
    + destruct Hpar as [_ ->]. rewrite (Hparent0 eq_refl). reflexivity.
  - constructor; [intros pid [= <-]; lia|].
    eapply Forall_impl; [exact Hq|]. cbv beta. intros p Hp pid E.
    specialize (Hp pid E). lia.
Qed.

Lemma scanned_queue t bound queue queue' :
  queue' ⊆ queue -> scanned t bound queue -> scanned t bound queue'.
Proof.
  intros Hsub (H1 & H2 & H3 & H4 & H5 & H6).
  split; [exact H1|]. split; [exact H2|]. split; [exact H3|].
  split; [exact H4|]. split; [exact H5|].
  apply Forall_forall. intros p Hp. rewrite Forall_forall in H6. apply H6, Hsub, Hp.
Qed.

Lemma scanned_init : scanned Tree.empty 0 [None].
Proof.
  split; [lia|]. split; [|split; [|split; [|split]]].
  - intros i. cbn. rewrite lookup_empty. split; [intros [? ?]; discriminate|lia].
  - intros i n. cbn. rewrite lookup_empty. discriminate.
  - intros p c. cbn. rewrite !lookup_empty.
    split; intros (? & ? & _); discriminate.
  - reflexivity.
  - constructor; [intros pid; discriminate|constructor].
Qed.

Lemma flush_scanned st t :
  scanned (ParsedTree.s_tree st) (ParsedTree.s_node_id st) (ParsedTree.s_node_queue st) ->
  ParsedTree.flush st = Ok t ->
  scanned t (ParsedTree.s_node_id st + 1)
    (Some (ParsedTree.s_node_id st) :: ParsedTree.s_node_queue st).
Proof.
  unfold ParsedTree.flush. intros Hinv.
  destruct (ParsedNodeData.from_text (ParsedTree.s_text st)) as [d|e] eqn:Hd; [|discriminate].
  rewrite bind_ok. destruct (ParsedTree.s_node_queue st) as [|parent q]; [discriminate|].
  intros Hc. eapply scanned_create; eauto.
Qed.

Lemma flush_pending_scanned st st1 :
  scanned (ParsedTree.s_tree st) (ParsedTree.s_node_id st) (ParsedTree.s_node_queue st) ->
  ParsedTree.flush_pending st = Ok st1 ->
  scanned (ParsedTree.s_tree st1) (ParsedTree.s_node_id st1) (ParsedTree.s_node_queue st1)
  /\ ParsedTree.s_node_queue st1 = ParsedTree.s_node_queue st.
Proof.
  unfold ParsedTree.flush_pending. intros Hinv.
  destruct (ParsedTree.s_ending st); [intros [= <-]; auto|].
  destruct (ParsedTree.flush st) as [t|e] eqn:Hf; [|discriminate].
  intros [= <-]. cbn. split; [|reflexivity].
  eapply scanned_queue; [|eapply flush_scanned; eauto]. set_solver.
Qed.

Lemma step_scanned char st st' :
  scanned (ParsedTree.s_tree st) (ParsedTree.s_node_id st) (ParsedTree.s_node_queue st) ->
  ParsedTree.step char st = Ok st' ->
  scanned (ParsedTree.s_tree st') (ParsedTree.s_node_id st') (ParsedTree.s_node_queue st').
Proof.
  unfold ParsedTree.step. intros Hinv.
  destruct (Ascii.eqb char "(").
  { destruct (ParsedTree.flush st) as [t|e] eqn:Hf; [|discriminate].
    intros [= <-]. cbn. eapply flush_scanned; eauto. }
  destruct (Ascii.eqb char ")").
  { destruct (ParsedTree.flush_pending st) as [st1|e] eqn:Hr; [|discriminate].
    rewrite bind_ok. destruct (flush_pending_scanned _ _ Hinv Hr) as [Hinv1 Hq].
    destruct (ParsedTree.s_node_queue st1) as [|p q] eqn:Hq1; [discriminate|].
    intros [= <-]. cbn. eapply scanned_queue; [|exact Hinv1]. set_solver. }
  destruct (Ascii.eqb char "|").
  { destruct (ParsedTree.flush_pending st) as [st1|e] eqn:Hr; [|discriminate].
    intros [= <-]. cbn. apply (flush_pending_scanned _ _ Hinv Hr). }
  intros [= <-]. exact Hinv.
Qed.

Lemma from_text_scanned text normalize t :
  ParsedTree.from_text text normalize = Ok t ->
  exists bound queue, scanned t bound queue.
Proof.
  unfold ParsedTree.from_text.
  destruct (foldM ParsedTree.step _ ParsedTree.scan_init) as [st|e] eqn:Hf; [|discriminate].
  intros [= <-]. exists (ParsedTree.s_node_id st), (ParsedTree.s_node_queue st).
  apply (foldM_invariant ParsedTree.step
           (fun s => scanned (ParsedTree.s_tree s) (ParsedTree.s_node_id s)
                       (ParsedTree.s_node_queue s))
           step_scanned _ ParsedTree.scan_init st scanned_init Hf).
Qed.

(** X5.  The identifiers of a tree returned by [from_text] are the integers
    from 0 up to the number of its nodes, and its root, when it has a node
    at all, is the node 0. *)
Theorem from_text_identifiers (text : str) (normalize : bool) (t : Tree) :
  ParsedTree.from_text text normalize = Ok t ->
  exists count : Z,
    0 <= count /\
    (forall i, is_Some (nodes t !! i) <-> 0 <= i < count) /\
    (count = 0 -> root t = None) /\
    (0 < count -> root t = Some 0).
Proof.
  intros H. destruct (from_text_scanned _ _ _ H) as (bound & q & Hinv).
  destruct Hinv as (Hb & Hdom & _ & _ & Hroot & _).
  exists bound. split; [exact Hb|]. split; [exact Hdom|]. split.
  - intros ->. exact Hroot.
  - intros Hpos. rewrite Hroot. rewrite decide_False by lia. reflexivity.
Qed.

Lemma from_text_identifiers_witness :
  exists count : Z,
    0 <= count /\
    (forall i, is_Some (nodes doc_tree !! i) <-> 0 <= i < count) /\
    (count = 0 -> root doc_tree = None) /\
    (0 < count -> root doc_tree = Some 0).
Proof.
  apply (from_text_identifiers doc_text true doc_tree). vm_compute. reflexivity.
Defined.

(** X6.  Every node of a tree returned by [from_text] is filed under its
    own identifier, its data are what [ParsedNodeData.from_text] reads from
    its tag, and its pos is set. *)
Theorem from_text_nodes (text : str) (normalize : bool) (t : Tree) (i : Z) (n : ParsedNode) :
  ParsedTree.from_text text normalize = Ok t ->
  nodes t !! i = Some n ->
  identifier n = i /\
  ParsedNodeData.from_text (tag n) = Ok (data n) /\
  is_Some (ParsedNodeData.pos (data n)).
Proof.
  intros H Hn. destruct (from_text_scanned _ _ _ H) as (bound & q & Hinv).
  destruct Hinv as (_ & _ & Hnodes & _).
  destruct (Hnodes i n Hn) as (H1 & H2 & H3 & _).
  split; [exact H1|]. split; [exact H2|].
  unfold has_pos in H3. destruct (ParsedNodeData.pos _); [eauto|discriminate].
Qed.

Lemma from_text_nodes_witness :
  identifier (tree_of_node doc_tree 1) = 1 /\
  ParsedNodeData.from_text (tag (tree_of_node doc_tree 1))
  = Ok (data (tree_of_node doc_tree 1)) /\
  is_Some (ParsedNodeData.pos (data (tree_of_node doc_tree 1))).
Proof.
  apply (from_text_nodes doc_text true doc_tree 1 (tree_of_node doc_tree 1)).
  - vm_compute. reflexivity.
  - vm_compute. reflexivity.
Defined.

(** X7.  In a tree returned by [from_text] the node 0 alone has no parent;
    every other node has a parent with a smaller identifier, which lists it
    among its children; the children of a node have larger identifiers than
    the node, name it as their parent, and stand in increasing order of
    their identifiers. *)
Theorem from_text_order (text : str) (normalize : bool) (t : Tree) (i : Z) (n : ParsedNode) :
  ParsedTree.from_text text normalize = Ok t ->
  nodes t !! i = Some n ->
  (predecessor n = None <-> i = 0) /\
  (forall p, predecessor n = Some p ->
     0 <= p < i /\ exists np, nodes t !! p = Some np /\ i ∈ successors np) /\
  (forall c, c ∈ successors n ->
     i < c /\ exists nc, nodes t !! c = Some nc /\ predecessor nc = Some i) /\
  StronglySorted Z.lt (successors n).
Proof.
  intros H Hn. destruct (from_text_scanned _ _ _ H) as (bound & q & Hinv).
  destruct Hinv as (_ & _ & Hnodes & Hlink & _).
  destruct (Hnodes i n Hn) as (_ & _ & _ & H4 & H5 & H6 & H7).
  split; [exact H4|]. split; [|split; [|exact H7]].
  - intros p Hp. split; [apply H5, Hp|]. apply (Hlink p i). eauto.
  - intros c Hc. split.
    + rewrite Forall_forall in H6. specialize (H6 c Hc). lia.
    + apply (Hlink i c). eauto.
Qed.

Lemma from_text_order_witness :
  (predecessor (tree_of_node doc_tree 0) = None <-> 0 = 0) /\
  (forall p, predecessor (tree_of_node doc_tree 0) = Some p ->
     0 <= p < 0 /\ exists np, nodes doc_tree !! p = Some np /\ 0 ∈ successors np) /\
  (forall c, c ∈ successors (tree_of_node doc_tree 0) ->
     0 < c /\ exists nc, nodes doc_tree !! c = Some nc /\ predecessor nc = Some 0) /\
  StronglySorted Z.lt (successors (tree_of_node doc_tree 0)).
Proof.
  apply (from_text_order doc_text true doc_tree 0 (tree_of_node doc_tree 0)).
  - vm_compute. reflexivity.
  - vm_compute. reflexivity.
Defined.

(** X8.  On a tree returned by [from_text], at every node of it and for
    every choice of the flags, [get_heads], [get_relations] and
    [get_subjects] return without an exception once the depth at hand
    covers the levels of the tree. *)
Theorem from_text_traversals_complete (SUBJECT_ROLES NEUTRAL_ROLES : list str)
    (text : str) (normalize : bool) (t : Tree) (k : Z) :
  ParsedTree.from_text text normalize = Ok t ->
  is_Some (nodes t !! k) ->
  exists depth, forall fuel semantic deep, (depth <= fuel)%nat ->
    is_ok (ParsedTree.get_heads fuel t (Some k) semantic deep) /\
    is_ok (ParsedTree.get_relations fuel t (Some k) semantic) /\
    is_ok (ParsedTree.get_subjects SUBJECT_ROLES NEUTRAL_ROLES fuel t (Some k)
             semantic deep).
Proof.
  intros H Hk.
  destruct (built_closed t (from_text_built _ _ _ H)) as [h Hh].
  destruct (from_text_scanned _ _ _ H) as (bound & q & Hinv).
  assert (Hpos : map_Forall (fun _ n => has_pos n = true) (nodes t)).
  { intros i n Hn. destruct Hinv as (_ & _ & Hnodes & _).
    destruct (Hnodes i n Hn) as (_ & _ & H3 & _). exact H3. }
  exists (S h). intros fuel semantic deep Hfuel. specialize (Hh k Hk).
  split; [|split].
  - destruct (get_heads_ok h t k fuel semantic deep Hh ltac:(lia)) as (l & -> & _).
    exact I.
  - apply (get_relations_ok h); [exact Hh|lia].
  - apply (get_subjects_ok _ _ h); [exact Hh|lia|exact Hpos].
Qed.

Lemma from_text_traversals_complete_witness :
  exists depth, forall fuel semantic deep, (depth <= fuel)%nat ->
    is_ok (ParsedTree.get_heads fuel clause_tree (Some 0) semantic deep) /\
    is_ok (ParsedTree.get_relations fuel clause_tree (Some 0) semantic) /\
    is_ok (ParsedTree.get_subjects [py "agent"] [py "theme"] fuel clause_tree (Some 0)
             semantic deep).
Proof.
  apply (from_text_traversals_complete [py "agent"] [py "theme"]
           (py "S(theme:Na:a|Head:VC:b|theme:Nb:c)") true clause_tree 0).
  - vm_compute. reflexivity.
  - vm_compute. eexists. reflexivity.
Defined.

(** ** from_dict: identifiers that occur twice *)

(** The loop of [from_dict] ends on [DuplicatedNodeIdError] as soon as the
    queue holds an identifier twice, or one the tree holds already. *)
Lemma from_dict_loop_duplicate (w : nat) :
  forall queue t,
    (ParsedTree.queue_weight queue <= w)%nat ->
    Forall (fun e => exists pid, snd e = Some pid /\ is_Some (nodes t !! pid)) queue ->
    ~ (NoDup (map dict_id (queue_dicts queue))
       /\ forall d, In d (queue_dicts queue) -> nodes t !! dict_id d = None) ->
    ParsedTree.from_dict_loop queue t = Raise DuplicatedNodeIdError.
Proof.
  induction w as [|w IH]; intros queue t Hw Hparents Hbad.
  - destruct queue as [|[d p] queue].
    + exfalso. apply Hbad. split; [constructor|intros d []].
    + exfalso. unfold ParsedTree.queue_weight in Hw. cbn in Hw. destruct d. cbn in Hw. lia.
  - destruct queue as [|[d p] queue].
    + exfalso. apply Hbad. split; [constructor|intros d []].
    + inversion Hparents as [|? ? (pid & Hp & [pn Hpn]) Hparents']; subst.
      cbn [snd] in Hp. subst p.
      rewrite ParsedTree.from_dict_loop_equation_2. cbv zeta.
      set (nid := dict_id d).
      set (queue' := queue ++ map (fun child => (child, Some nid)) (dict_children d)).
      destruct (nodes t !! nid) as [old|] eqn:Hnid.
      { unfold Tree.create_node. rewrite Hnid. reflexivity. }
      destruct (create_child_lookup t
                  (ParsedNodeData.to_text (ParsedNodeData.from_dict (dict_data d)))
                  nid pid (ParsedNodeData.from_dict (dict_data d)) pn Hnid Hpn)
        as (t1 & Hcreate & Hroot1 & Hnew & Hpar & Hother).
      rewrite Hcreate.
      assert (Hdicts : queue_dicts ((d, Some pid) :: queue)
                       = d :: flat_map subdicts (dict_children d) ++ queue_dicts queue).
      { unfold queue_dicts at 1. cbn [flat_map fst]. rewrite subdicts_unfold. reflexivity. }
      assert (Hdicts' : queue_dicts queue'
                        = queue_dicts queue ++ flat_map subdicts (dict_children d)).
      { unfold queue'. rewrite queue_dicts_app, queue_dicts_children. reflexivity. }
      assert (Hperm : Permutation (map dict_id (queue_dicts ((d, Some pid) :: queue)))
                        (nid :: map dict_id (queue_dicts queue'))).
      { rewrite Hdicts, Hdicts'. cbn [map]. apply perm_skip.
        apply Permutation_map, Permutation_app_comm. }
      assert (Hgrow : forall i, is_Some (nodes t !! i) -> is_Some (nodes t1 !! i)).
      { intros i Hi. destruct (decide (i = pid)) as [->|Hne]; [rewrite Hpar; eauto|].
        rewrite Hother; [exact Hi| |exact Hne]. intros ->. rewrite Hnid in Hi.
        destruct Hi; discriminate. }
      apply IH.
      * pose proof (ParsedTree.queue_weight_step d (Some pid) queue nid) as Hstep.
        fold queue' in Hstep. lia.
      * unfold queue'. apply Forall_app. split.
        -- eapply Forall_impl; [exact Hparents'|]. intros e (pid' & He & Hs). eauto.
        -- apply Forall_forall. intros e He. apply list_elem_of_In, in_map_iff in He
             as (c & <- & _). exists nid. split; [reflexivity|]. rewrite Hnew. eauto.
      * intros [Hnodup' Hfresh']. apply Hbad. split.
        -- rewrite Hperm. apply NoDup_cons. split; [|exact Hnodup'].
           intros Hin. apply list_elem_of_In, in_map_iff in Hin as (x & Hx & Hin).
           specialize (Hfresh' x Hin). rewrite Hx, Hnew in Hfresh'. discriminate.
        -- intros x Hx. rewrite Hdicts in Hx. destruct Hx as [<-|Hx]; [exact Hnid|].
           assert (Hx' : In x (queue_dicts queue')).
           { rewrite Hdicts'. apply in_app_iff. apply in_app_iff in Hx. tauto. }
           specialize (Hfresh' x Hx').
           destruct (nodes t !! dict_id x) eqn:E; [|reflexivity].
           destruct (Hgrow (dict_id x)) as [? Hs]; [eauto|]. congruence.
Qed.

(** X9.  A dict in which an identifier occurs twice is refused: [from_dict]
    raises treelib's [DuplicatedNodeIdError]. *)
Theorem from_dict_duplicate_ids (d : tree_dict) :
  ~ NoDup (dict_ids d) ->
  ParsedTree.from_dict d = Raise DuplicatedNodeIdError.
Proof.
  intros Hdup. unfold ParsedTree.from_dict.
  rewrite ParsedTree.from_dict_loop_equation_2. cbv zeta.
  set (nid := dict_id d).
  set (node0 := mk_node nid (ParsedNodeData.to_text (ParsedNodeData.from_dict (dict_data d)))
                  (ParsedNodeData.from_dict (dict_data d)) None []).
  set (t1 := mk_tree (<[nid := node0]> ∅) (Some nid)).
  assert (Hcreate : Tree.create_node Tree.empty
                      (ParsedNodeData.to_text (ParsedNodeData.from_dict (dict_data d)))
                      nid None (ParsedNodeData.from_dict (dict_data d)) = Ok t1).
  { unfold Tree.create_node. cbn [Tree.empty nodes root]. rewrite lookup_empty. reflexivity. }
  rewrite Hcreate. cbn [app].
  apply (from_dict_loop_duplicate _ _ t1 (le_n _)).
  - apply Forall_forall. intros e He. apply list_elem_of_In, in_map_iff in He as (c & <- & _).
    exists nid. split; [reflexivity|]. cbn [t1 nodes]. rewrite lookup_insert_eq. eauto.
  - intros [Hnodup Hfresh]. apply Hdup.
    unfold dict_ids. rewrite subdicts_unfold. cbn [map]. fold nid.
    rewrite queue_dicts_children in Hnodup, Hfresh.
    apply NoDup_cons. split; [|exact Hnodup].
    intros Hin. apply list_elem_of_In, in_map_iff in Hin as (x & Hx & Hin).
    specialize (Hfresh x Hin). rewrite Hx in Hfresh. cbn [t1 nodes] in Hfresh.
    rewrite lookup_insert_eq in Hfresh. discriminate.
Qed.

Lemma from_dict_duplicate_ids_witness :
  ParsedTree.from_dict
    (TreeDict 0 (ParsedNodeData.mk_dict None (Some (py "S")) None)
       [TreeDict 1 (ParsedNodeData.mk_dict None (Some (py "Na")) None) [];
        TreeDict 1 (ParsedNodeData.mk_dict None (Some (py "Nb")) None) []])
  = Raise DuplicatedNodeIdError.
Proof.
  apply from_dict_duplicate_ids.
  apply (bool_decide_eq_false_1 _). vm_compute. reflexivity.
Defined.

(** ** from_dict: the nodes of the tree *)

(** A node filed under its identifier whose tag is the text of its data. *)
Lemma from_dict_loop_nodes (w : nat) :
  forall queue t t',
    (ParsedTree.queue_weight queue <= w)%nat ->
    Forall (fun e => exists pid : Z, snd e = Some pid) queue ->
    ParsedTree.from_dict_loop queue t = Ok t' ->
    root t' = root t /\
    (forall i, is_Some (nodes t' !! i)
               <-> is_Some (nodes t !! i) \/ i ∈ map dict_id (queue_dicts queue)) /\
    ((forall i n, nodes t !! i = Some n ->
        identifier n = i /\ tag n = ParsedNodeData.to_text (data n)) ->
     forall i n, nodes t' !! i = Some n ->
        identifier n = i /\ tag n = ParsedNodeData.to_text (data n)).
Proof.
  induction w as [|w IH]; intros queue t t' Hw Hparents Hloop.
  - destruct queue as [|[d p] queue].
    + rewrite ParsedTree.from_dict_loop_equation_1 in Hloop. injection Hloop as <-.
      split; [reflexivity|]. split; [|auto]. intros i. cbn. rewrite elem_of_nil. tauto.
    + exfalso. unfold ParsedTree.queue_weight in Hw. cbn in Hw. destruct d. cbn in Hw. lia.
  - destruct queue as [|[d p] queue].
    + rewrite ParsedTree.from_dict_loop_equation_1 in Hloop. injection Hloop as <-.
      split; [reflexivity|]. split; [|auto]. intros i. cbn. rewrite elem_of_nil. tauto.
    + inversion Hparents as [|? ? (pid & Hp) Hparents']; subst.
      cbn [snd] in Hp. subst p.
      rewrite ParsedTree.from_dict_loop_equation_2 in Hloop. cbv zeta in Hloop.
      set (nid := dict_id d) in *.
      set (queue' := queue ++ map (fun child => (child, Some nid)) (dict_children d)) in *.
      destruct (Tree.create_node t _ nid (Some pid) _) as [t1|e] eqn:Hcreate; [|discriminate].
      destruct (create_node_effect _ _ _ _ _ _ Hcreate) as (Hfresh & Hnew & Hold & _ & Hroot1).
      destruct (IH queue' t1 t') as (Hroot & Hdom & Hgood); [| |exact Hloop|].
      { pose proof (ParsedTree.queue_weight_step d (Some pid) queue nid) as Hstep.
        fold queue' in Hstep. lia. }
      { unfold queue'. apply Forall_app. split; [exact Hparents'|].
        apply Forall_forall. intros e He. apply list_elem_of_In, in_map_iff in He
          as (c & <- & _). eauto. }
      assert (Hperm : Permutation (map dict_id (queue_dicts ((d, Some pid) :: queue)))
                        (nid :: map dict_id (queue_dicts queue'))).
      { unfold queue_dicts at 1. cbn [flat_map fst]. rewrite subdicts_unfold.
        unfold queue'. rewrite queue_dicts_app, queue_dicts_children.
        cbn [app map]. apply perm_skip. fold (queue_dicts queue).
        apply Permutation_map, Permutation_app_comm. }
      split; [congruence|]. split.
      * intros i. rewrite Hdom, Hperm, elem_of_cons.
        destruct (decide (i = nid)) as [->|Hne].
        -- rewrite Hnew. split; [auto|]. intros _. left. eauto.
        -- rewrite Hold by exact Hne. rewrite fmap_is_Some. tauto.
      * intros Hall. apply Hgood. intros i n Hn.
        destruct (decide (i = nid)) as [->|Hne].
        -- rewrite Hnew in Hn. injection Hn as <-. split; reflexivity.
        -- rewrite Hold in Hn by exact Hne.
           destruct (nodes t !! i) as [n0|] eqn:Hn0; [|discriminate].
           cbn in Hn. injection Hn as <-.
           destruct (Hall i n0 Hn0) as [H1 H2].
           destruct (decide (Some pid = Some i)); auto.
Qed.

(** X10.  A tree returned by [from_dict] holds exactly the identifiers of
    the dict, its root is the identifier at the top of the dict, and every
    node is filed under its own identifier with the text form of its data
    as its tag. *)
Theorem from_dict_nodes (d : tree_dict) (t : Tree) :
  ParsedTree.from_dict d = Ok t ->
  root t = Some (dict_id d) /\
  (forall i, is_Some (nodes t !! i) <-> i ∈ dict_ids d) /\
  (forall i n, nodes t !! i = Some n ->
     identifier n = i /\ tag n = ParsedNodeData.to_text (data n)).
Proof.
  unfold ParsedTree.from_dict.
  rewrite ParsedTree.from_dict_loop_equation_2. cbv zeta.
  set (nid := dict_id d).
  set (node0 := mk_node nid (ParsedNodeData.to_text (ParsedNodeData.from_dict (dict_data d)))
                  (ParsedNodeData.from_dict (dict_data d)) None []).
  set (t1 := mk_tree (<[nid := node0]> ∅) (Some nid)).
  assert (Hcreate : Tree.create_node Tree.empty
                      (ParsedNodeData.to_text (ParsedNodeData.from_dict (dict_data d)))
                      nid None (ParsedNodeData.from_dict (dict_data d)) = Ok t1).
  { unfold Tree.create_node. cbn [Tree.empty nodes root]. rewrite lookup_empty. reflexivity. }
  rewrite Hcreate. cbn [app]. intros Hloop.
  destruct (from_dict_loop_nodes _
              (map (fun child => (child, Some nid)) (dict_children d)) t1 t (le_n _))
    as (Hroot & Hdom & Hgood); [|exact Hloop|].
  { apply Forall_forall. intros e He. apply list_elem_of_In, in_map_iff in He
      as (c & <- & _). eauto. }
  split; [exact Hroot|]. split.
  - intros i. rewrite Hdom, queue_dicts_children.
    unfold dict_ids. rewrite subdicts_unfold. cbn [map]. fold nid.
    rewrite elem_of_cons. cbn [t1 nodes].
    destruct (decide (i = nid)) as [->|Hne].
    + rewrite lookup_insert_eq. split; [auto|]. intros _. left. eauto.
    + rewrite lookup_insert_ne, lookup_empty by congruence.
      split; [intros [[? ?]|?]; [discriminate|auto]|intros [?|?]; [contradiction|auto]].
  - apply Hgood. intros i n. cbn [t1 nodes].
    destruct (decide (i = nid)) as [->|Hne].
    + rewrite lookup_insert_eq. intros [= <-]. split; reflexivity.
    + rewrite lookup_insert_ne, lookup_empty by congruence. discriminate.
Qed.

Lemma from_dict_nodes_witness :
  root (tree_of (ParsedTree.from_dict doc_dict)) = Some (dict_id doc_dict) /\
  (forall i, is_Some (nodes (tree_of (ParsedTree.from_dict doc_dict)) !! i)
             <-> i ∈ dict_ids doc_dict) /\
  (forall i n, nodes (tree_of (ParsedTree.from_dict doc_dict)) !! i = Some n ->
     identifier n = i /\ tag n = ParsedNodeData.to_text (data n)).
Proof.
  apply (from_dict_nodes doc_dict). vm_compute. reflexivity.
Defined.

(** ** From the text form to the dict form *)

Lemma numbered_unfold n tt :
  numbered n tt
  = TreeDict n (ParsedNodeData.to_dict (label_data (tt_label tt)))
      (numbered_forest (n + 1) (tt_children tt)).
Proof.
  destruct tt as [l cs]. reflexivity.
Qed.

(** The tree [from_text] makes of a well-formed text files it from 0 on. *)
Lemma from_text_stored tt :
  valid tt = true -> tt_children tt <> [] ->
  exists t, ParsedTree.from_text (render tt) false = Ok t /\ root t = Some 0 /\ stored t 0 tt.
Proof.
  destruct tt as [l cs]. cbn [tt_children]. intros Hvalid Hne.
  pose proof Hvalid as Hv. cbn [valid] in Hv. apply andb_true_iff in Hv as [Hl Hcs].
  destruct cs as [|c cs]; [congruence|].
  pose proof (valid_label_nonempty l Hl) as Hlne.
  destruct (label_round_trip l Hl) as (d & Hd & _).
  destruct (valid_label_parts l Hl) as (_ & _ & Hchars).
  set (node0 := mk_node 0 l d None []).
  set (t1 := mk_tree (<[0 := node0]> ∅) (Some 0)).
  assert (Hflush : ParsedTree.flush (ParsedTree.mk_scan Tree.empty 0 [None] l false) = Ok t1).
  { unfold ParsedTree.flush. cbn [ParsedTree.s_text]. rewrite Hd, bind_ok. reflexivity. }
  destruct (scan_forest (c :: cs)) with (t := t1) (n := 1) (p := 0) (q := [@None Z])
    (e := false) (rest := @nil ascii) (pn := node0)
    as (t2 & Hscan & Hroot2 & Hfresh2 & Hsame2 & Hpar2 & Hforest).
  { apply List.Forall_forall. intros x _. apply scan_subtree. }
  { exact Hcs. }
  { discriminate. }
  { intros i Hi. cbn [t1 nodes]. rewrite lookup_insert_ne by lia. apply lookup_empty. }
  { lia. }
  { cbn [t1 nodes]. apply lookup_insert_eq. }
  exists t2. split; [|split; [exact Hroot2|]].
  - unfold ParsedTree.from_text, ParsedTree.scan_init.
    rewrite render_unfold, scan_label by assumption.
    change (py "(" ++ ?x) with ("("%char :: x). cbn [app foldM].
    rewrite (step_open _ _ _ _ _ _ Hflush), bind_ok.
    change (py ")") with [")"%char]. change (0 + 1) with 1.
    rewrite Hscan. reflexivity.
  - apply stored_unfold. cbn [tt_label tt_children]. split; [|exact Hforest].
    eexists. split; [exact Hpar2|].
    cbn [add_successors identifier data successors node0 app]. auto.
Qed.

Lemma children_to_numbered fuel t cs : forall m,
  stored_forest t m cs ->
  (forall c k, In c cs -> stored t k c ->
     ParsedTree.to_dict fuel t (Some k) = Ok (numbered k c)) ->
  exists ns,
    mapM (fun i => Tree.getitem t (Some i)) (child_ids m cs) = Ok ns /\
    mapM (fun child => ParsedTree.to_dict fuel t (Some (identifier child))) ns
    = Ok (numbered_forest m cs).
Proof.
  induction cs as [|c cs IH]; intros m Hst Hrec.
  - exists []. split; reflexivity.
  - cbn [stored_forest] in Hst. destruct Hst as [Hc Hcs].
    destruct (IH _ Hcs) as (ns & Hns & Hts); [intros x k Hx; apply Hrec; right; exact Hx|].
    pose proof Hc as Hc'. apply stored_unfold in Hc' as [(nd & Hnd & Hid & _) _].
    exists (nd :: ns). split.
    + assert (Hget : Tree.getitem t (Some m) = Ok nd)
        by (unfold Tree.getitem; rewrite Hnd; reflexivity).
      cbn [child_ids]. rewrite mapM_cons. cbv beta. rewrite Hget, bind_ok, Hns. reflexivity.
    + rewrite mapM_cons. cbv beta.
      rewrite Hid, (Hrec c m (or_introl eq_refl) Hc), bind_ok, Hts. reflexivity.
Qed.

Lemma to_dict_numbered fuel : forall t n tt,
  stored t n tt -> (tt_height tt <= fuel)%nat ->
  ParsedTree.to_dict fuel t (Some n) = Ok (numbered n tt).
Proof.
  induction fuel as [|fuel IH]; intros t n tt Hst Hh.
  - destruct tt. cbn in Hh. lia.
  - rewrite numbered_unfold. destruct tt as [l cs]. cbn [tt_height] in Hh.
    apply stored_unfold in Hst as [(nd & Hnd & Hid & Hdata & Hsucc) Hforest].
    cbn [tt_label tt_children] in *.
    destruct (children_to_numbered fuel t cs (n + 1) Hforest) as (ns & Hns & Hds).
    { intros c k Hc Hk. apply IH; [exact Hk|].
      pose proof (tt_height_child c cs Hc). lia. }
    cbn [ParsedTree.to_dict Tree.getitem]. rewrite Hnd, bind_ok.
    unfold Tree.children, Tree.is_branch. rewrite Hnd, bind_ok, Hsucc, Hns, bind_ok, Hds.
    rewrite bind_ok, Hid. unfold label_data. rewrite Hdata. reflexivity.
Qed.

(** X15.  From the text form to the dict form: on the tree [from_text]
    makes of a well-formed text whose root has a bracket group, [to_dict]
    returns the dict of the same shape in which the nodes carry the data
    read from their texts and are numbered 0, 1, 2, ... in the order in which
    the texts stand. *)
Theorem text_to_dict (tt : text_tree) :
  valid tt = true -> tt_children tt <> [] ->
  exists t,
    ParsedTree.from_text (render tt) false = Ok t /\
    forall fuel, (tt_height tt <= fuel)%nat ->
      ParsedTree.to_dict fuel t None = Ok (numbered 0 tt).
Proof.
  intros Hvalid Hne.
  destruct (from_text_stored tt Hvalid Hne) as (t & Hparse & Hroot & Hst).
  exists t. split; [exact Hparse|]. intros fuel Hfuel.
  assert (Hdefault : ParsedTree.to_dict fuel t None = ParsedTree.to_dict fuel t (Some 0)).
  { destruct fuel; [reflexivity|]. cbn [ParsedTree.to_dict]. rewrite Hroot. reflexivity. }
  rewrite Hdefault. apply to_dict_numbered; assumption.
Qed.

Lemma text_to_dict_witness :
  exists t,
    ParsedTree.from_text doc_text false = Ok t /\
    forall fuel, (2 <= fuel)%nat -> ParsedTree.to_dict fuel t None = Ok doc_dict.
Proof.
  apply (text_to_dict
           (TextNode (py "S")
              [TextNode (py "Head:Nab:中文字") []; TextNode (py "particle:Td:耶") []])).
  - vm_compute. reflexivity.
  - discriminate.
Defined.

(** ** What the traversals yield *)

Lemma head_nodes_nonempty t root_id semantic hs :
  ParsedTree.head_nodes t root_id semantic = Ok hs -> hs <> [].
Proof.
  unfold ParsedTree.head_nodes.
  destruct (Tree.children t root_id) as [cs|e]; [|discriminate]. rewrite bind_ok.
  destruct (match cs with [] => _ | _ :: _ => _ end) as [hs0|e]; [|discriminate].
  rewrite bind_ok. cbv zeta.
  destruct (ParsedTree.find_heads _ _ _) as [|x l].
  - destruct (py_last cs); [|discriminate]. intros [= <-]. discriminate.
  - intros [= <-]. discriminate.
Qed.

Lemma mapM_length {A B} (f : A -> result B) (l : list A) : forall bs,
  mapM f l = Ok bs -> length bs = length l.
Proof.
  induction l as [|a l IH]; intros bs.
  - intros [= <-]. reflexivity.
  - rewrite mapM_cons. destruct (f a) as [b|e]; [|discriminate]. rewrite bind_ok.
    destruct (mapM f l) as [bs'|e]; [|discriminate]. rewrite bind_ok.
    intros [= <-]. cbn [length]. f_equal. apply IH. reflexivity.
Qed.

Lemma concat_nonempty {A} (ls : list (list A)) :
  ls <> [] -> Forall (fun l => l <> []) ls -> concat ls <> [].
Proof.
  destruct ls as [|l ls]; [congruence|]. intros _ H. inversion H as [|? ? Hl _]; subst.
  cbn [concat]. destruct l; [congruence|discriminate].
Qed.

Lemma get_heads_nonempty h :
  forall t k fuel semantic deep,
    closed_below h t k = true -> (h <= fuel)%nat ->
    exists l, ParsedTree.get_heads fuel t (Some k) semantic deep = Ok l /\ l <> [].
Proof.
  induction h as [|h IH]; intros t k fuel semantic deep Hk Hfuel; [discriminate|].
  destruct fuel as [|fuel]; [lia|].
  destruct (children_closed _ _ _ Hk) as (n & cs & Hn & Hid & Hcs & Hleaf & Hall).
  destruct (head_nodes_ok
              (fun x => is_leaf x = true \/ closed_below h t (identifier x) = true)
              t k n cs semantic Hn Hcs) as (hs & Hhs & HP).
  { intros E. auto. }
  { eapply Forall_impl; [exact Hall|]. intros c [? ?]. auto. }
  cbn [ParsedTree.get_heads]. rewrite Hhs, bind_ok.
  destruct (mapM_ok
              (fun node => if deep && negb (is_leaf node)
                           then ParsedTree.get_heads fuel t (Some (identifier node)) semantic true
                           else Ok [node])
              (fun x => is_leaf x = true \/ closed_below h t (identifier x) = true)
              (fun l => l <> [])
              hs) as (ls & Hls & HQ); [|exact HP|].
  - intros x Hsub. destruct (deep && negb (is_leaf x)) eqn:Hd.
    + apply andb_true_iff in Hd as [-> Hnl]. apply negb_true_iff in Hnl.
      destruct Hsub as [Hl|Hc]; [congruence|].
      apply (IH t (identifier x) fuel semantic true Hc). lia.
    + exists [x]. split; [reflexivity|discriminate].
  - rewrite Hls, bind_ok. eexists. split; [reflexivity|].
    apply concat_nonempty; [|exact HQ].
    apply head_nodes_nonempty in Hhs. apply mapM_length in Hls.
    destruct ls; [|discriminate]. destruct hs; [congruence|discriminate].
Qed.

(** X16.  In a tree built through treelib, at every node of it and for
    every choice of the flags, [get_heads] yields at least one node (once the
    depth at hand covers the levels of the tree), and every node it yields is
    a node of the tree. *)
Theorem get_heads_yields_a_head (t : Tree) (k : Z) :
  built t -> is_Some (nodes t !! k) ->
  exists depth, forall fuel semantic deep, (depth <= fuel)%nat ->
    exists l, ParsedTree.get_heads fuel t (Some k) semantic deep = Ok l /\
              l <> [] /\
              Forall (fun x => nodes t !! identifier x = Some x) l.
Proof.
  intros Hb Hk. destruct (built_closed t Hb) as [h Hh]. exists h.
  intros fuel semantic deep Hfuel. specialize (Hh k Hk).
  destruct (get_heads_nonempty h t k fuel semantic deep Hh Hfuel) as (l & Hl & Hne).
  destruct (get_heads_ok h t k fuel semantic deep Hh Hfuel) as (l' & Hl' & HQ).
  exists l. split; [exact Hl|]. split; [exact Hne|].
  assert (l' = l) as -> by congruence.
  eapply Forall_impl; [exact HQ|]. intros x [Hx _]. exact Hx.
Qed.

Lemma get_heads_yields_a_head_witness :
  exists depth, forall fuel semantic deep, (depth <= fuel)%nat ->
    exists l, ParsedTree.get_heads fuel doc_tree (Some 0) semantic deep = Ok l /\
              l <> [] /\
              Forall (fun x => nodes doc_tree !! identifier x = Some x) l.
Proof.
  apply (get_heads_yields_a_head doc_tree 0 doc_tree_built).
  vm_compute. eexists. reflexivity.
Defined.

Lemma get_relations_shape h :
  forall t k fuel semantic,
    closed_below h t k = true -> (h < fuel)%nat ->
    exists rs,
      ParsedTree.get_relations fuel t (Some k) semantic = Ok rs /\
      Forall (fun r => is_leaf (head r) = true /\ is_leaf (tail r) = true /\
                       ParsedTree.has_role (py "Head") (relation r) = false /\
                       nodes t !! identifier (relation r) = Some (relation r) /\
                       (is_leaf (relation r) = true -> tail r = relation r)) rs.
Proof.
  set (Q t := fun r => is_leaf (head r) = true /\ is_leaf (tail r) = true /\
                       ParsedTree.has_role (py "Head") (relation r) = false /\
                       nodes t !! identifier (relation r) = Some (relation r) /\
                       (is_leaf (relation r) = true -> tail r = relation r)).
  induction h as [|h IH]; intros t k fuel semantic Hk Hfuel; [discriminate|].
  destruct fuel as [|fuel]; [lia|].
  destruct (children_closed _ _ _ Hk) as (n & cs & Hn & Hid & Hcs & Hleaf & Hall).
  cbn [ParsedTree.get_relations]. rewrite Hcs, bind_ok.
  destruct (get_heads_ok _ t k fuel semantic false Hk ltac:(lia)) as (hc & -> & _).
  destruct (get_heads_ok _ t k fuel semantic true Hk ltac:(lia)) as (hd & -> & Hhd).
  rewrite !bind_ok.
  destruct (mapM_ok
              (fun head_node =>
                 mapM (ParsedTree.tail_relations fuel t semantic hc head_node) cs
                 ≫= fun rs => Ok (concat rs))
              (fun x => is_leaf x = true) (Forall (Q t)) hd) as (here & -> & Hhere).
  { intros head_node Hhead.
    destruct (mapM_ok (ParsedTree.tail_relations fuel t semantic hc head_node)
                (fun c => nodes t !! identifier c = Some c
                          /\ closed_below h t (identifier c) = true)
                (Forall (Q t)) cs) as (rs & -> & Hrs).
    - intros c [Hc Hcl]. unfold ParsedTree.tail_relations.
      destruct (negb (ParsedTree.has_role (py "Head") c)) eqn:Hrole;
        [|exists []; split; [reflexivity|constructor]].
      apply negb_true_iff in Hrole.
      destruct (negb (ParsedTree.node_in c hc));
        [|exists []; split; [reflexivity|constructor]].
      cbn [andb]. destruct (is_leaf c) eqn:Hlc.
      + eexists. split; [reflexivity|]. constructor; [|constructor].
        unfold Q. cbn [head tail relation]. auto.
      + destruct (get_heads_ok _ t (identifier c) fuel semantic true Hcl ltac:(lia))
          as (l & -> & Hl).
        rewrite bind_ok. eexists. split; [reflexivity|].
        apply Forall_map. eapply Forall_impl; [exact Hl|].
        intros x [_ Hx]. unfold Q. cbn [head tail relation].
        split; [exact Hhead|]. split; [auto|]. split; [exact Hrole|].
        split; [exact Hc|]. congruence.
    - exact Hall.
    - rewrite bind_ok. eexists. split; [reflexivity|]. apply Forall_concat, Hrs. }
  { eapply Forall_impl; [exact Hhd|]. intros x [_ Hx]. auto. }
  rewrite bind_ok.
  destruct (mapM_ok
              (fun child => ParsedTree.get_relations fuel t (Some (identifier child)) semantic)
              (fun c => closed_below h t (identifier c) = true) (Forall (Q t)) cs)
    as (below & -> & Hbelow).
  { intros c Hc. apply IH; [exact Hc|lia]. }
  { eapply Forall_impl; [exact Hall|]. intros c [_ ?]. assumption. }
  rewrite bind_ok. eexists. split; [reflexivity|].
  apply Forall_app. split; apply Forall_concat; assumption.
Qed.

(** X17.  In a tree built through treelib, at every node of it, the
    relations [get_relations] yields (once the depth at hand covers the
    levels of the tree) all join two leaves: the head and the tail of each are
    leaves, its relation node is a node of the tree whose role is not 'Head',
    and the tail is the relation node itself when that is a leaf. *)
Theorem get_relations_join_leaves (t : Tree) (k : Z) :
  built t -> is_Some (nodes t !! k) ->
  exists depth, forall fuel semantic, (depth <= fuel)%nat ->
    exists rs,
      ParsedTree.get_relations fuel t (Some k) semantic = Ok rs /\
      Forall (fun r => is_leaf (head r) = true /\ is_leaf (tail r) = true /\
                       ParsedTree.has_role (py "Head") (relation r) = false /\
                       nodes t !! identifier (relation r) = Some (relation r) /\
                       (is_leaf (relation r) = true -> tail r = relation r)) rs.
Proof.
  intros Hb Hk. destruct (built_closed t Hb) as [h Hh]. exists (S h).
  intros fuel semantic Hfuel.
  apply (get_relations_shape h); [exact (Hh k Hk)|lia].
Qed.

Lemma get_relations_join_leaves_witness :
  exists depth, forall fuel semantic, (depth <= fuel)%nat ->
    exists rs,
      ParsedTree.get_relations fuel doc_tree (Some 0) semantic = Ok rs /\
      Forall (fun r => is_leaf (head r) = true /\ is_leaf (tail r) = true /\
                       ParsedTree.has_role (py "Head") (relation r) = false /\
                       nodes doc_tree !! identifier (relation r) = Some (relation r) /\
                       (is_leaf (relation r) = true -> tail r = relation r)) rs.
Proof.
  apply (get_relations_join_leaves doc_tree 0 doc_tree_built).
  vm_compute. eexists. reflexivity.
Defined.

Lemma get_subjects_shape SUBJECT_ROLES NEUTRAL_ROLES h :
  forall t k fuel semantic deep,
    closed_below h t k = true -> (h < fuel)%nat ->
    map_Forall (fun _ n => has_pos n = true) (nodes t) ->
    exists l,
      ParsedTree.get_subjects SUBJECT_ROLES NEUTRAL_ROLES fuel t (Some k) semantic deep
      = Ok l /\
      Forall (fun x => nodes t !! identifier x = Some x
                       /\ (deep = true -> is_leaf x = true)) l.
Proof.
  intros t k fuel semantic deep Hk Hfuel Hpos.
  destruct h as [|h]; [discriminate|]. destruct fuel as [|fuel]; [lia|].
  destruct (children_closed _ _ _ Hk) as (n & cs & Hn & Hid & Hcs & Hleaf & Hall).
  cbn [ParsedTree.get_subjects Tree.getitem]. rewrite Hn, bind_ok, Hid.
  destruct (bool_decide _).
  { apply (get_heads_ok (S h)); [exact Hk|lia]. }
  destruct (bool_decide _); [|exists []; split; [reflexivity|constructor]].
  destruct (get_heads_ok _ t k fuel false false Hk ltac:(lia)) as (hs & -> & Hhs).
  rewrite bind_ok.
  destruct (mapM_ok (ParsedTree.head_subjects SUBJECT_ROLES NEUTRAL_ROLES
                       fuel t semantic deep n)
              (fun x => nodes t !! identifier x = Some x)
              (Forall (fun x => nodes t !! identifier x = Some x
                                /\ (deep = true -> is_leaf x = true)))
              hs) as (per_head & -> & Hper).
  - intros x Hx. unfold ParsedTree.head_subjects, ParsedTree.pos_startswith.
    pose proof (Hpos _ _ Hx) as Hp. unfold has_pos in Hp.
    destruct (ParsedNodeData.pos (data x)) as [p|]; [|discriminate]. rewrite bind_ok.
    destruct (str_startswith _ p); [|exists []; split; [reflexivity|constructor]].
    rewrite Hid, Hcs, bind_ok.
    destruct (mapM_ok
                (fun subroot : ParsedNode =>
                   ParsedTree.is_subject SUBJECT_ROLES NEUTRAL_ROLES x subroot
                   ≫= fun q : bool =>
                        if q then ParsedTree.get_heads fuel t (Some (identifier subroot))
                                   semantic deep
                        else Ok [])
                (fun c => nodes t !! identifier c = Some c
                          /\ closed_below h t (identifier c) = true)
                (Forall (fun x => nodes t !! identifier x = Some x
                                  /\ (deep = true -> is_leaf x = true)))
                cs)
      as (per_sub & -> & Hsub); [|exact Hall|].
    + intros c [Hc Hcl]. unfold ParsedTree.is_subject, ParsedTree.pos_startswith.
      pose proof (Hpos _ _ Hc) as Hq. unfold has_pos in Hq.
      destruct (ParsedNodeData.pos (data c)) as [q|]; [|discriminate]. rewrite !bind_ok.
      destruct (_ && _); [|exists []; split; [reflexivity|constructor]].
      apply (get_heads_ok h); [exact Hcl|lia].
    + rewrite bind_ok. eexists. split; [reflexivity|]. apply Forall_concat, Hsub.
  - eapply Forall_impl; [exact Hhs|]. intros x [Hx _]. exact Hx.
  - rewrite bind_ok. eexists. split; [reflexivity|]. apply Forall_concat, Hper.
Qed.

(** X18.  In a tree built through treelib in which every node has a pos,
    at every node of it and whatever the two role collections, the subjects
    [get_subjects] yields (once the depth at hand covers the levels of the
    tree) are nodes of the tree, and leaves when the search is deep. *)
Theorem get_subjects_yields_nodes (SUBJECT_ROLES NEUTRAL_ROLES : list str)
    (t : Tree) (k : Z) :
  built t -> is_Some (nodes t !! k) ->
  map_Forall (fun _ n => has_pos n = true) (nodes t) ->
  exists depth, forall fuel semantic deep, (depth <= fuel)%nat ->
    exists l,
      ParsedTree.get_subjects SUBJECT_ROLES NEUTRAL_ROLES fuel t (Some k) semantic deep
      = Ok l /\
      Forall (fun x => nodes t !! identifier x = Some x
                       /\ (deep = true -> is_leaf x = true)) l.
Proof.
  intros Hb Hk Hpos. destruct (built_closed t Hb) as [h Hh]. exists (S h).
  intros fuel semantic deep Hfuel.
  apply (get_subjects_shape _ _ h); [exact (Hh k Hk)|lia|exact Hpos].
Qed.

Lemma get_subjects_yields_nodes_witness :
  exists depth, forall fuel semantic deep, (depth <= fuel)%nat ->
    exists l,
      ParsedTree.get_subjects [py "agent"] [py "theme"] fuel doc_tree (Some 0)
        semantic deep = Ok l /\
      Forall (fun x => nodes doc_tree !! identifier x = Some x
                       /\ (deep = true -> is_leaf x = true)) l.
Proof.
  apply (get_subjects_yields_nodes [py "agent"] [py "theme"] doc_tree 0 doc_tree_built).
  - vm_compute. eexists. reflexivity.
  - apply map_Forall_to_list. vm_compute. repeat constructor.
Defined.

(** ** From the dict form to the text form *)

(** The tree [from_dict] makes of a dict with distinct identifiers files
    every dict nested in it under its identifier. *)
Lemma from_dict_stored (d : tree_dict) :
  NoDup (dict_ids d) ->
  exists t,
    ParsedTree.from_dict d = Ok t /\ root t = Some (dict_id d) /\
    forall x, In x (subdicts d) -> node_ok t x.
Proof.
  intros Hnodup. unfold ParsedTree.from_dict.
  rewrite ParsedTree.from_dict_loop_equation_2. cbv zeta.
  set (nid := dict_id d).
  set (node0 := mk_node nid (ParsedNodeData.to_text (ParsedNodeData.from_dict (dict_data d)))
                  (ParsedNodeData.from_dict (dict_data d)) None []).
  set (t1 := mk_tree (<[nid := node0]> ∅) (Some nid)).
  assert (Hcreate : Tree.create_node Tree.empty
                      (ParsedNodeData.to_text (ParsedNodeData.from_dict (dict_data d)))
                      nid None (ParsedNodeData.from_dict (dict_data d)) = Ok t1).
  { unfold Tree.create_node. cbn [Tree.empty nodes root]. rewrite lookup_empty. reflexivity. }
  rewrite Hcreate. cbn [app].
  unfold dict_ids in Hnodup. rewrite subdicts_unfold in Hnodup. cbn [map] in Hnodup.
  fold nid in Hnodup. apply NoDup_cons in Hnodup as [Hnid Hnodup].
  destruct (from_dict_loop_spec _ (map (fun child => (child, Some nid)) (dict_children d)) t1
              (le_n _)) as (t & Hloop & Hroot & Hold & Hq).
  - rewrite queue_dicts_children. exact Hnodup.
  - intros x Hx. rewrite queue_dicts_children in Hx. cbn [t1 nodes].
    rewrite lookup_insert_ne; [apply lookup_empty|].
    intros E. apply Hnid. rewrite E. apply list_elem_of_In, in_map, Hx.
  - apply Forall_forall. intros e He. apply list_elem_of_In, in_map_iff in He as (c & <- & _).
    exists nid. split; [reflexivity|]. cbn [t1 nodes]. rewrite lookup_insert_eq. eauto.
  - exists t. split; [exact Hloop|]. split; [exact Hroot|].
    intros x Hx. rewrite subdicts_unfold in Hx. destruct Hx as [<-|Hx].
    + exists (add_successors
                (queued_under nid (map (fun child => (child, Some nid)) (dict_children d)))
                node0).
      split; [apply Hold; cbn [t1 nodes]; apply lookup_insert_eq|].
      split; [reflexivity|]. split; [reflexivity|].
      cbn [add_successors successors node0 app]. apply queued_under_children.
    + apply Hq. rewrite queue_dicts_children. exact Hx.
Qed.

Lemma children_to_dict_text fuel t cs :
  (forall c, In c cs ->
     node_ok t c /\ ParsedTree.to_text fuel t (Some (dict_id c)) = Ok (dict_text c)) ->
  exists ns,
    mapM (fun i => Tree.getitem t (Some i)) (map dict_id cs) = Ok ns /\
    mapM (fun child => ParsedTree.to_text fuel t (Some (identifier child))) ns
    = Ok (map dict_text cs).
Proof.
  induction cs as [|c cs IH]; intros Hcs.
  - exists []. split; reflexivity.
  - destruct (Hcs c (or_introl eq_refl)) as [(n & Hn & Hid & _) Hc].
    destruct IH as (ns & Hns & Hds); [intros x Hx; apply Hcs; right; exact Hx|].
    exists (n :: ns). split.
    + assert (Hget : Tree.getitem t (Some (dict_id c)) = Ok n)
        by (unfold Tree.getitem; rewrite Hn; reflexivity).
      cbn [map]. rewrite mapM_cons. cbv beta. rewrite Hget, bind_ok, Hns. reflexivity.
    + rewrite mapM_cons. cbv beta. rewrite Hid, Hc, bind_ok, Hds. reflexivity.
Qed.

Lemma to_text_of_dict fuel :
  forall t d,
    (forall x, In x (subdicts d) -> node_ok t x) ->
    (dict_height d <= fuel)%nat ->
    ParsedTree.to_text fuel t (Some (dict_id d)) = Ok (dict_text d).
Proof.
  induction fuel as [|fuel IH]; intros t d Hall Hh.
  - destruct d. cbn in Hh. lia.
  - destruct d as [i x cs]. cbn [dict_height] in Hh.
    destruct (Hall _ (or_introl eq_refl)) as (n & Hn & Hid & Hdata & Hsucc).
    cbn [dict_id dict_data dict_children] in *.
    destruct (children_to_dict_text fuel t cs) as (ns & Hns & Hds).
    { intros c Hc.
      assert (Hsub : forall y, In y (subdicts c) -> In y (subdicts (TreeDict i x cs))).
      { intros y Hy. cbn [subdicts]. right. apply in_flat_map. eauto. }
      split.
      - apply Hall, Hsub. rewrite subdicts_unfold. left. reflexivity.
      - apply IH; [intros y Hy; apply Hall, Hsub, Hy|].
        pose proof (dict_height_child c cs Hc). lia. }
    cbn [ParsedTree.to_text Tree.getitem]. rewrite Hn, bind_ok.
    unfold Tree.children, Tree.is_branch. rewrite Hn, bind_ok, Hsucc, Hns, bind_ok, Hds.
    rewrite bind_ok, Hdata. cbn [dict_text].
    destruct (str_join (py "|") (map dict_text cs)); reflexivity.
Qed.

(** X19.  From the dict form to the text form: on the tree [from_dict]
    makes of a dict whose identifiers are distinct, [to_text] returns the text
    of the dict, each node written as the node text of its data, followed by
    the texts of its children joined by '|' in brackets; the brackets are
    left out when that joined text is empty. *)
Theorem dict_to_text (d : tree_dict) :
  NoDup (dict_ids d) ->
  exists t,
    ParsedTree.from_dict d = Ok t /\
    forall fuel, (dict_height d <= fuel)%nat ->
      ParsedTree.to_text fuel t None = Ok (dict_text d).
Proof.
  intros Hnodup. destruct (from_dict_stored d Hnodup) as (t & Hload & Hroot & Hall).
  exists t. split; [exact Hload|]. intros fuel Hfuel.
  assert (Hdefault : ParsedTree.to_text fuel t None
                     = ParsedTree.to_text fuel t (Some (dict_id d))).
  { destruct fuel; [reflexivity|]. cbn [ParsedTree.to_text]. rewrite Hroot. reflexivity. }
  rewrite Hdefault. apply to_text_of_dict; assumption.
Qed.

Lemma dict_to_text_witness :
  exists t,
    ParsedTree.from_dict doc_dict = Ok t /\
    forall fuel, (2 <= fuel)%nat -> ParsedTree.to_text fuel t None = Ok doc_text.
Proof.
  apply (dict_to_text doc_dict).
  apply (bool_decide_unpack _). vm_compute. exact I.
Defined.

(** ** Unbalanced brackets in ParsedTree.from_text: what is refused *)

Lemma foldM_raise {A S} (f : A -> S -> result S) (l : list A) : forall s e,
  foldM f l s = Raise e ->
  exists l1 a l2 s', l = l1 ++ a :: l2 /\ foldM f l1 s = Ok s' /\ f a s' = Raise e.
Proof.
  induction l as [|a l IH]; intros s e H; [discriminate|].
  cbn [foldM] in H. destruct (f a s) as [s1|e1] eqn:Hf.
  - rewrite bind_ok in H. destruct (IH _ _ H) as (l1 & b & l2 & s' & -> & Hl1 & Hb).
    exists (a :: l1), b, l2, s'. split; [reflexivity|]. split; [|exact Hb].
    cbn [foldM]. rewrite Hf, bind_ok. exact Hl1.
  - rewrite bind_raise in H. injection H as <-.
    exists [], a, l, s. split; [reflexivity|]. split; [reflexivity|exact Hf].
Qed.

Lemma node_text_raise l e : ParsedNodeData.from_text l = Raise e -> e = TypeError.
Proof.
  unfold ParsedNodeData.from_text. destruct (str_contains ":" l); [|discriminate].
  unfold ParsedNodeData.new.
  destruct (str_split ":" l) as [|? [|? [|? [|? ?]]]]; try discriminate;
    intros [= <-]; reflexivity.
Qed.

(** How filing the pending node text can fail, after any number of turns of
    the loop. *)
Lemma flush_raise st e :
  scanned (ParsedTree.s_tree st) (ParsedTree.s_node_id st) (ParsedTree.s_node_queue st) ->
  ParsedTree.flush st = Raise e ->
  (e = TypeError /\ ParsedNodeData.from_text (ParsedTree.s_text st) = Raise TypeError) \/
  (e = IndexError /\ ParsedTree.s_node_queue st = []) \/
  (e = MultipleRootError /\ exists q, ParsedTree.s_node_queue st = None :: q
                                      /\ is_Some (root (ParsedTree.s_tree st))).
Proof.
  intros (Hb & Hdom & _ & _ & _ & Hq) H. unfold ParsedTree.flush in H.
  destruct (ParsedNodeData.from_text (ParsedTree.s_text st)) as [d|e'] eqn:Hd.
  - rewrite bind_ok in H.
    destruct (ParsedTree.s_node_queue st) as [|parent q] eqn:Hqueue.
    { injection H as <-. right. left. auto. }
    unfold Tree.create_node in H.
    destruct (nodes (ParsedTree.s_tree st) !! ParsedTree.s_node_id st) eqn:Hid.
    { assert (Hs : is_Some (nodes (ParsedTree.s_tree st) !! ParsedTree.s_node_id st))
        by (rewrite Hid; eauto).
      apply Hdom in Hs. lia. }
    destruct parent as [pid|].
    + apply Forall_cons in Hq as [Hpid _]. specialize (Hpid pid eq_refl).
      apply Hdom in Hpid as [np Hnp]. rewrite Hnp in H. discriminate.
    + destruct (root (ParsedTree.s_tree st)) as [r|] eqn:Hroot; [|discriminate].
      injection H as <-. right. right. split; [reflexivity|]. exists q. eauto.
  - rewrite bind_raise in H. injection H as <-.
    pose proof (node_text_raise _ _ Hd) as ->. left. auto.
Qed.

Lemma flush_pending_queue st st1 :
  ParsedTree.flush_pending st = Ok st1 ->
  ParsedTree.s_node_queue st1 = ParsedTree.s_node_queue st.
Proof.
  unfold ParsedTree.flush_pending. destruct (ParsedTree.s_ending st); [intros [= <-]; reflexivity|].
  destruct (ParsedTree.flush st) as [t|e]; [|discriminate].
  rewrite bind_ok. intros [= <-]. reflexivity.
Qed.

Lemma flush_pending_raise st e :
  scanned (ParsedTree.s_tree st) (ParsedTree.s_node_id st) (ParsedTree.s_node_queue st) ->
  ParsedTree.flush_pending st = Raise e ->
  (e = IndexError /\ ParsedTree.s_node_queue st = []) \/
  e = TypeError \/ e = MultipleRootError.
Proof.
  intros Hinv. unfold ParsedTree.flush_pending.
  destruct (ParsedTree.s_ending st); [discriminate|].
  destruct (ParsedTree.flush st) as [t|e'] eqn:Hf; [discriminate|].
  rewrite bind_raise. intros [= <-].
  destruct (flush_raise _ _ Hinv Hf) as [[-> _]|[[-> Hq]|[-> _]]]; auto.
Qed.

(** A turn of the loop fails with [IndexError] at an empty stack only, and
    otherwise with the [TypeError] of the node text or with treelib's
    [MultipleRootError]. *)
Lemma step_raise c st e :
  scanned (ParsedTree.s_tree st) (ParsedTree.s_node_id st) (ParsedTree.s_node_queue st) ->
  ParsedTree.step c st = Raise e ->
  (e = IndexError /\ ParsedTree.s_node_queue st = []) \/
  e = TypeError \/ e = MultipleRootError.
Proof.
  intros Hinv. unfold ParsedTree.step.
  destruct (Ascii.eqb c "(").
  { destruct (ParsedTree.flush st) as [t|e'] eqn:Hf; [discriminate|].
    rewrite bind_raise. intros [= <-].
    destruct (flush_raise _ _ Hinv Hf) as [[-> _]|[[-> Hq]|[-> _]]]; auto. }
  destruct (Ascii.eqb c ")").
  { destruct (ParsedTree.flush_pending st) as [st1|e'] eqn:Hf.
    - rewrite bind_ok. pose proof (flush_pending_queue _ _ Hf) as Hq1.
      destruct (ParsedTree.s_node_queue st1) as [|x q]; [|discriminate].
      cbn [ParsedTree.pop]. rewrite bind_raise. intros [= <-]. left. auto.
    - rewrite bind_raise. intros [= <-]. apply flush_pending_raise; assumption. }
  destruct (Ascii.eqb c "|"); [|discriminate].
  destruct (ParsedTree.flush_pending st) as [st1|e'] eqn:Hf; [discriminate|].
  rewrite bind_raise. intros [= <-]. apply flush_pending_raise; assumption.
Qed.

Lemma scan_scanned prefix st :
  foldM ParsedTree.step prefix ParsedTree.scan_init = Ok st ->
  scanned (ParsedTree.s_tree st) (ParsedTree.s_node_id st) (ParsedTree.s_node_queue st).
Proof.
  intros H.
  apply (foldM_invariant ParsedTree.step
           (fun s => scanned (ParsedTree.s_tree s) (ParsedTree.s_node_id s)
                       (ParsedTree.s_node_queue s))
           (fun a s s' => step_scanned a s s') prefix ParsedTree.scan_init st
           scanned_init H).
Qed.

(** C8, as the code has it.  [from_text] has no check of the brackets and
    no error of its own.  After any text read so far:
    - when the stack is really empty (an earlier surplus ')' has popped the
      root sentinel), a ')' makes the call fail, and so does a '|' that finds
      a node text pending, with [IndexError] or with the [TypeError] of the
      pending node text;
    - when the root sentinel alone is on the stack, a surplus ')' that ends
      the text is accepted and a tree returned, except when a node text is
      pending that cannot be filed (it has more than three fields, or the
      tree has a root already);
    - a turn of the loop fails with [IndexError] at an empty stack only, and
      otherwise with [TypeError] or treelib's [MultipleRootError];
    - however the text goes on, the call raises none but these three. *)
Theorem from_text_unbalanced_brackets (prefix : str) (st : ParsedTree.scan) :
  foldM ParsedTree.step prefix ParsedTree.scan_init = Ok st ->
  (ParsedTree.s_node_queue st = [] ->
   forall rest,
     aborted (ParsedTree.from_text (prefix ++ ")"%char :: rest) false) /\
     (ParsedTree.s_ending st = false ->
      aborted (ParsedTree.from_text (prefix ++ "|"%char :: rest) false))) /\
  (ParsedTree.s_node_queue st = [None] ->
   (is_ok (ParsedTree.from_text (prefix ++ [")"%char]) false)
    <-> ParsedTree.s_ending st = true
        \/ (root (ParsedTree.s_tree st) = None
            /\ is_ok (ParsedNodeData.from_text (ParsedTree.s_text st))))) /\
  (forall c e, ParsedTree.step c st = Raise e ->
     (e = IndexError /\ ParsedTree.s_node_queue st = []) \/
     e = TypeError \/ e = MultipleRootError) /\
  (forall rest e, ParsedTree.from_text (prefix ++ rest) false = Raise e ->
     e = IndexError \/ e = TypeError \/ e = MultipleRootError).
Proof.
  intros Hpre. pose proof (scan_scanned _ _ Hpre) as Hinv.
  split; [|split; [|split]].
  - intros Hq rest. destruct (step_on_empty_stack st Hq) as [Hclose Hbar].
    unfold ParsedTree.from_text. split.
    + rewrite foldM_app, Hpre, bind_ok. cbn [foldM].
      apply aborted_bind, aborted_bind, Hclose.
    + intros He. rewrite foldM_app, Hpre, bind_ok. cbn [foldM].
      apply aborted_bind, aborted_bind, Hbar, He.
  - intros Hq. unfold ParsedTree.from_text.
    rewrite foldM_app, Hpre, bind_ok. cbn [foldM].
    unfold ParsedTree.step, ParsedTree.flush_pending. simpl Ascii.eqb. cbv iota.
    destruct (ParsedTree.s_ending st) eqn:He.
    { rewrite bind_ok, Hq. cbn. tauto. }
    unfold ParsedTree.flush. rewrite Hq.
    destruct (ParsedNodeData.from_text (ParsedTree.s_text st)) as [d|e] eqn:Hd.
    + rewrite bind_ok. unfold Tree.create_node.
      destruct (nodes (ParsedTree.s_tree st) !! ParsedTree.s_node_id st) eqn:Hid.
      { destruct Hinv as (_ & Hdom & _).
        assert (Hs : is_Some (nodes (ParsedTree.s_tree st) !! ParsedTree.s_node_id st))
          by (rewrite Hid; eauto).
        apply Hdom in Hs. lia. }
      destruct (root (ParsedTree.s_tree st)) as [r|].
      * cbn. split; [tauto|]. intros [?|[? _]]; discriminate.
      * cbn. split; [|tauto]. intros _. right. split; [reflexivity|exact I].
    + cbn. split; [tauto|]. intros [?|[_ []]]. discriminate.
  - intros c e. apply step_raise, Hinv.
  - intros rest e. unfold ParsedTree.from_text. rewrite foldM_app, Hpre, bind_ok.
    destruct (foldM ParsedTree.step rest st) as [st'|e'] eqn:Hrest; [discriminate|].
    rewrite bind_raise. intros [= <-].
    destruct (foldM_raise _ _ _ _ Hrest) as (l1 & a & l2 & s' & -> & Hl1 & Ha).
    assert (Hs' : scanned (ParsedTree.s_tree s') (ParsedTree.s_node_id s')
                    (ParsedTree.s_node_queue s')).
    { apply (foldM_invariant ParsedTree.step
               (fun s => scanned (ParsedTree.s_tree s) (ParsedTree.s_node_id s)
                           (ParsedTree.s_node_queue s))
               (fun a s s' => step_scanned a s s') l1 st s' Hinv Hl1). }
    destruct (step_raise _ _ _ Hs' Ha) as [[-> _]|[->| ->]]; auto.
Qed.

Lemma from_text_unbalanced_brackets_witness :
  aborted (ParsedTree.from_text (py "A))") false) /\
  is_ok (ParsedTree.from_text (py "A)") false) /\
  ~ is_ok (ParsedTree.from_text (py "A(B)C)") false).
Proof.
  split; [|split].
  - apply (proj1 (from_text_unbalanced_brackets (py "A)")
                    (ParsedTree.mk_scan (tree_of (ParsedTree.from_text (py "A)") false))
                       1 [] [] true)
                    ltac:(vm_compute; reflexivity)) eq_refl []).
  - apply (proj1 (proj2 (from_text_unbalanced_brackets (py "A")
                           (ParsedTree.mk_scan Tree.empty 0 [None] (py "A") false)
                           ltac:(vm_compute; reflexivity))) eq_refl).
    right. split; [reflexivity|exact I].
  - intros H.
    apply (proj1 (proj2 (from_text_unbalanced_brackets (py "A(B)C")
                           (ParsedTree.mk_scan
                              (tree_of (ParsedTree.from_text (py "A(B)") false))
                              2 [None] (py "C") false)
                           ltac:(vm_compute; reflexivity))) eq_refl) in H.
    destruct H as [H|[H _]]; vm_compute in H; discriminate.
Defined.
